(** * LitSpy: query construction, synonym cleaning and result harvesting

    A shallow embedding of the parts of [litspy/epmc_query.py],
    [litspy/get_synonyms.py] and [litspy/__main__.py] that build Europe PMC
    queries from synonym lists, clean synonym lists and assemble the result
    documents, followed by the properties established for them.

    Conventions of the embedding.
    - A Python [str] is a list of code points ([N]); [len] is [length].
    - A call either returns, raises, or is still running when the fuel given
      to its [while] loops is used up ([outcome]).
    - Methods of [Query] that write to the logger or talk to a service are
      state transformers over the list of emitted events ([M]); warnings and
      errors are recorded with the text the source formats, records of level
      info and debug are not recorded.
    - Python dictionaries are association lists in insertion order. *)

From Stdlib Require Import String Ascii List ZArith NArith Bool Arith Lia Permutation.
Import ListNotations.
Local Open Scope list_scope.
Local Open Scope Z_scope.

Set Implicit Arguments.

(** ** Python values: strings, outcomes, events *)

Definition str := list N.

Definition lit (s : string) : str :=
  map N_of_ascii (list_ascii_of_string s).
Arguments lit s%_string.

Fixpoint str_eqb (a b : str) : bool :=
  match a, b with
  | [], [] => true
  | x :: a', y :: b' => N.eqb x y && str_eqb a' b'
  | _, _ => false
  end.

Inductive exn :=
| TypeError | IndexError | KeyError | ValueError | ZeroDivisionError
| AttributeError | UnicodeEncodeError | SystemExit
| NotModelled
  (** not an exception of Python: a run the embedding does not describe (a
      regular expression assembled at run time from text that holds a
      metacharacter, which the embedding does not parse; an attribute set to
      a value of another type than the embedding gives it) *).

Inductive outcome (A : Type) :=
| Ret (a : A)
| Raise (e : exn)
| Timeout.
Arguments Ret {A} a.
Arguments Raise {A} e.
Arguments Timeout {A}.

Definition obind {A B} (c : outcome A) (f : A -> outcome B) : outcome B :=
  match c with
  | Ret a => f a
  | Raise e => Raise e
  | Timeout => Timeout
  end.

Declare Scope py_scope.
Delimit Scope py_scope with py.
Notation "x <- c ;; k" := (obind c (fun x => k))
  (at level 61, c at next level, right associativity) : py_scope.

Inductive level := WARNING | ERROR.

Inductive event :=
| Log (lv : level) (msg : str)
| OLSRequest (what : str)
| EPMCRequest (query cursor : str).

(** The monad of [Query]'s methods: the events emitted so far are threaded
    through, the result is an [outcome]. *)
Definition M (A : Type) := list event -> list event * outcome A.

Definition mret {A} (a : A) : M A := fun ev => (ev, Ret a).
Definition mraise {A} (e : exn) : M A := fun ev => (ev, Raise e).
Definition mtimeout {A} : M A := fun ev => (ev, Timeout).
Definition mbind {A B} (c : M A) (f : A -> M B) : M B :=
  fun ev => match c ev with
            | (ev', Ret a) => f a ev'
            | (ev', Raise e) => (ev', Raise e)
            | (ev', Timeout) => (ev', Timeout)
            end.
Definition emit (e : event) : M unit := fun ev => (ev ++ [e], Ret tt).
Definition lift {A} (c : outcome A) : M A := fun ev => (ev, c).

Declare Scope m_scope.
Delimit Scope m_scope with m.
Notation "x <-- c ;; k" := (mbind c (fun x => k))
  (at level 61, c at next level, right associativity) : m_scope.
Notation "c ;;; k" := (mbind c (fun _ => k))
  (at level 61, right associativity) : m_scope.

Fixpoint mapM {A B} (f : A -> M B) (l : list A) : M (list B) :=
  match l with
  | [] => mret []
  | x :: l' => (y <-- f x ;; ys <-- mapM f l' ;; mret (y :: ys))%m
  end.

(** ** [str] methods that do not depend on the Unicode tables *)

Fixpoint startswith (s p : str) : bool :=
  match p, s with
  | [], _ => true
  | c :: p', d :: s' => N.eqb c d && startswith s' p'
  | _ :: _, [] => false
  end.

Definition endswith (s p : str) : bool := startswith (rev s) (rev p).

Definition mem_chr (c : N) (chars : str) : bool := existsb (N.eqb c) chars.

Fixpoint dropwhile (p : N -> bool) (s : str) : str :=
  match s with
  | [] => []
  | c :: s' => if p c then dropwhile p s' else s
  end.

Definition lstrip_with (p : N -> bool) (s : str) : str := dropwhile p s.
Definition rstrip_with (p : N -> bool) (s : str) : str := rev (dropwhile p (rev s)).
Definition strip_with (p : N -> bool) (s : str) : str := rstrip_with p (lstrip_with p s).

(** [s.strip(chars)] *)
Definition strip_chars (s chars : str) : str := strip_with (fun c => mem_chr c chars) s.

(** [sep.join(parts)] *)
Fixpoint join (sep : str) (parts : list str) : str :=
  match parts with
  | [] => []
  | [p] => p
  | p :: rest => p ++ sep ++ join sep rest
  end.

(** [sub in s] *)
Fixpoint contains (s sub : str) : bool :=
  startswith s sub ||
  match s with
  | [] => false
  | _ :: s' => contains s' sub
  end.

(** [s.replace(old, new)] for a non-empty [old]: the occurrences are replaced
    from left to right, without overlap. The fuel bounds the number of
    characters still to be scanned. *)
Fixpoint replace_fuel (n : nat) (s old new : str) : str :=
  match n with
  | O => s
  | S n' =>
      match s with
      | [] => []
      | c :: s' =>
          if startswith s old
          then new ++ replace_fuel n' (skipn (length old) s) old new
          else c :: replace_fuel n' s' old new
      end
  end.

Definition replace (s old new : str) : str :=
  match old with
  | [] => s
  | _ => replace_fuel (length s) s old new
  end.

(** [s.split(sep)] for a one-character separator *)
Fixpoint split_on (sep : N) (s : str) : list str :=
  match s with
  | [] => [[]]
  | c :: s' =>
      if N.eqb c sep then [] :: split_on sep s'
      else match split_on sep s' with
           | w :: ws => (c :: w) :: ws
           | [] => [[c]]
           end
  end.

(** [str(n)] for a natural number *)
Fixpoint digits_fuel (fuel n : nat) (acc : str) : str :=
  match fuel with
  | O => acc
  | S f =>
      let d := N.of_nat (48 + n mod 10) in
      if (n <? 10)%nat then d :: acc else digits_fuel f (n / 10)%nat (d :: acc)
  end.
Definition str_of_nat (n : nat) : str := digits_fuel (S n) n [].
Definition str_of_Z (z : Z) : str :=
  if z <? 0 then lit "-" ++ str_of_nat (Z.to_nat (- z)) else str_of_nat (Z.to_nat z).

(** ** [urllib.parse.quote_plus] *)

Local Open Scope N_scope.

(** The UTF-8 bytes of a code point; [None] for a lone surrogate (and for a
    number that is not a code point), where [str.encode] raises. *)
Definition utf8_encode_char (c : N) : option (list N) :=
  if c <? 0x80 then Some [c]
  else if c <? 0x800 then Some [0xC0 + c / 64; 0x80 + c mod 64]
  else if c <? 0x10000 then
    if (0xD800 <=? c) && (c <=? 0xDFFF) then None
    else Some [0xE0 + c / 4096; 0x80 + (c / 64) mod 64; 0x80 + c mod 64]
  else if c <? 0x110000 then
    Some [0xF0 + c / 262144; 0x80 + (c / 4096) mod 64;
          0x80 + (c / 64) mod 64; 0x80 + c mod 64]
  else None.

Definition is_upper_ascii (c : N) : bool := (65 <=? c) && (c <=? 90).
Definition is_lower_ascii (c : N) : bool := (97 <=? c) && (c <=? 122).
Definition is_digit_ascii (c : N) : bool := (48 <=? c) && (c <=? 57).

(** The characters [quote] never escapes: letters, digits and [_.-~]. *)
Definition always_safe (b : N) : bool :=
  is_upper_ascii b || is_lower_ascii b || is_digit_ascii b ||
  (b =? 95) || (b =? 46) || (b =? 45) || (b =? 126).

Definition hex_digit (d : N) : N := if d <? 10 then 48 + d else 55 + d.

(** One byte of the encoded text: kept, turned into [+] (a space), or
    written as [%XX]. *)
Definition quote_byte (b : N) : str :=
  if always_safe b then [b]
  else if b =? 32 then [43]
  else [37; hex_digit (b / 16); hex_digit (b mod 16)].

Fixpoint quote_plus (s : str) : outcome str :=
  match s with
  | [] => Ret []
  | c :: s' =>
      match utf8_encode_char c with
      | None => Raise UnicodeEncodeError
      | Some bs => (r <- quote_plus s' ;; Ret (flat_map quote_byte bs ++ r))%py
      end
  end.

Local Close Scope N_scope.

(** ** [epmc_query.Query]: the object and its query strings *)

(** A command-line value before [ArgumentCleaner] has seen it. *)
Inductive pyarg :=
| ArgNone
| ArgStr (s : str)
| ArgList (l : list str)
| ArgInt (z : Z).

Record Query := mkQuery {
  disease : pyarg;
  tissue : pyarg;
  kwds : option str;
  other_args : option (list (str * str));
  expand : bool;
  n_threads : Z;
  disease_syns : list str;
  tissue_syns : list str;
  kwd_syns : list str;
  kwd_syn_lists : list (list str);
  gene_syns : list str;
  gene_syn_roots : list str
}.

Definition dq : str := [34%N].

(** [Query.add_abstract_title_and_join_synonyms] *)
Definition field_query (search_in_kwds : bool) (syn : str) : str :=
  if startswith syn (lit "(TITLE:") then strip_chars syn (lit "()")
  else if search_in_kwds then
    lit "TITLE:" ++ dq ++ syn ++ dq ++ lit " OR KW:" ++ dq ++ syn ++ dq ++
    lit " OR ABSTRACT:" ++ dq ++ syn ++ dq
  else
    lit "TITLE:" ++ dq ++ syn ++ dq ++ lit " OR ABSTRACT:" ++ dq ++ syn ++ dq.

Definition add_abstract_title_and_join_synonyms
  (syns : list str) (search_in_kwds join_on_and : bool) : str :=
  let exp_syns := map (field_query search_in_kwds) syns in
  if join_on_and then lit "(" ++ join (lit ") & (") exp_syns ++ lit ")"
  else lit "(" ++ join (lit " OR ") exp_syns ++ lit ")".

(** [Query.estimate_query_string_length] *)
Definition estimate_query_string_length (q_string : str) : outcome Z :=
  match q_string with
  | [] => Ret 0
  | _ => (encoded_query_string <- quote_plus q_string ;;
          Ret (Z.of_nat (length encoded_query_string) + 12))%py
  end.

(** The keys of the length dictionary: ["diseases"], ["tissues"], ["others"],
    ["genes"] and ["kwd1"], ["kwd2"], ... *)
Inductive key := Kdiseases | Ktissues | Kothers | Kgenes | Kkwd (i : nat).

Definition key_eqb (a b : key) : bool :=
  match a, b with
  | Kdiseases, Kdiseases | Ktissues, Ktissues | Kothers, Kothers
  | Kgenes, Kgenes => true
  | Kkwd i, Kkwd j => Nat.eqb i j
  | _, _ => false
  end.

Definition key_name (k : key) : str :=
  match k with
  | Kdiseases => lit "diseases"
  | Ktissues => lit "tissues"
  | Kothers => lit "others"
  | Kgenes => lit "genes"
  | Kkwd i => lit "kwd" ++ str_of_nat i
  end.

(** Insertion-ordered dictionaries *)
Section Dict.
Variable V : Type.
Definition dict := list (key * V).

Fixpoint dict_get (d : dict) (k : key) : outcome V :=
  match d with
  | [] => Raise KeyError
  | (k', v) :: d' => if key_eqb k k' then Ret v else dict_get d' k
  end.

Fixpoint dict_set (d : dict) (k : key) (v : V) : dict :=
  match d with
  | [] => [(k, v)]
  | (k', v') :: d' =>
      if key_eqb k k' then (k', v) :: d' else (k', v') :: dict_set d' k v
  end.

Fixpoint dict_del (d : dict) (k : key) : outcome dict :=
  match d with
  | [] => Raise KeyError
  | (k', v') :: d' =>
      if key_eqb k k' then Ret d'
      else (r <- dict_del d' k ;; Ret ((k', v') :: r))%py
  end.

Definition dict_keys (d : dict) : list key := map fst d.
End Dict.

Record entry := mkEntry { e_string : str; e_len : Z }.

(** [Query.make_len_dict] *)
Fixpoint make_len_dict_kwds (i : nat) (kwds : list str) (d : dict entry)
  : outcome (dict entry) :=
  match kwds with
  | [] => Ret d
  | kwd :: rest =>
      (n <- estimate_query_string_length kwd ;;
       make_len_dict_kwds (S i) rest (dict_set d (Kkwd i) (mkEntry kwd n)))%py
  end.

Definition make_len_dict (diseases tissues others genes : str) (kwds : list str)
  : outcome (dict entry) :=
  (ld <- estimate_query_string_length diseases ;;
   lt <- estimate_query_string_length tissues ;;
   lo <- estimate_query_string_length others ;;
   lg <- estimate_query_string_length genes ;;
   make_len_dict_kwds 1 kwds
     [(Kdiseases, mkEntry diseases ld); (Ktissues, mkEntry tissues lt);
      (Kothers, mkEntry others lo); (Kgenes, mkEntry genes lg)])%py.

(** [Query.create_query_length_list] *)
Definition create_query_length_list (query_len_dict : dict entry) : list Z :=
  map (fun kv => e_len (snd kv))
      (filter (fun kv => negb (key_eqb (fst kv) Kothers)) query_len_dict).

Definition sum (l : list Z) : Z := fold_left Z.add l 0.

(** [max(l)]: raises on an empty list *)
Definition py_max (l : list Z) : outcome Z :=
  match l with
  | [] => Raise ValueError
  | x :: l' => Ret (fold_left Z.max l' x)
  end.

(** The body of the [for] loop of [identify_long_queries], run over the keys
    the dictionary had when the loop started. *)
Fixpoint identify_long_for (keys : list key) (len_list : list Z)
  (len_dict : dict entry) (long_strs : dict str)
  : outcome (dict entry * dict str) :=
  match keys with
  | [] => Ret (len_dict, long_strs)
  | k :: keys' =>
      if negb (key_eqb k Kothers) then
        (e <- dict_get len_dict k ;;
         mx <- py_max len_list ;;
         if e_len e =? mx then
           (len_dict' <- dict_del len_dict k ;;
            identify_long_for keys' len_list len_dict'
              (dict_set long_strs k (e_string e)))
         else identify_long_for keys' len_list len_dict long_strs)%py
      else identify_long_for keys' len_list len_dict long_strs
  end.

(** [Query.identify_long_queries]: the [while] loop, with the list of lengths
    it recomputes at the end of every round. *)
Fixpoint identify_long_while (fuel : nat) (max_length : Z) (len_list : list Z)
  (len_dict : dict entry) (long_strs : dict str)
  : outcome (dict entry * dict str) :=
  if sum len_list >? max_length - 500 then
    match fuel with
    | O => Timeout
    | S fuel' =>
        (r <- identify_long_for (dict_keys len_dict) len_list len_dict long_strs ;;
         let '(len_dict', long_strs') := r in
         identify_long_while fuel' max_length
           (create_query_length_list len_dict') len_dict' long_strs')%py
    end
  else Ret (len_dict, long_strs).

Definition identify_long_queries (fuel : nat) (len_dict : dict entry) (max_length : Z)
  : outcome (dict entry * dict str) :=
  identify_long_while fuel max_length (create_query_length_list len_dict) len_dict [].

(** The loop state of the chunk builder in [split_long_queries]. *)
Record chunking := mkChunking {
  c_syns : list str;
  c_querystring : str;
  c_querystrings : list str;
  c_i : nat;
  c_finished : bool
}.

Definition getitem (A : Type) (l : list A) (i : nat) : outcome A :=
  match nth_error l i with
  | Some x => Ret x
  | None => Raise IndexError
  end.

(** [len(parse.quote_plus(querystring)) + (len(parse.quote_plus(syns[i])) * 3) + 62] *)
Definition next_len (querystring : str) (syns : list str) (i : nat) : outcome Z :=
  (e1 <- quote_plus querystring ;;
   s <- getitem syns i ;;
   e2 <- quote_plus s ;;
   Ret (Z.of_nat (length e1) + Z.of_nat (length e2) * 3 + 62))%py.

(** The inner [while qstring_len <= chunk_size and not finished] loop; the
    [IndexError] of [syns[i]] is caught and sets [finished]. *)
Fixpoint chunk_inner (fuel : nat) (chunk_size : Z) (syns : list str)
  (i : nat) (querystring : str) (qstring_len : Z) (finished : bool)
  : outcome (nat * str * bool) :=
  if (qstring_len <=? chunk_size) && negb finished then
    match fuel with
    | O => Timeout
    | S fuel' =>
        let i := S i in
        let querystring := add_abstract_title_and_join_synonyms (firstn i syns) true false in
        (e1 <- quote_plus querystring ;;
         match nth_error syns i with
         | None => chunk_inner fuel' chunk_size syns i querystring qstring_len true
         | Some s =>
             (e2 <- quote_plus s ;;
              chunk_inner fuel' chunk_size syns i querystring
                (Z.of_nat (length e1) + Z.of_nat (length e2) * 3 + 62) finished)
         end)%py
    end
  else Ret (i, querystring, finished).

Definition too_long_warning (k : key) (syn : str) : event :=
  Log WARNING (lit "The " ++ key_name k ++ lit " synonym '" ++ syn ++
               lit "' is too long, and will be excluded from the queries").

(** The outer [while syns] loop. *)
Fixpoint chunk_while (fuel : nat) (k : key) (chunk_size : Z) (st : chunking)
  : M (list str) :=
  match c_syns st with
  | [] => mret (c_querystrings st)
  | _ :: _ =>
      match fuel with
      | O => mtimeout
      | S fuel' =>
          (qstring_len <-- lift (next_len (c_querystring st) (c_syns st) (c_i st)) ;;
           if Nat.eqb (c_i st) 0 && (qstring_len >? chunk_size) then
             (s <-- lift (getitem (c_syns st) (c_i st)) ;;
              emit (too_long_warning k s) ;;;
              chunk_while fuel' k chunk_size st)
           else
             (r <-- lift (chunk_inner fuel' chunk_size (c_syns st) (c_i st)
                            (c_querystring st) qstring_len (c_finished st)) ;;
              let '(i, querystring, finished) := r in
              let querystrings := c_querystrings st ++ [querystring] in
              let syns := if (i <=? length (c_syns st))%nat
                          then skipn i (c_syns st) else [] in
              chunk_while fuel' k chunk_size
                (mkChunking syns [] querystrings 0 finished)))%m
      end
  end.

(** The synonyms behind a key of the dictionary of long strings. *)
Definition syns_of_key (self : Query) (k : key) : M (list str) :=
  match k with
  | Kgenes => mret (gene_syns self)
  | Kdiseases => mret (disease_syns self)
  | Ktissues => mret (tissue_syns self)
  | Kkwd i =>
      (* [self.kwd_syn_lists[int(k.strip("kwd")) - 1]]; the index -1 of a
         key [kwd0] is the last list *)
      lift (match i with
            | O => getitem (rev (kwd_syn_lists self)) 0
            | S j => getitem (kwd_syn_lists self) j
            end)
  | Kothers =>
      (emit (Log ERROR (lit "Unrecognised query element type '" ++ key_name k ++
                        lit "'. Cannot split query.")) ;;;
       mraise SystemExit)%m
  end.

(** [itertools.product] of the lists: every way to pick one element of each,
    the first list varying slowest *)
Fixpoint product (A : Type) (ls : list (list A)) : list (list A) :=
  match ls with
  | [] => [[]]
  | l :: ls' => flat_map (fun x => map (cons x) (product ls')) l
  end.

(** [Query.split_long_queries] *)
Definition split_long_queries (self : Query) (fuel : nat)
  (len_dict : dict entry) (max_length : Z)
  : M (dict entry * list (list str)) :=
  (r <-- lift (identify_long_queries fuel len_dict max_length) ;;
   let '(shorter_len_dict, long_strs) := r in
   let est_total_len :=
     sum (create_query_length_list shorter_len_dict) +
     Z.of_nat (length shorter_len_dict) * 10 in
   chunk_size <-- lift (match long_strs with
                        | [] => Raise ZeroDivisionError
                        | _ => Ret ((max_length - est_total_len)
                                      / Z.of_nat (length long_strs) - 100)
                        end) ;;
   query_string_chunks <--
     mapM (fun kv : key * str =>
             syns <-- syns_of_key self (fst kv) ;;
             chunk_while fuel (fst kv) chunk_size (mkChunking syns [] [] 0 false))
          long_strs ;;
   mret (shorter_len_dict, product query_string_chunks))%m.

Definition non_empty_part (s : str) : bool :=
  negb (str_eqb s []) && negb (str_eqb s (lit "()")).

(** [Query.create_epmc_queries] *)
Definition create_epmc_queries (self : Query) (fuel : nat)
  (diseases tissues others genes : str) (kwds : list str) : M (list str) :=
  (len_dict <-- lift (make_len_dict diseases tissues others genes kwds) ;;
   others_entry <-- lift (dict_get len_dict Kothers) ;;
   let leftover_amount := 7500 - e_len others_entry in
   let query_lengths_list := create_query_length_list len_dict in
   if sum query_lengths_list + 20 >? leftover_amount then
     (r <-- split_long_queries self fuel len_dict leftover_amount ;;
      let '(len_dict, chunk_combinations) := r in
      let shorter_parts :=
        filter non_empty_part (map (fun kv => e_string (snd kv)) len_dict) in
      let consistent_query_string := join (lit " & ") shorter_parts in
      mret (map (fun combo =>
                   let combo := map (fun each =>
                                       lit "(" ++ strip_chars each (lit "(,) ") ++ lit ")")
                                    combo in
                   let combo_string := join (lit " & ") combo in
                   combo_string ++ lit " & " ++ consistent_query_string)
                chunk_combinations))
   else
     let non_empty :=
       filter non_empty_part [genes; diseases; tissues; others] ++
       filter non_empty_part kwds in
     mret [join (lit " & ") non_empty])%m.

(** ** The Python runtime: Unicode tables and the iteration order of sets

    What [str.isspace], [str.lower], the classes of [re] and the order in
    which a [set] of strings is iterated return is fixed by the interpreter
    (and, for sets, by the hash seed of the process), not by this program.
    The embedding takes them as an interface. *)

Class PyRuntime := {
  isspace : N -> bool;      (** [str.isspace], [\s] *)
  isdecimal : N -> bool;    (** [\d] *)
  isalnum : N -> bool;      (** [str.isalnum]; [\w] is [isalnum] or [_] *)
  tolower : N -> N;         (** the simple lower-case mapping used by [re.IGNORECASE] *)
  toupper : N -> N;
  str_lower : str -> str;   (** [str.lower] *)
  str_upper : str -> str;   (** [str.upper] *)
  set_iter : list str -> list str;  (** [list(set(l))] *)
  set_iter_nodup : forall l, NoDup (set_iter l);
  set_iter_in : forall l x, In x (set_iter l) <-> In x l
}.

(** ** A backtracking matcher for the regular expressions of the program *)

Inductive citem :=
| IChr (c : N)
| IRange (lo hi : N)
| IDigit
| ISpace
| IWord.

Inductive re :=
| Eps
| Chr (c : N)
| Any                                  (** [.]: any character but a newline *)
| Cls (neg : bool) (items : list citem)
| Seq (a b : re)
| Alt (a b : re)
| Star (greedy : bool) (a : re)
| Group (n : nat) (a : re)
| Bol                                  (** [^] *)
| Eol                                  (** [$] *)
| WordB.                               (** [\b] *)

Record mstate := mkMstate {
  m_pos : nat;                         (** characters consumed so far *)
  m_prev : option N;                   (** the character before the position *)
  m_rest : str;                        (** the text from the position on *)
  m_caps : list (nat * (nat * nat))    (** group number, start and end *)
}.

Definition advance (st : mstate) (c : N) (rest : str) : mstate :=
  mkMstate (S (m_pos st)) (Some c) rest (m_caps st).

Definition set_cap (st : mstate) (n b e : nat) : mstate :=
  mkMstate (m_pos st) (m_prev st) (m_rest st)
           ((n, (b, e)) :: filter (fun c => negb (Nat.eqb (fst c) n)) (m_caps st)).

Definition in_range (lo hi c : N) : bool := (N.leb lo c && N.leb c hi)%bool.

Section Engine.
Context {rt : PyRuntime}.
Variable ic : bool.   (** [re.IGNORECASE] *)

Definition chr_match (p c : N) : bool :=
  if ic then N.eqb (tolower p) (tolower c) else N.eqb p c.

Definition is_word (c : N) : bool := isalnum c || N.eqb c 95.

Definition item_match (it : citem) (ch : N) : bool :=
  match it with
  | IChr p => if ic then N.eqb (tolower p) ch else N.eqb p ch
  | IRange lo hi => in_range lo hi ch || (ic && in_range lo hi (toupper ch))
  | IDigit => isdecimal ch
  | ISpace => isspace ch
  | IWord => is_word ch
  end.

Definition cls_match (neg : bool) (items : list citem) (c : N) : bool :=
  let ch := if ic then tolower c else c in
  xorb neg (existsb (fun it => item_match it ch) items).

Definition word_opt (c : option N) : bool :=
  match c with
  | Some c => is_word c
  | None => false
  end.

Definition step (A : Type) (ok : N -> bool) (k : mstate -> option A) (st : mstate)
  : option A :=
  match m_rest st with
  | c :: rest' => if ok c then k (advance st c rest') else None
  | [] => None
  end.

(** [rmatch r k st]: the first way, in the order Python's matcher tries them,
    to match [r] at [st] such that the continuation [k] accepts. *)
Fixpoint rmatch (A : Type) (r : re) (k : mstate -> option A) (st : mstate)
  {struct r} : option A :=
  match r with
  | Eps => k st
  | Chr p => step (chr_match p) k st
  | Any => step (fun c => negb (N.eqb c 10)) k st
  | Cls neg items => step (cls_match neg items) k st
  | Seq a b => rmatch a (rmatch b k) st
  | Alt a b =>
      match rmatch a k st with
      | Some x => Some x
      | None => rmatch b k st
      end
  | Star greedy a =>
      (fix loop (n : nat) (st : mstate) {struct n} : option A :=
         match n with
         | O => k st
         | S n' =>
             if greedy then
               match rmatch a (fun st' => if (m_pos st <? m_pos st')%nat
                                          then loop n' st' else None) st with
               | Some x => Some x
               | None => k st
               end
             else
               match k st with
               | Some x => Some x
               | None => rmatch a (fun st' => if (m_pos st <? m_pos st')%nat
                                              then loop n' st' else None) st
               end
         end) (length (m_rest st)) st
  | Group n a => rmatch a (fun st' => k (set_cap st' n (m_pos st) (m_pos st'))) st
  | Bol => if Nat.eqb (m_pos st) 0 then k st else None
  | Eol =>
      match m_rest st with
      | [] => k st
      | [c] => if N.eqb c 10 then k st else None
      | _ => None
      end
  | WordB =>
      if xorb (word_opt (m_prev st)) (word_opt (hd_error (m_rest st)))
      then k st else None
  end.

(** A match: where it starts and the state at its end. *)
Definition found := (nat * mstate)%type.

Definition accept (must_advance : bool) (start : nat) (e : mstate) : option mstate :=
  if must_advance && Nat.eqb (m_pos e) start then None else Some e.

(** The leftmost match starting at [pos] or later; with [must_advance] an
    empty match at [pos] itself is refused. *)
Fixpoint search_from (r : re) (must_advance : bool) (origin pos : nat)
  (prev : option N) (rest : str) : option found :=
  match rmatch r (accept must_advance origin) (mkMstate pos prev rest []) with
  | Some e => Some (pos, e)
  | None =>
      match rest with
      | [] => None
      | c :: rest' => search_from r must_advance origin (S pos) (Some c) rest'
      end
  end.

(** [re.search], [re.match], [re.fullmatch] *)
Definition re_search (r : re) (s : str) : option found :=
  search_from r false 0 0 None s.

Definition re_match (r : re) (s : str) : option found :=
  match rmatch r Some (mkMstate 0 None s []) with
  | Some e => Some (0%nat, e)
  | None => None
  end.

Definition re_fullmatch (r : re) (s : str) : option found :=
  match rmatch r (fun e => match m_rest e with [] => Some e | _ => None end)
               (mkMstate 0 None s []) with
  | Some e => Some (0%nat, e)
  | None => None
  end.

Definition matched (A : Type) (m : option A) : bool :=
  match m with Some _ => true | None => false end.

Definition substring (s : str) (b e : nat) : str := firstn (e - b) (skipn b s).

(** [m.group(0)] and [m.group(n)] of a match in [s] *)
Definition group0 (s : str) (m : found) : str := substring s (fst m) (m_pos (snd m)).

Definition group (s : str) (m : found) (n : nat) : option str :=
  match find (fun c => Nat.eqb (fst c) n) (m_caps (snd m)) with
  | Some (_, (b, e)) => Some (substring s b e)
  | None => None
  end.

(** The successive matches of [re.finditer] and [re.sub]: after a match the
    scan resumes at its end, and an empty match is not accepted where the
    previous match was empty too. [count] is the number of matches still
    wanted ([None]: all). *)
Fixpoint scan (fuel : nat) (r : re) (count : option nat) (must_advance : bool)
  (pos : nat) (prev : option N) (rest : str) : list found :=
  match fuel, count with
  | O, _ => []
  | _, Some O => []
  | S fuel', _ =>
      match search_from r must_advance pos pos prev rest with
      | None => []
      | Some (b, e) =>
          (b, e) :: scan fuel' r (option_map pred count)
                      (Nat.eqb (m_pos e) b) (m_pos e) (m_prev e) (m_rest e)
      end
  end.

Definition finditer (r : re) (s : str) : list found :=
  scan (2 * length s + 2) r None false 0 None s.

(** A replacement template: literal text and group references. *)
Inductive ritem := RLit (s : str) | RGroup (n : nat).

Definition expand_template (s : str) (m : found) (repl : list ritem) : str :=
  flat_map (fun it => match it with
                      | RLit t => t
                      | RGroup n => match group s m n with Some g => g | None => [] end
                      end) repl.

Fixpoint splice (s : str) (from : nat) (ms : list found) (repl : list ritem) : str :=
  match ms with
  | [] => skipn from s
  | m :: ms' =>
      substring s from (fst m) ++ expand_template s m repl ++ splice s (m_pos (snd m)) ms' repl
  end.

(** [re.sub(r, repl, s, count)]; [count = 0] replaces every match. *)
Definition re_sub (r : re) (repl : list ritem) (s : str) (count : nat) : str :=
  splice s 0
    (scan (2 * length s + 2) r (match count with O => None | _ => Some count end)
          false 0 None s)
    repl.

End Engine.

(** Pattern syntax *)
Definition lits (s : str) : re := fold_right (fun c r => Seq (Chr c) r) Eps s.
Definition star (a : re) : re := Star true a.
Definition lazy_star (a : re) : re := Star false a.
Definition plus (a : re) : re := Seq a (Star true a).
Definition opt (a : re) : re := Alt a Eps.
Definition alts (l : list re) : re :=
  match l with
  | [] => Eps
  | a :: l' => fold_left Alt l' a
  end.
Definition seqs (l : list re) : re := fold_right Seq Eps l.
Definition digit : re := Cls false [IDigit].
Definition space : re := Cls false [ISpace].
Definition chars_of (s : str) : list citem := map IChr s.

(** The characters with a special meaning in a pattern. *)
Definition is_meta (c : N) : bool := mem_chr c (lit ".^$*+?{}[]\|()").

(** A pattern taken from run-time text: literal when the text holds no
    metacharacter. *)
Definition pattern_of_text (s : str) : outcome re :=
  if existsb is_meta s then Raise NotModelled else Ret (lits s).

(** A replacement template taken from run-time text. *)
Definition template_of_text (s : str) : outcome (list ritem) :=
  if mem_chr 92 s then Raise NotModelled else Ret [RLit s].

Definition ch (s : string) : N :=
  match lit s with
  | c :: _ => c
  | [] => 0%N
  end.
Arguments ch s%_string.

(** ** [alternative_characters.py] and [noisy_phrases.py] *)

Definition greek_dict : list (str * list str) :=
  [(lit "alpha", [[0x3B1]; [0x1D6C2]; [0x1D6FC]]);
   (lit "beta", [[0x3B2]; [0x3D0]; [0x1D6FD]; [0x1D5D]]);
   (lit "gamma", [[0x3B3]; [0x1D6C4]; [0x213D]; [0x1D6FE]]);
   (lit "delta", [[0x3B4]; [0x1D6FF]; [0x1E9F]]);
   (lit "epsilon", [[0x3B5]; [0x25B]; [0x3F5]]);
   (lit "zeta", [[0x3B6]; [0x1D6C7]]);
   (lit "eta", [[0x3B7]]);
   (lit "theta", [[0x398]; [0x3D1]; [0x472]]);
   (lit "iota", [[0x399]; [0x196]]);
   (lit "kappa", [[0x39A]; [0x3F0]]);
   (lit "lambda", [[0x39B]]);
   (lit "mu", [[0x39C]; [0xB5]; [0x1D707]; [0x1D741]]);
   (lit "nu", [[0x39D]; [0x1D708]]);
   (lit "xi", [[0x3BE]]);
   (lit "omicron", [[0x39F]]);
   (lit "pi", [[0x3A0]; [0x3D6]; [0x1D70B]]);
   (lit "rho", [[0x3A1]]);
   (lit "sigma", [[0x3A3]; [0x3C2]; [0x1D70E]]);
   (lit "tau", [[0x3A4]]);
   (lit "upsilon", [[0x3A5]; [0x3D2]]);
   (lit "phi", [[0x3C6]; [0x3D5]; [0x424]]);
   (lit "chi", [[0x3C7]]);
   (lit "psi", [[0x3C8]; [0x1D6F9]]);
   (lit "omega", [[0x3A9]; [0x461]])]%N.

Definition numerals : list str := [lit "I"; lit "X"; lit "V"].

(** hyphen-minus, en dash, em dash, non-breaking hyphen *)
Definition hyphens : list str := [[0x2D]; [0x2013]; [0x2014]; [0x2011]]%N.

Definition synonym_noise_indicators : list str :=
  [lit ":"; lit "@"; lit " email "; lit "doi.org"; lit "Wikipedia"; lit "github";
   lit "TODO "; lit " et al"; lit "th ed."; lit "[WP]"; lit "see also";
   lit "see article"; lit "Editor node"; lit "Editor note"; lit "Taxon notes ";
   lit "Consider merging"; lit "mapping confirmed"; lit "partof ";
   lit "Requires expert input"; lit "UMLS CUI"; lit "synonyms"; lit " doid ";
   lit "doid/"; lit "Xref "; lit "Definition based on"; lit "characterized by";
   lit "symptoms "; lit "believed to be derived from"; lit "We place ";
   lit "mice have "; lit "mouse has "; lit " to form "; lit "will be ceded";
   lit "use the term"; lit "same name"; lit "presumed but not proven";
   lit "occurs in"; lit "are different"; lit "term renamed"].

(** ** [get_synonyms.ExtractOLSSynonyms] *)

Record ExtractOLSSynonyms := mkExtract {
  original_term : str;
  min_syn_len : Z;
  x_n_threads : Z;
  syns : list str;
  greek_char_list : list str
}.

(** The values a call can pass. *)
Inductive pyval :=
| VStr (s : str)
| VInt (z : Z)
| VLogger.

(** A call: positional arguments and keyword arguments. *)
Record call := mkCall {
  positional : list pyval;
  keywords : list (string * pyval)
}.

(** A parameter of a [def]: its name and its default value, if it has one. *)
Definition param := (string * option pyval)%type.

Definition kw_lookup (name : string) (kws : list (string * pyval)) : option pyval :=
  match find (fun kv => String.eqb (fst kv) name) kws with
  | Some kv => Some (snd kv)
  | None => None
  end.

(** Python's binding of the arguments of a call to the parameters of the
    function: positional arguments fill the parameters from the left, the
    others are taken from the keywords or from the defaults. A [TypeError] is
    raised for a surplus positional argument, a keyword that names no
    parameter or one already filled, and a parameter left without a value. *)
Fixpoint bind_params (ps : list param) (pos : list pyval)
  (kws : list (string * pyval)) : outcome (list (string * pyval)) :=
  match ps with
  | [] =>
      match pos, kws with
      | [], [] => Ret []
      | _, _ => Raise TypeError
      end
  | (name, default) :: ps' =>
      match pos with
      | v :: pos' =>
          if matched (kw_lookup name kws) then Raise TypeError
          else (env <- bind_params ps' pos' kws ;; Ret ((name, v) :: env))%py
      | [] =>
          let kws' := filter (fun kv => negb (String.eqb (fst kv) name)) kws in
          match kw_lookup name kws, default with
          | Some v, _ | None, Some v =>
              (env <- bind_params ps' [] kws' ;; Ret ((name, v) :: env))%py
          | None, None => Raise TypeError
          end
      end
  end.

(** [def __init__(self, original_term, logger, min_syn_len, n_threads=0)] *)
Definition ExtractOLSSynonyms_init_params : list param :=
  [("original_term", None); ("logger", None); ("min_syn_len", None);
   ("n_threads", Some (VInt 0))]%string.

(** [ExtractOLSSynonyms(...)]: the arguments are bound, then [__init__] fills
    the attributes. *)
Definition ExtractOLSSynonyms_new (c : call) : outcome ExtractOLSSynonyms :=
  (env <- bind_params ExtractOLSSynonyms_init_params (positional c) (keywords c) ;;
   match kw_lookup "original_term" env, kw_lookup "min_syn_len" env,
         kw_lookup "n_threads" env with
   | Some (VStr term), Some (VInt m), Some (VInt n) =>
       Ret (mkExtract term m n []
              (map fst greek_dict ++ flat_map snd greek_dict))
   | _, _, _ => Raise NotModelled
   end)%py.

Section GetSynonyms.
Context {rt : PyRuntime}.

(** [s.strip()], [s.lstrip()], [s.split()] *)
Definition strip (s : str) : str := strip_with isspace s.
Definition lstrip (s : str) : str := lstrip_with isspace s.

Fixpoint split_ws (s : str) (cur : option str) : list str :=
  match s with
  | [] => match cur with Some w => [rev w] | None => [] end
  | c :: s' =>
      if isspace c then
        match cur with
        | Some w => rev w :: split_ws s' None
        | None => split_ws s' None
        end
      else split_ws s' (Some (c :: match cur with Some w => w | None => [] end))
  end.
Definition split (s : str) : list str := split_ws s None.

Definition str_in (x : str) (l : list str) : bool := existsb (str_eqb x) l.

(** [l.remove(x)]: the first occurrence goes *)
Fixpoint list_remove (x : str) (l : list str) : list str :=
  match l with
  | [] => []
  | y :: l' => if str_eqb x y then l' else y :: list_remove x l'
  end.

(** [ExtractOLSSynonyms.word_search]: the pattern is [\b(word)\b] with the
    word escaped, searched without regard to case. *)
Definition word_search (word : str) (text : str) : bool :=
  matched (re_search true (seqs [WordB; Group 1 (lits word); WordB]) text).

(** [\s{2,}] *)
Definition spaces2 : re := seqs [space; space; star space].

(** [\(.*[IXV\d]+.*\)] *)
Definition bracketed_number : re :=
  seqs [Chr (ch "("); star Any; plus (Cls false (chars_of (concat numerals) ++ [IDigit]));
        star Any; Chr (ch ")")].

(** [[\(\[]+.*?[\)\]]+] *)
Definition bracket_group : re :=
  seqs [plus (Cls false [IChr (ch "("); IChr (ch "[")]); lazy_star Any;
        plus (Cls false [IChr (ch ")"); IChr (ch "]")])].

(** The replacements of [remove_noise_and_punctuation] on one term. *)
Definition clean_punctuation (term : str) : str :=
  let term := replace term (lit "EXACT") (lit " ") in
  let term := replace term (lit "susceptibility to") (lit " ") in
  let term := replace term (lit "working designation") (lit " ") in
  let term := replace term (lit "_") (lit " ") in
  let term := replace term (lit ",") (lit " ") in
  let term := replace term (lit "?") (lit " ") in
  let term := replace term dq (lit " ") in
  let term := replace term [0x201C%N] (lit " ") in
  let term := replace term [0x201D%N] (lit " ") in
  let term := fold_left (fun t char => replace t char (lit " ")) hyphens term in
  let term := if negb (matched (re_search false bracketed_number term))
              then re_sub false bracket_group [] term 0 else term in
  let term := replace term (lit "(") (lit " ") in
  let term := replace term (lit ")") (lit " ") in
  let term := re_sub false (Chr 10) [RLit (lit " ")] term 0 in
  let term := re_sub false spaces2 [RLit (lit " ")] term 0 in
  strip term.

Definition is_noisy (term : str) : bool :=
  negb (startswith term (lit "GO:")) &&
  existsb (fun noisy_term => contains (str_upper term) (str_upper noisy_term))
          synonym_noise_indicators.

(** [ExtractOLSSynonyms.remove_noise_and_punctuation] *)
Definition remove_noise_and_punctuation (self : ExtractOLSSynonyms)
  (syn_list : list str) (syn_type : str) : list str :=
  let unique := set_iter syn_list in
  let filtered_terms :=
    flat_map
      (fun term =>
         if word_search (original_term self) term then []
         else if is_noisy term then []
         else if contains term (lit ".") && negb (matched (re_search false (plus digit) term))
         then []
         else
           let term := clean_punctuation term in
           if min_syn_len self <=? Z.of_nat (length term) then
             if str_eqb syn_type (lit "tissue") then
               if negb (matched (re_match false
                                   (seqs [Cls false [IRange 65 90]; plus digit; Eol]) term))
               then [term] else []
             else [term]
           else [])
      unique in
  original_term self :: filtered_terms.

(** A stable sort on the number of words *)
Fixpoint insert_by_len (x : list str) (l : list (list str)) : list (list str) :=
  match l with
  | [] => [x]
  | y :: l' => if (length x <=? length y)%nat then x :: l else y :: insert_by_len x l'
  end.
Definition sort_by_len (l : list (list str)) : list (list str) :=
  fold_right insert_by_len [] l.

(** The synonyms a term makes redundant: those, other than the term itself,
    in which it is found. *)
Definition marked_by (term : str) (syns : list str) : list str :=
  filter (fun syn => negb (str_eqb syn term) && word_search term syn) syns.

(** [ExtractOLSSynonyms.remove_redundant_syns] *)
Definition remove_redundant_syns (syns : list str) : list str :=
  let sorted_on_phrase_length :=
    map (join (lit " ")) (sort_by_len (map split syns)) in
  let redundant :=
    fold_left (fun redundant term =>
                 if negb (str_in term redundant)
                 then redundant ++ marked_by term syns else redundant)
              sorted_on_phrase_length [] in
  fold_left (fun syns redundant_syn =>
               if str_in redundant_syn syns then list_remove redundant_syn syns else syns)
            redundant syns.

(** [ExtractOLSSynonyms.remove_multiple_spaces] *)
Definition remove_multiple_spaces (syns : list str) : list str :=
  map (fun syn => re_sub false spaces2 [RLit (lit " ")] syn 0) syns.

(** [ExtractOLSSynonyms.create_type_variations] *)
Definition create_type_variations (type_phrase syn : str) : outcome (list str) :=
  let type_phrase := strip type_phrase in
  (p <- pattern_of_text type_phrase ;;
   let intermediate := strip (re_sub true p [] syn 0) in
   let end_ := intermediate ++ lit " " ++ type_phrase in
   let start := type_phrase ++ lit " " ++ intermediate in
   Ret (remove_multiple_spaces [end_; start]))%py.

(** [[Tt][Yy][Pp][Ee]] *)
Definition type_word : re :=
  seqs [Cls false [IChr (ch "T"); IChr (ch "t")]; Cls false [IChr (ch "Y"); IChr (ch "y")];
        Cls false [IChr (ch "P"); IChr (ch "p")]; Cls false [IChr (ch "E"); IChr (ch "e")]].

Definition hyphen_class : list citem := chars_of (concat hyphens).
Definition numeral_class : list citem := chars_of (concat numerals).

(** [(.+\s*[hyphens]\s*[Tt][Yy][Pp][Ee])] *)
Definition x_hyphen_type : re :=
  Group 1 (seqs [plus Any; star space; Cls false hyphen_class; star space; type_word]).

(** The pattern [type_x]: [^.*] and then, as group 1, [[Tt][Yy][Pp][Ee]],
    [[\s\dIXV]*], [\b[a-zA-Z]?\b], [[\s\dIXV]*], any number of members of
    [greek_char_list] and [[\s\d]*]. *)
Definition type_x (self : ExtractOLSSynonyms) : re :=
  seqs [Bol; star Any;
        Group 1 (seqs [type_word;
                       star (Cls false ([ISpace; IDigit] ++ numeral_class));
                       WordB; opt (Cls false [IRange 97 122; IRange 65 90]); WordB;
                       star (Cls false ([ISpace; IDigit] ++ numeral_class));
                       star (Group 2 (alts (map lits (greek_char_list self))));
                       star (Cls false [ISpace; IDigit])])].

Definition group_or_empty (s : str) (m : found) (n : nat) : str :=
  match group s m n with Some g => g | None => [] end.

(** The variations [expand_types] adds for one synonym. *)
Definition type_variations_of (self : ExtractOLSSynonyms) (syn : str) : outcome (list str) :=
  if contains (str_lower syn) (lit "type") then
    (from_hyphen <-
       match re_search false x_hyphen_type (str_lower syn) with
       | Some m => create_type_variations (group_or_empty (str_lower syn) m 1) syn
       | None => Ret []
       end ;;
     from_type <-
       match re_search false (type_x self) syn with
       | Some m =>
           if negb (str_eqb (str_lower (strip (group_or_empty syn m 1))) (lit "type"))
           then create_type_variations (group_or_empty syn m 1) syn
           else Ret []
       | None => Ret []
       end ;;
     Ret (from_hyphen ++ from_type))%py
  else Ret [].

Fixpoint concat_outcomes (A : Type) (l : list (outcome (list A))) : outcome (list A) :=
  match l with
  | [] => Ret []
  | c :: l' => (x <- c ;; xs <- concat_outcomes l' ;; Ret (x ++ xs))%py
  end.

(** [ExtractOLSSynonyms.expand_types] *)
Definition expand_types (self : ExtractOLSSynonyms) (syns : list str)
  : outcome (list str) :=
  (additional_syns <- concat_outcomes (map (type_variations_of self) syns) ;;
   Ret (set_iter (syns ++ additional_syns)))%py.

(** [ExtractOLSSynonyms.remove_chain_from_end] *)
Definition remove_chain_from_end (syns : list str) : list str :=
  let new_syns :=
    map (fun syn =>
           let syn := strip syn in
           if endswith syn (lit "chain")
           then strip (re_sub true (lits (lit "chain")) [] syn 0)
           else if endswith syn (lit "chains")
           then strip (re_sub true (lits (lit "chains")) [] syn 0)
           else syn)
        syns in
  set_iter new_syns.

(** [{x}\s?\d+] *)
Definition then_number (x : str) : re := seqs [lits x; opt space; plus digit].

Definition ascii_letter : list citem := [IRange 97 122; IRange 65 90].

(** What [expand_greek_letters] does for one synonym and one row of
    [greek_dict]: whether the synonym is to be removed, and the variants. *)
Definition greek_row (syn : str) (row : str * list str) : bool * list str :=
  let '(key, value_list) := row in
  let remove := matched (re_match true (then_number key) syn) in
  let from_key :=
    if remove then []
    else if matched (re_match true (seqs [star Any; WordB; lits key; WordB; star Any]) syn)
            || matched (re_match true
                          (seqs [star Any; Cls true ascii_letter; lits key;
                                 Cls true ascii_letter; star Any]) syn)
    then map (fun character => re_sub true (lits key) [RLit character] syn 0) value_list
    else [] in
  let from_chars :=
    flat_map
      (fun char =>
         if negb (matched (re_match true (then_number char) syn)) then
           if contains (str_upper syn) (str_upper char) then
             map (fun other_char => replace syn char other_char) value_list ++
             [replace syn char key]
           else []
         else [])
      value_list in
  (remove, from_key ++ from_chars).

(** [ExtractOLSSynonyms.expand_greek_letters] *)
Definition expand_greek_letters (syns : list str) : list str :=
  let rows := flat_map (fun syn => map (fun row => (syn, greek_row syn row)) greek_dict)
                       syns in
  let syns_to_remove := map fst (filter (fun r => fst (snd r)) rows) in
  let sub_terms := flat_map (fun r => snd (snd r)) rows in
  let cleaner_syns := filter (fun i => negb (str_in i syns_to_remove)) syns in
  set_iter (cleaner_syns ++ sub_terms).

(** [.*[^\s\d]+\d+\s*[A-z]?[\s\d]*\b], the pattern of [add_space_before_number] *)
Definition number_in_gene : re :=
  seqs [star Any; plus (Cls true [ISpace; IDigit]); plus digit; star space;
        opt (Cls false [IRange 65 122]); star (Cls false [ISpace; IDigit]); WordB].

(** [\s+\d+\s*[A-z]?[\s\d]*\b], the pattern of [remove_space_hyphen_before_number] *)
Definition spaced_number : re :=
  seqs [plus space; plus digit; star space;
        opt (Cls false [IRange 65 122]); star (Cls false [ISpace; IDigit]); WordB].

(** [for hyp in chars.hyphens: syn = re.sub(hyp, " ", syn)] *)
Definition hyphens_to_spaces (syn : str) : str :=
  fold_left (fun syn hyp => re_sub false (lits hyp) [RLit (lit " ")] syn 0) hyphens syn.

(** The synonyms [add_space_before_number] leaves alone: codes such as
    [C11orf22], [UNQ1/PRO2], [KIAA12], [p53], [CI2], and phrases of more than
    two parts. *)
Definition fixed_format (syn : str) : bool :=
  matched (re_match false (seqs [Cls false [IChr (ch "C"); IChr (ch "c")]; plus digit;
                                 lits (lit "orf"); plus digit]) syn)
  || matched (re_match false (seqs [lits (lit "UNQ"); plus digit; lits (lit "/PRO");
                                    plus digit]) syn)
  || matched (re_match false (seqs [lits (lit "KIAA"); plus digit]) syn)
  || matched (re_fullmatch false (seqs [Cls false [IRange 65 122]; digit;
                                        opt (seqs [digit; opt digit])]) syn)
  || matched (re_fullmatch false
                (seqs [Group 1 (alts [lits (lit "CI"); lits (lit "RR"); lits (lit "AIM");
                                      lits (lit "FBS"); lits (lit "IOP")]);
                       plus digit]) syn)
  || (2 <? length (split_on 32 syn))%nat.

(** The [while re.search(number_in_gene, space_variant)] loop: a space goes
    before one more number at every round. *)
Fixpoint respace (fuel : nat) (space_variant : str) (position : nat)
  : outcome (list str) :=
  if matched (re_search false number_in_gene space_variant) then
    match fuel with
    | O => Timeout
    | S fuel' =>
        let position := S position in
        let space_variant :=
          re_sub false (Group 1 (plus digit)) [RLit (lit " "); RGroup 1]
                 space_variant position in
        (more <- respace fuel' space_variant position ;;
         Ret (re_sub false (plus space) [RLit (lit " ")] space_variant 0 :: more))%py
    end
  else Ret [].

(** The body of [for num_match in re.finditer(r"\d+", res)], at the [n]-th
    number [match_]. *)
Definition space_variants (fuel : nat) (syn : str) (n : nat) (match_ : str)
  : outcome (list str) :=
  let space_variant := re_sub false (lits match_) [RLit (lit " " ++ match_)] syn n in
  (more <- respace fuel space_variant n ;; Ret (space_variant :: more))%py.

Fixpoint enumerate_from (A : Type) (n : nat) (l : list A) : list (nat * A) :=
  match l with
  | [] => []
  | x :: l' => (n, x) :: enumerate_from (S n) l'
  end.

Definition add_space_one (fuel : nat) (syn : str) : outcome (list str) :=
  let syn := hyphens_to_spaces syn in
  if negb (fixed_format syn) then
    concat_outcomes
      (flat_map
         (fun syn_match =>
            let res := group0 syn syn_match in
            map (fun nm => space_variants fuel syn (fst nm) (group0 res (snd nm)))
                (enumerate_from 1 (finditer false (plus digit) res)))
         (finditer false number_in_gene syn))
  else Ret [].

(** [ExtractOLSSynonyms.add_space_before_number] *)
Definition add_space_before_number (fuel : nat) (syns : list str) : outcome (list str) :=
  (diff_spacing <- concat_outcomes (map (add_space_one fuel) syns) ;;
   Ret (set_iter (syns ++ diff_spacing)))%py.

Definition remove_space_one (syn : str) : outcome (list str) :=
  let syn := hyphens_to_spaces syn in
  concat_outcomes
    (map (fun nm =>
            let res := group0 syn (snd nm) in
            (p <- pattern_of_text res ;;
             t <- template_of_text (lstrip res) ;;
             Ret [re_sub false p t syn (fst nm)])%py)
         (enumerate_from 1 (finditer false spaced_number syn))).

(** [ExtractOLSSynonyms.remove_space_hyphen_before_number] *)
Definition remove_space_hyphen_before_number (syns : list str) : outcome (list str) :=
  (diff_spacing <- concat_outcomes (map remove_space_one syns) ;;
   Ret (set_iter (syns ++ diff_spacing)))%py.

(** [ExtractOLSSynonyms.greek_char_and_spacing_expansion] *)
Definition greek_char_and_spacing_expansion (fuel : nat) (syns : list str)
  : outcome (list str) :=
  (let syns := expand_greek_letters syns in
   syns <- add_space_before_number fuel syns ;;
   syns <- remove_space_hyphen_before_number syns ;;
   Ret (remove_multiple_spaces syns))%py.

(** [ExtractOLSSynonyms.clean_syn_list]: with a non-empty [syns_list] the
    cleaned list is returned; without one the object's own list is cleaned
    and stored, and the call returns [None]. *)
Definition clean_syn_list (self : ExtractOLSSynonyms) (fuel : nat)
  (syns_list : option (list str)) (syn_type : str)
  : outcome (ExtractOLSSynonyms * option (list str)) :=
  let given := match syns_list with Some (_ :: _) => true | _ => false end in
  let syns0 := match syns_list with Some (x :: l) => x :: l | _ => syns self end in
  (let filtered_terms := remove_noise_and_punctuation self syns0 syn_type in
   let syns1 := remove_redundant_syns filtered_terms in
   type_expanded_terms <- expand_types self syns1 ;;
   let removed_chain := remove_chain_from_end type_expanded_terms in
   exp_syns <- greek_char_and_spacing_expansion fuel removed_chain ;;
   let syns2 := remove_redundant_syns exp_syns in
   if given then Ret (self, Some syns2)
   else Ret (mkExtract (original_term self) (min_syn_len self) (x_n_threads self)
                       syns2 (greek_char_list self), None))%py.

End GetSynonyms.

(** The interpreter's tables cut down to ASCII, with the white space of all
    of Unicode: beyond ASCII a character is its own lower and upper case and
    is neither a digit nor alphanumeric. It agrees with Python on texts made
    of ASCII characters. A set is iterated in the order of first insertion. *)
Definition ascii_isspace (c : N) : bool :=
  (in_range 9 13 c || in_range 28 32 c || N.eqb c 0x85 || N.eqb c 0xA0
   || N.eqb c 0x1680 || in_range 0x2000 0x200A c || N.eqb c 0x2028
   || N.eqb c 0x2029 || N.eqb c 0x202F || N.eqb c 0x205F || N.eqb c 0x3000)%N.
Definition ascii_isalnum (c : N) : bool :=
  is_upper_ascii c || is_lower_ascii c || is_digit_ascii c.
Definition ascii_tolower (c : N) : N := if is_upper_ascii c then (c + 32)%N else c.
Definition ascii_toupper (c : N) : N := if is_lower_ascii c then (c - 32)%N else c.

Fixpoint dedup (l : list str) (seen : list str) : list str :=
  match l with
  | [] => []
  | x :: l' =>
      if existsb (str_eqb x) seen then dedup l' seen else x :: dedup l' (x :: seen)
  end.
Definition first_seen (l : list str) : list str := dedup l [].

Lemma str_eqb_eq (a b : str) : str_eqb a b = true <-> a = b.
Proof.
  revert b; induction a as [|x a IH]; intros [|y b]; simpl; split; intros H;
    try reflexivity; try discriminate.
  - apply andb_true_iff in H as [H1 H2]. apply N.eqb_eq in H1.
    apply IH in H2. now subst.
  - injection H as -> ->. rewrite N.eqb_refl. simpl. now apply IH.
Qed.

Lemma str_eqb_refl (a : str) : str_eqb a a = true.
Proof. now apply str_eqb_eq. Qed.

Lemma str_eqb_neq (a b : str) : str_eqb a b = false <-> a <> b.
Proof.
  split; intros H.
  - intros E. apply str_eqb_eq in E. congruence.
  - destruct (str_eqb a b) eqn:E; [|reflexivity].
    apply str_eqb_eq in E. contradiction.
Qed.

Lemma existsb_str_eqb (x : str) (l : list str) :
  existsb (str_eqb x) l = true <-> In x l.
Proof.
  rewrite existsb_exists. split.
  - intros [y [Hy E]]. apply str_eqb_eq in E. now subst.
  - intros H. exists x. split; [assumption | apply str_eqb_refl].
Qed.

Lemma dedup_in (l seen : list str) (x : str) :
  In x (dedup l seen) <-> In x l /\ ~ In x seen.
Proof.
  revert seen; induction l as [|y l IH]; intros seen; simpl.
  - tauto.
  - destruct (existsb (str_eqb y) seen) eqn:E.
    + apply existsb_str_eqb in E. rewrite IH. split.
      * intros [H1 H2]; tauto.
      * intros [[->|H1] H2]; [contradiction | tauto].
    + assert (Hy : ~ In y seen).
      { intros H. apply existsb_str_eqb in H. congruence. }
      simpl. rewrite IH. simpl. split.
      * intros [->|[H1 H2]]; [tauto|]. split; [tauto|]. intros H; apply H2; tauto.
      * intros [[->|H1] H2]; [tauto|].
        destruct (list_eq_dec N.eq_dec y x) as [->|Hne]; [tauto|].
        right. split; [assumption|]. intros [H|H]; [contradiction | tauto].
Qed.

Lemma dedup_nodup (l seen : list str) : NoDup (dedup l seen).
Proof.
  revert seen; induction l as [|y l IH]; intros seen; simpl.
  - constructor.
  - destruct (existsb (str_eqb y) seen); [apply IH|].
    constructor; [|apply IH].
    rewrite dedup_in. simpl. tauto.
Qed.

#[global, refine] Instance ascii_runtime : PyRuntime := {|
  isspace := ascii_isspace;
  isdecimal := is_digit_ascii;
  isalnum := ascii_isalnum;
  tolower := ascii_tolower;
  toupper := ascii_toupper;
  str_lower := map ascii_tolower;
  str_upper := map ascii_toupper;
  set_iter := first_seen
|}.
Proof.
  - intros l. apply dedup_nodup.
  - intros l x. unfold first_seen. rewrite dedup_in. simpl. tauto.
Defined.

(** ** [epmc_query.Query]: synonym collection

    The services the program talks to are given by what they answer: either
    the text of a transport or HTTP error, or the data the program reads
    from the response. *)

Definition answer (A : Type) := (str + A)%type.

(** One [result] element of a Europe PMC page, as [get_relevant_info_from_results]
    reads it. *)
Record result_tag := mkResultTag {
  r_id : str;
  r_source : str;
  r_title : option str;
  r_pubyear : option str;
  r_authorstring : option str;
  r_abstracttext : option str;
  r_pubtype : option str;
  r_keywords : list str;
  r_commentcorrections : list (str * str)   (** type and id of each entry *)
}.

Record page := mkPage {
  hitcount : Z;
  querystring : str;
  nextcursormark : option str;
  results : list result_tag
}.

(** A document record, with its [prep_of] entry. *)
Record doc := mkDoc {
  ID : str;
  Title : str;
  Year : str;
  Author : str;
  Publication_type : str;
  Abstract : str;
  Keywords : list str;
  url : str;
  prep_of : str
}.

(** A row of the input table: gene, identifier type, organism, keywords,
    gene key. *)
Record row := mkRow {
  row_gene : str;
  row_id_type : str;
  row_tax_id : str;
  row_kwds : str;
  row_key : str
}.

Section Services.
Context {rt : PyRuntime}.

(** EBI OLS search: the [iri] of every document of the response to a URL. *)
Variable ols_search : str -> answer (list str).
(** EBI OLS terms: the synonyms [get_syns] collects from the pages of a node. *)
Variable ols_node_syns : str -> bool -> answer (list str).
(** UniProt: the text of the response to a URL. *)
Variable uniprot_get : str -> answer str.
(** Europe PMC: the page for a query and a cursor mark. *)
Variable epmc_search : str -> option str -> answer page.
(** [anatomy_qualifiers.anatomy_qualifiers], [noisy_phrases.common_gene_noise]
    and [noisy_phrases.stop_words]: static tables. *)
Variable anatomy_qualifiers : list (str * list str).
Variable common_gene_noise : list str.
Variable stop_words : list str.

(** A request that fails is logged and ends the run with [exit()]. *)
Definition request (A : Type) (ev : event) (a : answer A) : M A :=
  (emit ev ;;;
   match a with
   | inr x => mret x
   | inl err => emit (Log ERROR err) ;;; mraise SystemExit
   end)%m.

(** The text Python prints for a list of strings that need no escaping *)
Definition repr_list (l : list str) : str :=
  lit "[" ++ join (lit ", ") (map (fun s => lit "'" ++ s ++ lit "'") l) ++ lit "]".

(** [ArgumentCleaner.get_clean_arg] *)
Definition clean_orig_term (term : pyarg) : M str :=
  match term with
  | ArgList l =>
      if (1 <? length l)%nat then
        (emit (Log WARNING (lit "The supplied term '" ++ repr_list l ++
                            lit "' should not be a list. Skipping term")) ;;;
         mret [])%m
      else lift (getitem l 0)
  | ArgStr s => mret s
  | ArgInt z => mret (str_of_Z z)
  | ArgNone => mret []
  end.

(** [OLSRequests.get_iris] *)
Definition get_iris (original_term search_settings : str) : M (list str) :=
  let term := replace original_term (lit " ") (lit "+") in
  let term := if negb (contains search_settings (lit "exact=on"))
              then dq ++ term ++ dq else term in
  let url := match search_settings with
             | [] => lit "http://www.ebi.ac.uk/ols/api/search?q=" ++ term
             | _ => lit "http://www.ebi.ac.uk/ols/api/search?q=" ++ term ++ search_settings
             end in
  (iris <-- request (OLSRequest url) (ols_search url) ;;
   mret (set_iter (filter (fun iri => negb (contains iri (lit "/obo/BFO_0"))) iris)))%m.

(** [ExtractOLSSynonyms.get_syns] on the pages of one node: what is found is
    added to the object's list, which is returned. *)
Definition get_syns (synonyms : ExtractOLSSynonyms) (iri : str) (descendants : bool)
  : M (ExtractOLSSynonyms * list str) :=
  (found_syns <-- request (OLSRequest iri) (ols_node_syns iri descendants) ;;
   let all := set_iter (syns synonyms ++ found_syns) in
   mret (mkExtract (original_term synonyms) (min_syn_len synonyms)
                   (x_n_threads synonyms) all (greek_char_list synonyms), all))%m.

Fixpoint get_syns_of_all (synonyms : ExtractOLSSynonyms) (iris : list str)
  (descendants : bool) (acc : list str) : M (ExtractOLSSynonyms * list str) :=
  match iris with
  | [] => mret (synonyms, acc)
  | iri :: iris' =>
      (r <-- get_syns synonyms iri descendants ;;
       get_syns_of_all (fst r) iris' descendants (acc ++ snd r))%m
  end.

(** [ExtractOLSSynonyms.get_anatomy_qualifiers] *)
Definition get_anatomy_qualifiers (self : ExtractOLSSynonyms) (syns_list : list str)
  : list str :=
  let syns := remove_noise_and_punctuation self syns_list (lit "tissue") in
  let syns := set_iter (original_term self :: syns) in
  syns ++
  flat_map (fun syn =>
              match find (fun kv => str_eqb (fst kv) (str_lower syn)) anatomy_qualifiers with
              | Some kv => snd kv
              | None => []
              end) syns.

Definition returned_list (r : ExtractOLSSynonyms * option (list str)) : outcome (list str) :=
  match snd r with
  | Some l => Ret l
  | None => Raise TypeError
  end.

(** [Query.get_syns_in_parallel] *)
Definition get_syns_in_parallel (self : Query) (fuel : nat) (term : str)
  (iris : list str) (is_tissue : bool) : M (list str) :=
  (synonyms <-- lift (ExtractOLSSynonyms_new
                        (mkCall [VStr term; VLogger]
                                [("n_threads"%string, VInt (n_threads self))])) ;;
   r <-- get_syns_of_all synonyms iris is_tissue [term] ;;
   let '(synonyms, syns) := r in
   let syns := if is_tissue then get_anatomy_qualifiers synonyms syns else syns in
   cleaned <-- lift (clean_syn_list synonyms fuel (Some syns)
                       (if is_tissue then lit "tissue" else lit "other")) ;;
   lift (returned_list cleaned))%m.

Definition set_disease (self : Query) (d : pyarg) (l : list str) : Query :=
  mkQuery d (tissue self) (kwds self) (other_args self) (expand self) (n_threads self)
          l (tissue_syns self) (kwd_syns self) (kwd_syn_lists self)
          (gene_syns self) (gene_syn_roots self).

Definition set_tissue (self : Query) (t : pyarg) (l : list str) : Query :=
  mkQuery (disease self) t (kwds self) (other_args self) (expand self) (n_threads self)
          (disease_syns self) l (kwd_syns self) (kwd_syn_lists self)
          (gene_syns self) (gene_syn_roots self).

Definition set_kwds (self : Query) (all : list str) (lists : list (list str)) : Query :=
  mkQuery (disease self) (tissue self) (kwds self) (other_args self) (expand self)
          (n_threads self) (disease_syns self) (tissue_syns self) all lists
          (gene_syns self) (gene_syn_roots self).

Definition set_genes (self : Query) (l roots : list str) : Query :=
  mkQuery (disease self) (tissue self) (kwds self) (other_args self) (expand self)
          (n_threads self) (disease_syns self) (tissue_syns self) (kwd_syns self)
          (kwd_syn_lists self) l roots.

(** [Query.get_disease_syns] *)
Definition get_disease_syns (self : Query) (fuel : nat) : M Query :=
  (clean_disease <-- clean_orig_term (disease self) ;;
   let self := set_disease self (ArgStr clean_disease) (disease_syns self) in
   iris <-- get_iris clean_disease (lit "&ontology=mondo") ;;
   syns <-- get_syns_in_parallel self fuel clean_disease iris false ;;
   mret (set_disease self (ArgStr clean_disease) syns))%m.

(** [Query.get_tissue_syns] *)
Definition get_tissue_syns (self : Query) (fuel : nat) : M Query :=
  (clean_tissue <-- clean_orig_term (tissue self) ;;
   let self := set_tissue self (ArgStr clean_tissue) (tissue_syns self) in
   iris <-- get_iris clean_tissue (lit "&exact=on&ontology=uberon") ;;
   syns <-- get_syns_in_parallel self fuel clean_tissue iris true ;;
   mret (set_tissue self (ArgStr clean_tissue) syns))%m.

Definition too_many_synonyms (n : nat) (kwd : str) : event :=
  Log WARNING (lit "Noise suspected: Too many synonyms (" ++ str_of_nat n ++
               lit ") identified for keyword '" ++ kwd ++
               lit "'. Only the supplied keyword will be used to search Europe PMC, not its synonyms").

(** [Query.get_kwd_synonyms] *)
Definition get_kwd_synonyms (self : Query) (fuel : nat) (kwd_string : str) : M Query :=
  let raw_kwds := split_on (ch ",") kwd_string in
  let kwds := set_iter (map strip raw_kwds) in
  (lists <--
     (if expand self then
        mapM (fun kwd =>
                iris <-- get_iris kwd (lit "&exact=on") ;;
                syns <-- get_syns_in_parallel self fuel kwd iris false ;;
                if (100 <? length syns)%nat
                then emit (too_many_synonyms (length syns) kwd) ;;; mret [kwd]
                else mret syns)
             kwds
      else mret (map (fun kwd => [kwd]) kwds)) ;;
   mret (set_kwds self (kwd_syns self) lists))%m.

Definition truthy (a : pyarg) : bool :=
  match a with
  | ArgNone => false
  | ArgStr s => negb (str_eqb s [])
  | ArgList l => match l with [] => false | _ => true end
  | ArgInt z => negb (z =? 0)
  end.

Definition settings_too_long (others_query_string : str) : event :=
  Log ERROR (lit "The string of settings was too long to produce a query. No settings will be included in the queries. Please consider removing some of the settings from the following in order to allow the query to run with settings: "
             ++ others_query_string).

(** The first part of [get_constant_query_strings]: the string of the other
    settings. *)
Definition others_string (self : Query) : M str :=
  match other_args self with
  | Some (kv :: rest) =>
      let list_of_other_args :=
        map (fun kv => fst kv ++ lit ":" ++ snd kv) (kv :: rest) in
      let others_query_string := join (lit " & ") list_of_other_args in
      if (4500 <? length others_query_string)%nat then
        (emit (settings_too_long others_query_string) ;;; mret [])%m
      else mret others_query_string
  | _ => mret []
  end.

(** The rest of [get_constant_query_strings]: tissue, disease and keywords. *)
Definition constant_segments (self : Query) (fuel : nat)
  : M (Query * (str * str * list str * list str)) :=
  (r <-- (if truthy (tissue self) then
            (self <-- get_tissue_syns self fuel ;;
             mret (self, add_abstract_title_and_join_synonyms (tissue_syns self) true false))
          else mret (self, [])) ;;
   let '(self, tissue_query_string) := r in
   r <-- (if truthy (disease self) then
            (self <-- get_disease_syns self fuel ;;
             mret (self, add_abstract_title_and_join_synonyms (disease_syns self) true false))
          else mret (self, [])) ;;
   let '(self, disease_query_string) := r in
   match kwds self with
   | Some (c :: k) =>
       (self <-- get_kwd_synonyms self fuel (c :: k) ;;
        let self := set_kwds self (kwd_syns self ++ concat (kwd_syn_lists self))
                             (kwd_syn_lists self) in
        let kwd_query_strings :=
          map (fun each => add_abstract_title_and_join_synonyms each true false)
              (kwd_syn_lists self) in
        mret (self, (disease_query_string, tissue_query_string, kwd_query_strings,
                     map strip (split_on (ch ",") (c :: k)))))
   | _ => mret (self, (disease_query_string, tissue_query_string, [], []))
   end)%m.

(** [Query.get_constant_query_strings]: disease, tissue and other query
    strings, keyword query strings, keywords. *)
Definition get_constant_query_strings (self : Query) (fuel : nat)
  : M (Query * (str * str * str * list str * list str)) :=
  (others_query_string <-- others_string self ;;
   r <-- constant_segments self fuel ;;
   let '(self, (disease_query_string, tissue_query_string, kwd_query_strings, kwds)) := r in
   mret (self, (disease_query_string, tissue_query_string, others_query_string,
                kwd_query_strings, kwds)))%m.

(** [re.split(r, s)] for a pattern without groups *)
Fixpoint pieces (s : str) (from : nat) (ms : list found) : list str :=
  match ms with
  | [] => [skipn from s]
  | m :: ms' => substring s from (fst m) :: pieces s (m_pos (snd m)) ms'
  end.
Definition re_split (ic : bool) (r : re) (s : str) : list str :=
  pieces s 0 (finditer ic r s).

(** [[Cc]\d+orf\d+], [UNQ\d+/PRO\d+] and [KIAA\d+] at the start of the name *)
Definition code_name (syn : str) : bool :=
  matched (re_match false (seqs [Cls false [IChr (ch "C"); IChr (ch "c")]; plus digit;
                                 lits (lit "orf"); plus digit]) syn)
  || matched (re_match false (seqs [lits (lit "UNQ"); plus digit; lits (lit "/PRO");
                                    plus digit]) syn)
  || matched (re_match false (seqs [lits (lit "KIAA"); plus digit]) syn).

(** [[hyphens\s,]] and [(\d| [IXV]+)] *)
Definition separator_class : list citem := hyphen_class ++ [ISpace; IChr (ch ",")].
Definition number_or_numeral (n : nat) : re :=
  Group n (Alt digit (Seq (Chr 32) (plus (Cls false numeral_class)))).

(** [Query.get_root_name_from_gene_syn] *)
Definition get_root_name_from_gene_syn (syn : str) : outcome str :=
  let pattern :=
    seqs [Seq Any (lazy_star Any); star (Cls false separator_class);
          plus (number_or_numeral 1); opt (Cls false [IRange 65 122]);
          star (number_or_numeral 2); Eol] in
  if matched (re_search false pattern syn) && negb (code_name syn)
     && negb (startswith syn (lit "type")) then
    match re_match false
            (seqs [Group 1 (Seq Any (lazy_star Any));
                   opt (Group 2 (Alt (lits (lit "TYPE"))
                                     (Seq (Cls false [IChr (ch "T"); IChr (ch "t")])
                                          (lits (lit "ype")))));
                   star (Cls false separator_class);
                   plus (number_or_numeral 3);
                   star (Group 4
                           (alts [Cls false separator_class; Cls false [IRange 65 122];
                                  lits (lit "MOTIF");
                                  Seq (Cls false [IChr (ch "M"); IChr (ch "m")]) (lits (lit "otif"));
                                  lits (lit "PROTEIN");
                                  Seq (Cls false [IChr (ch "P"); IChr (ch "p")]) (lits (lit "rotein"));
                                  lits (lit "DOMAIN");
                                  Seq (Cls false [IChr (ch "D"); IChr (ch "d")]) (lits (lit "omain"));
                                  lits (lit "PSEUDOGENE");
                                  Seq (Cls false [IChr (ch "P"); IChr (ch "p")]) (lits (lit "seudogene"));
                                  lits (lit "CONTAINING");
                                  Seq (Cls false [IChr (ch "C"); IChr (ch "c")]) (lits (lit "ontaining"))]));
                   star (number_or_numeral 5); Eol]) syn with
    | Some m => Ret (group_or_empty syn m 1)
    | None => Raise AttributeError
    end
  else Ret [].

Fixpoint outcomes (A : Type) (l : list (outcome A)) : outcome (list A) :=
  match l with
  | [] => Ret []
  | c :: l' => (x <- c ;; xs <- outcomes l' ;; Ret (x :: xs))%py
  end.

(** [Query.get_recurrent_root_phrases] *)
Definition get_recurrent_root_phrases (syns : list str) : outcome (list str) :=
  let syns := set_iter syns in
  (roots <- outcomes (map get_root_name_from_gene_syn syns) ;;
   let root_phrases := filter (fun r => negb (str_eqb r [])) roots in
   Ret (filter (fun k => (1 <? count_occ (list_eq_dec N.eq_dec) root_phrases k)%nat)
               (first_seen root_phrases)))%py.

(** [Query.systematic_family_naming_test], as a truth value *)
Definition systematic_family_naming_test (gene : str) : bool :=
  if negb (code_name gene) then
    matched (re_match true
               (seqs [star Any; plus digit; opt (Cls false [IRange 65 122]);
                      star digit; Eol]) gene)
  else false.

(** [Query.get_gene_syn_iris_from_ebi_ols] *)
Definition get_gene_syn_iris_from_ebi_ols (syn : str) (search_human_only : bool)
  : M (list str) :=
  if contains syn (lit "*") then
    if search_human_only then
      get_iris syn (lit "ontology=ogg&rows=2000&allChildrenOf=http://purl.obolibrary.org/obo/OGG_2000009606")
    else get_iris syn (lit "&ontology=ogg&rows=2000")
  else
    if search_human_only then
      get_iris syn (lit "&exact=on&ontology=ogg&rows=2000&allChildrenOf=http://purl.obolibrary.org/obo/OGG_2000009606")
    else get_iris syn (lit "&exact=on&ontology=ogg&rows=2000").

(** [GetUniprotSynonyms.get_gene_syns_from_uniprot]: the synonyms and whether
    UniProt knew any. A failed request is logged and answered with the gene
    identifier alone. *)
Definition get_gene_syns_from_uniprot (r : row) : M (list str * bool) :=
  let query :=
    lit "https://rest.uniprot.org/uniprotkb/search?query=" ++ row_id_type r ++ lit ":" ++
    row_gene r ++ lit "+organism_id:" ++ row_tax_id r ++
    lit "+reviewed:true&fields=gene_names&format=tsv" in
  match uniprot_get query with
  | inl err =>
      (emit (Log ERROR (lit "Unable to collect gene synonyms for '" ++ row_gene r ++
                        lit "' (type: " ++ row_id_type r ++ lit ", taxonomy id: " ++
                        row_tax_id r ++ lit ") from uniprot.org")) ;;;
       emit (Log ERROR err) ;;;
       mret ([row_gene r], false))%m
  | inr text =>
      let gene_syns := strip (replace text (lit "Gene names") []) in
      let '(syns, syns_found) :=
        match gene_syns with
        | [] => ([row_gene r], false)
        | _ => (re_split false (Cls false [IChr 10; IChr 32]) gene_syns, true)
        end in
      mret (set_iter (row_gene r :: syns), syns_found)
  end.

Definition no_synonyms_warning (syn : str) (r : row) : event :=
  Log WARNING (lit "No synonyms were found for '" ++ syn ++ lit "' in UniProt " ++
               row_id_type r ++
               lit "s or the Ontology of Genes and Genomes. It is recommended to check for mistakes in this entry").

(** The loop of [get_gene_synonyms] over the UniProt synonyms: the IRIs of
    all of them and the family roots. *)
Fixpoint gene_iris_and_roots (r : row) (gene_found search_human_only : bool)
  (uniprot_gene_syns : list str) (all_iris_for_row fam_roots : list str)
  : M (list str * list str) :=
  match uniprot_gene_syns with
  | [] => mret (all_iris_for_row, fam_roots)
  | syn :: rest =>
      (iris <-- get_gene_syn_iris_from_ebi_ols syn search_human_only ;;
       (match iris with
        | _ :: _ => mret tt
        | [] => if negb gene_found then emit (no_synonyms_warning syn r) else mret tt
        end) ;;;
       fam_roots <--
         (if systematic_family_naming_test syn then
            (fam_root <-- lift (get_root_name_from_gene_syn syn) ;;
             mret (match fam_root with [] => fam_roots | _ => fam_roots ++ [fam_root] end))
          else mret fam_roots) ;;
       gene_iris_and_roots r gene_found search_human_only rest
         (all_iris_for_row ++ iris) fam_roots)%m
  end.

Definition stop_word_split : re :=
  alts (map lits hyphens ++ [Chr 32]).

(** [Query.final_gene_clean] *)
Definition final_gene_clean (self : Query) (fuel : nat) (gene : str) (all_syns : list str)
  : M (list str) :=
  (cleaner <-- lift (ExtractOLSSynonyms_new (mkCall [VStr gene; VLogger] [])) ;;
   cleaned <-- lift (clean_syn_list cleaner fuel (Some all_syns) (lit "other")) ;;
   first_clean <-- lift (returned_list cleaned) ;;
   let filtered_syns :=
     filter
       (fun syn =>
          (2 <? length syn)%nat
          && negb (matched (re_fullmatch true
                     (seqs [Group 1 (alts [Cls false [IRange 65 122]; lits (lit "CI");
                                           lits (lit "CD"); lits (lit "CT"); lits (lit "CRP");
                                           lits (lit "PP"); lits (lit "LAG"); lits (lit "PER");
                                           lits (lit "period"); lits (lit "TC"); lits (lit "UP")]);
                            Chr 32; plus digit; opt space; star digit]) syn))
          && negb (matched (re_fullmatch false
                     (seqs [Cls false (chars_of (lit "vVlL")); plus digit; opt space;
                            star digit]) syn))
          && negb (str_in (str_upper syn) common_gene_noise)
          && (let split_syn := re_split false stop_word_split (str_lower syn) in
              let last_part := last split_syn [] in
              let first_part := hd [] split_syn in
              negb (str_in last_part stop_words) && negb (str_in first_part stop_words)))
       first_clean in
   mret (set_iter (gene :: filtered_syns)))%m.

Definition many_synonyms_warning (n : nat) (orig_gene : str) : event :=
  Log WARNING (str_of_nat n ++ lit " synonyms found for " ++ orig_gene ++
               lit "; you may want to check for noise in the results of the associated search").

(** The constructor call of the family-root cleaning in [get_gene_synonyms] *)
Definition root_clean_new (orig_gene : str) : outcome ExtractOLSSynonyms :=
  ExtractOLSSynonyms_new (mkCall [VStr orig_gene; VLogger] []).

(** [Query.get_gene_synonyms] *)
Definition get_gene_synonyms (self : Query) (fuel : nat) (r : row)
  : M (list str * list str) :=
  (u <-- get_gene_syns_from_uniprot r ;;
   let '(uniprot_gene_syns, gene_found) := u in
   (if contains (row_gene r) (lit "*") then
      emit (Log WARNING (lit "'" ++ row_gene r ++
                         lit "' is a wildcard: searching for a wildcard term may take longer than usual"))
    else mret tt) ;;;
   let search_human_only := str_eqb (row_tax_id r) (lit "9606") in
   ir <-- gene_iris_and_roots r gene_found search_human_only uniprot_gene_syns [] [] ;;
   let '(all_iris_for_row, fam_roots) := ir in
   let orig_gene := row_gene r in
   syns <-- get_syns_in_parallel self fuel orig_gene all_iris_for_row false ;;
   (if (30 <? length syns)%nat then emit (many_synonyms_warning (length syns) orig_gene)
    else mret tt) ;;;
   syns <-- (if contains orig_gene (lit "*") then
               (roots <-- lift (get_recurrent_root_phrases syns) ;; mret (syns ++ roots))
             else mret syns) ;;
   final_syns <-- final_gene_clean self fuel orig_gene syns ;;
   fam_roots <--
     (match fam_roots with
      | [] => mret fam_roots
      | _ =>
          (root_clean <-- lift (root_clean_new orig_gene) ;;
           cleaned <-- lift (clean_syn_list root_clean fuel (Some fam_roots) (lit "other")) ;;
           fam_roots <-- lift (returned_list cleaned) ;;
           mret (if str_in orig_gene fam_roots then list_remove orig_gene fam_roots
                 else fam_roots))
      end) ;;
   mret (final_syns, fam_roots))%m.

(** ** [epmc_query.Query]: running the queries *)

Definition or_unavailable (v : option str) : str :=
  match v with
  | Some s => s
  | None => lit "unavailable"
  end.

(** [Query.get_relevant_info_from_results] *)
Definition get_relevant_info_from_results (result_soup : result_tag) : str * doc :=
  let pub_id := r_id result_soup in
  let url := lit "https://europepmc.org/abstract/" ++ r_source result_soup ++ lit "/" ++ pub_id in
  let preprint_of :=
    if startswith pub_id (lit "PPR") then
      fold_left (fun preprint_of comment =>
                   if str_eqb (fst comment) (lit "Preprint of") then snd comment
                   else preprint_of)
                (r_commentcorrections result_soup) (lit "nothing")
    else lit "nothing" in
  (pub_id,
   mkDoc pub_id (or_unavailable (r_title result_soup)) (or_unavailable (r_pubyear result_soup))
         (or_unavailable (r_authorstring result_soup)) (or_unavailable (r_pubtype result_soup))
         (or_unavailable (r_abstracttext result_soup)) (r_keywords result_soup) url
         preprint_of).

(** [list({v['ID']: v for v in doc_info_list}.values())]: one record for each
    identifier, at the place of its first record and with the content of
    its last. *)
Fixpoint put_by_id (d : doc) (l : list doc) : list doc :=
  match l with
  | [] => [d]
  | x :: l' => if str_eqb (ID x) (ID d) then d :: l' else x :: put_by_id d l'
  end.
Definition unique_by_id (doc_info_list : list doc) : list doc :=
  fold_left (fun acc d => put_by_id d acc) doc_info_list [].

(** The record written for a page without results. *)
Definition no_result_doc : doc := mkDoc (lit "none") [] [] [] [] [] [] [] [].

(** [Query.parse_potential_result_content_for_relevant_info] *)
Definition parse_potential_result_content_for_relevant_info (res : page)
  (ignore_ids : list str) : list doc * str * Z :=
  let cursor_mark := match nextcursormark res with Some c => c | None => lit "*" end in
  let doc_info_list :=
    map (fun t => snd (get_relevant_info_from_results t))
        (filter (fun t => negb (str_in (r_id t) ignore_ids)) (results res)) in
  (unique_by_id doc_info_list, cursor_mark, hitcount res).

(** [Query.parse_actual_result_content_for_relevant_info] *)
Definition parse_actual_result_content_for_relevant_info (result_text_list : list page)
  : str * list doc * list str :=
  let query_strings :=
    map (fun nr => str_of_nat (fst nr) ++ lit ": " ++ querystring (snd nr))
        (enumerate_from 1 result_text_list) in
  let doc_info_list :=
    flat_map (fun res =>
                match results res with
                | [] => [no_result_doc]
                | tags => map (fun t => snd (get_relevant_info_from_results t)) tags
                end) result_text_list in
  let id_list := flat_map (fun res => map r_id (results res)) result_text_list in
  (join (lit " split_here ") query_strings, unique_by_id doc_info_list, set_iter id_list).

(** [Query.run_epmc_query] *)
Definition run_epmc_query (query : str) : M page :=
  request (EPMCRequest query []) (epmc_search query None).

Definition hyphen_or_space : re :=
  Group 1 (alts (map lits hyphens ++ [space])).

(** The pattern of [analyse_text_for_gene_in_list]: the root, an optional
    apostrophe, hyphens or spaces, a number with an optional letter, any
    number of further numbers after commas, one of [and], [or] and [,], a
    space, and the part of the synonym. Root and part are pasted into the
    pattern as they are. *)
Definition list_pattern (root syn_part : re) : re :=
  let number := seqs [plus digit; opt (Cls false [IRange 97 122]); star digit] in
  seqs [star Any; root; opt (Chr (ch "'")); star hyphen_or_space; number;
        star hyphen_or_space;
        star (Group 2 (seqs [Chr (ch ","); star hyphen_or_space; number]));
        Group 3 (alts [lits (lit "and"); lits (lit "or"); Chr (ch ",")]);
        space; star hyphen_or_space; syn_part; star Any].

Fixpoint analyse_parts (text root : str) (syn_part_list : list str) : outcome bool :=
  match syn_part_list with
  | [] => Ret false
  | syn_part :: rest =>
      if contains text (str_lower syn_part) then
        (r <- pattern_of_text (str_lower root) ;;
         p <- pattern_of_text (str_lower syn_part) ;;
         if matched (re_match false (list_pattern r p) text) then Ret true
         else analyse_parts text root rest)%py
      else analyse_parts text root rest
  end.

Fixpoint analyse_roots (text : str) (root_and_syn_part : list (str * list str))
  : outcome bool :=
  match root_and_syn_part with
  | [] => Ret false
  | (root, syn_part_list) :: rest =>
      if contains text (str_lower root) then
        (b <- analyse_parts text root syn_part_list ;;
         if b then Ret true else analyse_roots text rest)%py
      else analyse_roots text rest
  end.

(** [Query.analyse_text_for_gene_in_list] *)
Definition analyse_text_for_gene_in_list (abstract title : str)
  (root_and_syn_part : list (str * list str)) (doc_id : str) : outcome bool :=
  let text := str_lower (join (lit ". ") [title; abstract]) in
  analyse_roots text root_and_syn_part.

Definition many_hits_warning (hit_count : Z) (gene_name : str) : event :=
  Log WARNING (str_of_Z hit_count ++
               lit " results were identified when searching for a root of a synonym of " ++
               gene_name ++ lit ". It may take several minutes to parse this many documents").

(** The documents of a page that name the gene in a list. *)
Fixpoint keep_listed (potential_doc_info : list doc)
  (root_and_syn_parts : list (str * list str)) : outcome (list doc) :=
  match potential_doc_info with
  | [] => Ret []
  | d :: rest =>
      (correct <- analyse_text_for_gene_in_list (Abstract d) (Title d)
                    root_and_syn_parts (ID d) ;;
       more <- keep_listed rest root_and_syn_parts ;;
       Ret (if correct then d :: more else more))%py
  end.

(** The [while continue_querying and res_count <= 1000] loop of
    [run_epmc_query_all_results]. *)
Fixpoint all_results_loop (fuel : nat) (query : str) (id_list : list str)
  (root_and_syn_parts : list (str * list str)) (gene_name : str)
  (res_info : list doc) (c_mark : str) (run_number : Z) (continue_querying : bool)
  (res_count : Z) : M (list doc) :=
  if continue_querying && (res_count <=? 1000) then
    match fuel with
    | O => mtimeout
    | S fuel' =>
        let run_number := run_number + 1 in
        (res_text <-- request (EPMCRequest query c_mark) (epmc_search query (Some c_mark)) ;;
         let '(potential_doc_info, c_mark, hit_count) :=
           parse_potential_result_content_for_relevant_info res_text id_list in
         (if (hit_count >? 5000) && (run_number =? 1)
          then emit (many_hits_warning hit_count gene_name) else mret tt) ;;;
         kept <-- (match root_and_syn_parts with
                   | [] => mret []
                   | _ => lift (keep_listed potential_doc_info root_and_syn_parts)
                   end) ;;
         let res_info := res_info ++ kept in
         let res_count := res_count + Z.of_nat (length kept) in
         let continue_querying :=
           if hit_count - run_number * 1000 <=? 0 then false else continue_querying in
         all_results_loop fuel' query id_list root_and_syn_parts gene_name
                          res_info c_mark run_number continue_querying res_count)%m
    end
  else mret res_info.

(** [Query.run_epmc_query_all_results] *)
Definition run_epmc_query_all_results (fuel : nat) (res_count : Z) (id_list : list str)
  (root_and_syn_parts : list (str * list str)) (gene_name : str) (query : str)
  : M (list doc) :=
  all_results_loop fuel query id_list root_and_syn_parts gene_name [] (lit "*") 0 true
                   res_count.

(** The dictionary of an entity before and after its queries are run. *)
Record queries_dict := mkQueries {
  q_gene_key : str;
  q_gene_name : str;
  q_search_terms : str;
  q_queries : list str;
  q_root_syns : list (str * list str);
  q_root_queries : list str;
  q_specific_syns : list str
}.

Record results_dict := mkResults {
  gene_key : str;
  gene_name : str;
  search_terms : str;
  specific_syns : list str;
  query_strings : str;
  true_result_doc_info : list doc;
  res_count : Z
}.

(** [Query.run_queries_and_get_results] *)
Definition run_queries_and_get_results (fuel : nat) (queries_dict : queries_dict)
  : M results_dict :=
  (result_text <-- mapM run_epmc_query (q_queries queries_dict) ;;
   let '(query_strings, doc_info, id_list) :=
     parse_actual_result_content_for_relevant_info result_text in
   let res_count := Z.of_nat (length id_list) in
   root_doc_info <--
     (match q_root_queries queries_dict with
      | _ :: _ =>
          if res_count <? 1000 then
            (root_results <--
               mapM (run_epmc_query_all_results fuel res_count id_list
                       (q_root_syns queries_dict) (q_gene_name queries_dict))
                    (q_root_queries queries_dict) ;;
             mret (concat root_results))
          else mret []
      | [] => mret []
      end) ;;
   mret (mkResults (q_gene_key queries_dict) (q_gene_name queries_dict)
                   (q_search_terms queries_dict) (q_specific_syns queries_dict)
                   query_strings (doc_info ++ root_doc_info)
                   (res_count + Z.of_nat (length root_doc_info))))%m.

End Services.

(** ** [epmc_query.Query]: the description of a search and the family roots *)

Section QueryAssembly.
Context {rt : PyRuntime}.

(** What the loop of [get_search_terms_string] makes of the disease or the
    tissue: nothing when the value is false, its text when it is a string;
    a list or a number that is true has no [replace]. *)
Definition search_term_text (each : pyarg) : outcome (option str) :=
  match each with
  | ArgStr s => Ret (if truthy each then Some s else None)
  | ArgNone => Ret None
  | ArgList _ | ArgInt _ => if truthy each then Raise AttributeError else Ret None
  end.

(** The cleaning of one term: no single quote marks, one space for several,
    no commas and spaces at the ends. *)
Definition clean_search_term (each : str) : str :=
  let each := replace each (lit "'") [] in
  let each := re_sub false spaces2 [RLit (lit " ")] each 0 in
  strip_chars each (lit ", ").

(** [Query.get_search_terms_string] *)
Definition get_search_terms_string (self : Query) (kwds : list str) : outcome str :=
  let kwds := join (lit ", ") kwds in
  (disease_text <- search_term_text (disease self) ;;
   tissue_text <- search_term_text (tissue self) ;;
   let other_text :=
     match other_args self with
     | Some each =>
         Some (join (lit ", ") (map (fun kv => fst kv ++ lit " " ++ snd kv) each))
     | None => None
     end in
   let clean_terms :=
     flat_map (fun each =>
                 match each with
                 | Some (c :: s) => [clean_search_term (c :: s)]
                 | _ => []
                 end)
              [disease_text; tissue_text; other_text; Some kwds] in
   Ret (join (lit ", ") clean_terms))%py.

(** [roots_and_parts[root] = parts]: a new root goes to the end, a known one
    keeps its place. *)
Fixpoint set_root (roots_and_parts : list (str * list str)) (root : str)
  (parts : list str) : list (str * list str) :=
  match roots_and_parts with
  | [] => [(root, parts)]
  | (k, v) :: rest =>
      if str_eqb k root then (k, parts) :: rest else (k, v) :: set_root rest root parts
  end.

(** [Query.get_roots_and_parts_from_family_synonyms] *)
Definition get_roots_and_parts_from_family_synonyms (self : Query)
  : list (str * list str) :=
  fold_left
    (fun roots_and_parts root =>
       let syns_containing_root :=
         map (fun syn => strip (replace syn root []))
             (filter (fun syn => contains syn root) (gene_syns self)) in
       match syns_containing_root with
       | [] => roots_and_parts
       | _ => set_root roots_and_parts root (set_iter syns_containing_root)
       end)
    (gene_syn_roots self) [].

End QueryAssembly.

(** ** [__main__.LitSpy.remove_redundant_preprints] *)






(** * Properties *)

(** ** Outcomes and the event monad *)

Lemma obind_ret (A B : Type) (c : outcome A) (f : A -> outcome B) (b : B) :
  obind c f = Ret b -> exists a, c = Ret a /\ f a = Ret b.
Proof. destruct c; simpl; intros H; try discriminate. eauto. Qed.

Lemma mbind_ret (A B : Type) (c : M A) (f : A -> M B) (ev ev' : list event) (b : B) :
  mbind c f ev = (ev', Ret b) ->
  exists a ev1, c ev = (ev1, Ret a) /\ f a ev1 = (ev', Ret b).
Proof.
  unfold mbind. destruct (c ev) as [ev1 [a|e|]]; intros H; try discriminate.
  eauto.
Qed.

Lemma lift_ret (A : Type) (c : outcome A) (ev ev' : list event) (a : A) :
  lift c ev = (ev', Ret a) -> c = Ret a /\ ev' = ev.
Proof. unfold lift. intros H. injection H as -> ->. auto. Qed.

Lemma mret_ret (A : Type) (x a : A) (ev ev' : list event) :
  mret x ev = (ev', Ret a) -> x = a /\ ev' = ev.
Proof. unfold mret. intros H. injection H as -> ->. auto. Qed.

Lemma mapM_ret (A B : Type) (f : A -> M B) (P : B -> Prop) (l : list A) :
  (forall x ev ev' y, In x l -> f x ev = (ev', Ret y) -> P y) ->
  forall ev ev' ys, mapM f l ev = (ev', Ret ys) ->
  length ys = length l /\ Forall P ys.
Proof.
  induction l as [|x l IH]; intros Hf ev ev' ys H; simpl in H.
  - apply mret_ret in H as [<- _]. split; [reflexivity | constructor].
  - apply mbind_ret in H as (y & ev1 & Hy & H).
    apply mbind_ret in H as (ys' & ev2 & Hys & H).
    apply mret_ret in H as [<- _].
    destruct (IH (fun x0 e e' y0 Hin => Hf x0 e e' y0 (or_intror Hin)) _ _ _ Hys)
      as [Hlen Hall].
    split; [simpl; congruence|].
    constructor; [|assumption].
    eapply Hf; [left; reflexivity | eassumption].
Qed.

(** ** The constructor call without [min_syn_len] *)

Lemma new_without_min_syn_len (a b : pyval) (kws : list (string * pyval)) :
  kw_lookup "original_term" kws = None ->
  kw_lookup "logger" kws = None ->
  kw_lookup "min_syn_len" kws = None ->
  ExtractOLSSynonyms_new (mkCall [a; b] kws) = Raise TypeError.
Proof.
  intros H1 H2 H3. unfold ExtractOLSSynonyms_new, ExtractOLSSynonyms_init_params.
  simpl. rewrite H1, H2, H3. reflexivity.
Qed.

Section Constructor.
Context {rt : PyRuntime}.
Variable ols_node_syns : str -> bool -> answer (list str).
Variable qualifiers : list (str * list str).
Variable common_gene_noise stop_words : list str.

(** C10. [get_syns_in_parallel] raises [TypeError] when it constructs
    [ExtractOLSSynonyms] without [min_syn_len], for every term and list of
    IRIs and before anything is requested or logged (the events are those
    of before the call); the constructor calls of [final_gene_clean] and of
    the family-root cleaning in [get_gene_synonyms] raise it too. *)
Theorem constructor_calls_raise_TypeError :
  (forall (self : Query) (fuel : nat) (term : str) (iris : list str)
          (is_tissue : bool) (ev : list event),
      get_syns_in_parallel ols_node_syns qualifiers self fuel term iris is_tissue ev
      = (ev, Raise TypeError)) /\
  (forall (self : Query) (fuel : nat) (gene : str) (all_syns : list str)
          (ev : list event),
      final_gene_clean common_gene_noise stop_words self fuel gene all_syns ev
      = (ev, Raise TypeError)) /\
  (forall orig_gene : str, root_clean_new orig_gene = Raise TypeError).
Proof.
  split; [|split].
  - intros. unfold get_syns_in_parallel, mbind, lift.
    rewrite new_without_min_syn_len; reflexivity.
  - intros. unfold final_gene_clean, mbind, lift.
    rewrite new_without_min_syn_len; reflexivity.
  - intros. unfold root_clean_new. apply new_without_min_syn_len; reflexivity.
Qed.

End Constructor.

(** ** The settings segment *)

Definition is_others (V : Type) (kv : key * V) : bool := key_eqb (fst kv) Kothers.

Lemma key_eqb_eq (a b : key) : key_eqb a b = true <-> a = b.
Proof.
  destruct a, b; simpl; split; intros H; try reflexivity; try discriminate.
  - apply Nat.eqb_eq in H. now subst.
  - injection H as ->. apply Nat.eqb_refl.
Qed.

Lemma dict_set_keys (V : Type) (d : dict V) (k k' : key) (v : V) :
  In k' (dict_keys (dict_set d k v)) -> k' = k \/ In k' (dict_keys d).
Proof.
  induction d as [|[k0 v0] d IH]; simpl.
  - intros [H|[]]; auto.
  - destruct (key_eqb k k0) eqn:E; simpl.
    + intros [H|H]; auto.
    + intros [H|H]; auto. destruct (IH H); auto.
Qed.

Lemma dict_del_keeps (V : Type) (d d' : dict V) (k : key) :
  dict_del d k = Ret d' ->
  key_eqb k Kothers = false ->
  filter (@is_others V) d' = filter (@is_others V) d /\
  (forall Q : key * V -> Prop, Forall Q d -> Forall Q d').
Proof.
  revert d'; induction d as [|[k0 v0] d IH]; simpl; intros d' H Hk.
  - discriminate.
  - destruct (key_eqb k k0) eqn:E.
    + injection H as <-. apply key_eqb_eq in E. subst k0.
      unfold is_others at 2. simpl. rewrite Hk. split; [reflexivity|].
      intros Q HQ. now inversion HQ.
    + apply obind_ret in H as (r & Hr & H). injection H as <-.
      destruct (IH _ Hr Hk) as [IH1 IH2]. split.
      * simpl. rewrite IH1. reflexivity.
      * intros Q HQ. inversion HQ; subst. constructor; auto.
Qed.

Lemma identify_long_for_keeps (keys : list key) (len_list : list Z) :
  forall (len_dict len_dict' : dict entry) (long_strs long_strs' : dict str),
    identify_long_for keys len_list len_dict long_strs = Ret (len_dict', long_strs') ->
    filter (@is_others entry) len_dict' = filter (@is_others entry) len_dict /\
    (forall Q : key * entry -> Prop, Forall Q len_dict -> Forall Q len_dict') /\
    (~ In Kothers (dict_keys long_strs) -> ~ In Kothers (dict_keys long_strs')) /\
    (length long_strs <= length long_strs')%nat.
Proof.
  induction keys as [|k keys IH]; simpl; intros d d' l l' H.
  - injection H as <- <-. repeat split; auto.
  - destruct (key_eqb k Kothers) eqn:Hk; simpl in H; [now apply IH|].
    apply obind_ret in H as (e & He & H).
    apply obind_ret in H as (mx & Hmx & H).
    destruct (e_len e =? mx).
    + apply obind_ret in H as (d1 & Hd1 & H).
      destruct (dict_del_keeps _ _ Hd1 Hk) as [D1 D2].
      destruct (IH _ _ _ _ H) as (I1 & I2 & I3 & I4).
      split; [congruence|]. split; [auto|]. split.
      * intros Hl. apply I3. intros Hin. apply dict_set_keys in Hin as [Hin|Hin]; auto.
        subst k. discriminate.
      * etransitivity; [|exact I4]. clear.
        induction l as [|[k0 v0] l IHl]; simpl; [lia|].
        destruct (key_eqb k k0); simpl; lia.
    + now apply IH.
Qed.

Lemma identify_long_while_keeps (fuel : nat) (max_length : Z) :
  forall (len_list : list Z) (len_dict len_dict' : dict entry)
         (long_strs long_strs' : dict str),
    identify_long_while fuel max_length len_list len_dict long_strs
    = Ret (len_dict', long_strs') ->
    filter (@is_others entry) len_dict' = filter (@is_others entry) len_dict /\
    (forall Q : key * entry -> Prop, Forall Q len_dict -> Forall Q len_dict') /\
    (~ In Kothers (dict_keys long_strs) -> ~ In Kothers (dict_keys long_strs')).
Proof.
  induction fuel as [|fuel IH]; simpl; intros ll d d' l l' H.
  - destruct (sum ll >? max_length - 500); [discriminate|].
    injection H as <- <-. auto.
  - destruct (sum ll >? max_length - 500).
    + apply obind_ret in H as ([d1 l1] & H1 & H).
      destruct (identify_long_for_keeps _ _ _ _ H1) as (A1 & A2 & A3 & _).
      destruct (IH _ _ _ _ _ H) as (B1 & B2 & B3).
      split; [congruence|]. split; auto.
    + injection H as <- <-. auto.
Qed.


Section Settings.
Context {rt : PyRuntime}.
Variable ols_search : str -> answer (list str).
Variable ols_node_syns : str -> bool -> answer (list str).
Variable qualifiers : list (str * list str).


End Settings.



(** ** Redundant preprints *)



Definition article (id prep : str) : doc :=
  mkDoc id (lit "A title") (lit "2020") (lit "Doe J") (lit "research-article")
        (lit "An abstract") [] (lit "https://europepmc.org/abstract/MED/" ++ id) prep.



(** ** The documents of the root queries *)

Definition listed_title : str := lit "ABC1, 2 and 3".

(** A service that answers the query [primary] with document 1 and any other
    query with document 2, whose title names ABC2 in a list. *)
Definition family_service (query : str) (cursor : option str) : answer page :=
  if str_eqb query (lit "primary") then
    inr (mkPage 1 query None
           [mkResultTag (lit "1") (lit "MED") (Some (lit "ABC2 in mice")) None None None
                        None [] []])
  else
    inr (mkPage 1 query None
           [mkResultTag (lit "2") (lit "MED") (Some listed_title) None None None
                        None [] []]).

Definition family_queries : queries_dict :=
  mkQueries (lit "key") (lit "ABC2") (lit "asthma") [lit "primary"]
            [(lit "ABC", [lit "2"])] [lit "root 1"; lit "root 2"] [].

Lemma put_by_id_ids (d : doc) (l : list doc) :
  map ID (put_by_id d l)
  = if existsb (str_eqb (ID d)) (map ID l) then map ID l else map ID l ++ [ID d].
Proof.
  induction l as [|x l IH]; simpl; [reflexivity|].
  destruct (str_eqb (ID x) (ID d)) eqn:E.
  - apply str_eqb_eq in E. rewrite E, str_eqb_refl. reflexivity.
  - assert (E' : str_eqb (ID d) (ID x) = false).
    { apply str_eqb_neq. apply str_eqb_neq in E. congruence. }
    rewrite E'. simpl. rewrite IH. now destruct (existsb _ _).
Qed.

(** The records of the primary queries, and those of one page of a root
    query, are made unique by identifier. *)
Lemma unique_by_id_nodup (doc_info_list : list doc) :
  NoDup (map ID (unique_by_id doc_info_list)).
Proof.
  unfold unique_by_id.
  assert (H : forall acc, NoDup (map ID acc) ->
                          NoDup (map ID (fold_left (fun acc d => put_by_id d acc)
                                                   doc_info_list acc))).
  { induction doc_info_list as [|d l IH]; intros acc Hacc; simpl; [assumption|].
    apply IH. rewrite put_by_id_ids.
    destruct (existsb _ _) eqn:E; [assumption|].
    apply NoDup_app; [assumption | repeat constructor; intros [] |].
    intros x Hx [<-|[]]. apply existsb_str_eqb in Hx. congruence. }
  apply H. constructor.
Qed.

(** C3 fails on the code: when two root queries both return a document, it
    is in the final list twice. *)
Theorem root_results_not_deduplicated :
  exists ev r,
    run_queries_and_get_results family_service 10 family_queries [] = (ev, Ret r) /\
    map ID (true_result_doc_info r) = [lit "1"; lit "2"; lit "2"].
Proof. eexists. eexists. split; vm_compute; reflexivity. Qed.

(** ** The indirect-list matcher *)

(** C9 fails on the code: with a line break in the title before the list,
    the matcher answers [False]; without it, it answers [True]. *)
Theorem list_after_line_break_not_matched :
  analyse_text_for_gene_in_list (lit "An abstract")
    (lit "Transporters" ++ [10%N] ++ listed_title) [(lit "ABC", [lit "2"])] (lit "1")
  = Ret false /\
  analyse_text_for_gene_in_list (lit "An abstract")
    (lit "Transporters " ++ listed_title) [(lit "ABC", [lit "2"])] (lit "1")
  = Ret true.
Proof. split; vm_compute; reflexivity. Qed.

(** ** Redundant synonyms *)

Definition heart_valve : str := lit "heart" ++ [9%N] ++ lit "valve".

(** C6 fails on the code: of two synonyms with a tab between their words,
    one a whole-word substring of the other, both are kept. *)
Theorem redundant_pair_kept :
  remove_redundant_syns [heart_valve; heart_valve ++ lit " disease"]
  = [heart_valve; heart_valve ++ lit " disease"] /\
  word_search heart_valve (heart_valve ++ lit " disease") = true /\
  heart_valve <> heart_valve ++ lit " disease".
Proof. split; [|split]; [vm_compute; reflexivity | vm_compute; reflexivity | discriminate]. Qed.

(** ** The cleaning pipeline *)

(** The object [ExtractOLSSynonyms(term, logger, 3)] *)
Definition cleaner (term : str) : ExtractOLSSynonyms :=
  mkExtract term 3 0 [] (map fst greek_dict ++ flat_map snd greek_dict).

Lemma cleaner_new (term : str) :
  ExtractOLSSynonyms_new (mkCall [VStr term; VLogger; VInt 3] []) = Ret (cleaner term).
Proof. reflexivity. Qed.

(** C7 as stated fails: the term [lung cancer] is not in the cleaned list
    when [cancer] is among the candidates. *)
Lemma original_term_removed :
  clean_syn_list (cleaner (lit "lung cancer")) 100
                 (Some [lit "lung cancer"; lit "cancer"]) (lit "other")
  = Ret (cleaner (lit "lung cancer"), Some [lit "cancer"]).
Proof. vm_compute. reflexivity. Qed.


(** C5 as stated fails: the list cleaned once holds [a.b], the list cleaned
    twice does not. *)
Lemma clean_syn_list_not_idempotent :
  clean_syn_list (cleaner (lit "zzz")) 100 (Some [lit "zzz"; lit "a.b [1]"]) (lit "other")
  = Ret (cleaner (lit "zzz"), Some [lit "zzz"; lit "a.b"]) /\
  clean_syn_list (cleaner (lit "zzz")) 100 (Some [lit "zzz"; lit "a.b"]) (lit "other")
  = Ret (cleaner (lit "zzz"), Some [lit "zzz"]).
Proof. split; vm_compute; reflexivity. Qed.

(** ** The chunk builder on a synonym that is too long *)

Lemma chunk_while_stuck (fuel : nat) (k : key) (chunk_size : Z) (syn e : str)
  (rest qss : list str) (fin : bool) (ev : list event) :
  quote_plus syn = Ret e ->
  chunk_size < Z.of_nat (length e) * 3 + 62 ->
  chunk_while fuel k chunk_size (mkChunking (syn :: rest) [] qss 0 fin) ev
  = (ev ++ repeat (too_long_warning k syn) fuel, Timeout).
Proof.
  intros He Hlen. revert ev. induction fuel as [|fuel IH]; intros ev.
  - simpl. unfold mtimeout. now rewrite app_nil_r.
  - cbn [chunk_while c_syns c_querystring c_i c_finished c_querystrings].
    unfold mbind at 1. unfold lift at 1. unfold next_len.
    cbn [quote_plus obind getitem nth_error length]. rewrite He.
    cbn [obind Z.of_nat Z.add Nat.eqb andb].
    destruct (Z.gtb_spec (Z.of_nat (length e) * 3 + 62) chunk_size) as [_|Hle]; [|lia].
    unfold mbind, lift, emit. cbn [getitem nth_error].
    rewrite IH. rewrite <- app_assoc. reflexivity.
Qed.

Lemma identify_long_while_done (fuel : nat) (max_length : Z) (len_list : list Z)
  (len_dict : dict entry) (long_strs : dict str) :
  (sum len_list >? max_length - 500) = false ->
  identify_long_while fuel max_length len_list len_dict long_strs
  = Ret (len_dict, long_strs).
Proof. intros H. destruct fuel; simpl; rewrite H; reflexivity. Qed.

Lemma identify_long_while_step (fuel : nat) (max_length : Z) (len_list : list Z)
  (len_dict len_dict' : dict entry) (long_strs long_strs' : dict str) :
  (sum len_list >? max_length - 500) = true ->
  identify_long_for (dict_keys len_dict) len_list len_dict long_strs
  = Ret (len_dict', long_strs') ->
  identify_long_while (S fuel) max_length len_list len_dict long_strs
  = identify_long_while fuel max_length (create_query_length_list len_dict')
                        len_dict' long_strs'.
Proof. intros H1 H2. simpl. rewrite H1, H2. reflexivity. Qed.

(** A gene with a synonym of 2500 letters and a second, short synonym. *)
Definition long_syn : str := repeat (ch "A") 2500.
Definition long_gene_syns : list str := [long_syn; lit "B"].
Definition long_gene_query : Query :=
  mkQuery ArgNone ArgNone None None false 1 [] [] [] [] long_gene_syns [].
Definition long_gene_string : str :=
  add_abstract_title_and_join_synonyms long_gene_syns true false.

Lemma long_gene_len_dict :
  make_len_dict [] [] [] long_gene_string [] =
  Ret [(Kdiseases, mkEntry [] 0); (Ktissues, mkEntry [] 0); (Kothers, mkEntry [] 0);
       (Kgenes, mkEntry long_gene_string 7625)].
Proof. vm_compute. reflexivity. Qed.

Lemma long_gene_identify (fuel : nat) :
  identify_long_queries (S fuel)
    [(Kdiseases, mkEntry [] 0); (Ktissues, mkEntry [] 0); (Kothers, mkEntry [] 0);
     (Kgenes, mkEntry long_gene_string 7625)] 7500
  = Ret ([(Kdiseases, mkEntry [] 0); (Ktissues, mkEntry [] 0); (Kothers, mkEntry [] 0)],
         [(Kgenes, long_gene_string)]).
Proof.
  unfold identify_long_queries.
  erewrite identify_long_while_step; [| reflexivity | reflexivity].
  apply identify_long_while_done. reflexivity.
Qed.

(** C2 fails on the code: with a synonym whose encoded length alone is over
    the chunk budget, the chunk builder logs the warning at every round and
    does not drop the synonym, so that [create_epmc_queries] never returns. *)
Theorem too_long_synonym_never_dropped (fuel : nat) :
  create_epmc_queries long_gene_query fuel [] [] [] long_gene_string [] []
  = (repeat (too_long_warning Kgenes long_syn) fuel, Timeout).
Proof.
  destruct fuel as [|fuel]; [vm_compute; reflexivity|].
  unfold create_epmc_queries.
  unfold mbind at 1. unfold lift at 1. rewrite long_gene_len_dict.
  unfold mbind at 1. unfold lift at 1.
  cbn [dict_get key_eqb obind e_len].
  change (sum (create_query_length_list _) + 20 >? 7500 - 0) with true.
  cbv beta iota.
  unfold mbind at 1. unfold split_long_queries.
  unfold mbind at 1. unfold lift at 1. rewrite long_gene_identify.
  unfold mbind at 1. unfold lift at 1.
  change (_ / _ - 100) with 7370.
  unfold mbind at 1. cbn [mapM fst].
  unfold mbind at 1. unfold mbind at 1.
  cbn [syns_of_key gene_syns long_gene_query]. unfold mret at 1.
  unfold long_gene_syns at 1.
  rewrite (@chunk_while_stuck (S fuel) Kgenes 7370 long_syn long_syn [lit "B"] [] false);
    [reflexivity | vm_compute; reflexivity | vm_compute; reflexivity].
Qed.

(** ** Redundancy elimination on lists of normalised synonyms *)

Definition count (x : str) (l : list str) : nat := length (filter (str_eqb x) l).

Lemma count_zero (x : str) (l : list str) : count x l = 0%nat <-> ~ In x l.
Proof.
  unfold count. induction l as [|y l IH]; simpl; [tauto|].
  destruct (str_eqb x y) eqn:E; simpl.
  - apply str_eqb_eq in E. subst. split; [discriminate | tauto].
  - apply str_eqb_neq in E. rewrite IH. split.
    + intros H [->|H']; tauto.
    + tauto.
Qed.

Lemma count_app (x : str) (l1 l2 : list str) :
  count x (l1 ++ l2) = (count x l1 + count x l2)%nat.
Proof. unfold count. rewrite filter_app, length_app. reflexivity. Qed.

Lemma count_filter (x : str) (p : str -> bool) (l : list str) :
  count x (filter p l) = if p x then count x l else 0%nat.
Proof.
  unfold count. induction l as [|y l IH]; simpl.
  - now destruct (p x).
  - destruct (p y) eqn:Py; simpl; destruct (str_eqb x y) eqn:E; simpl;
      try (apply str_eqb_eq in E; subst y; rewrite Py in *); rewrite IH;
      destruct (p x); try reflexivity; discriminate.
Qed.

Lemma count_list_remove (x r : str) (l : list str) :
  count x (list_remove r l) = if str_eqb x r then pred (count x l) else count x l.
Proof.
  induction l as [|y l IH]; simpl.
  - now destruct (str_eqb x r).
  - destruct (str_eqb r y) eqn:Ery.
    + apply str_eqb_eq in Ery. subst y. unfold count. simpl.
      destruct (str_eqb x r); reflexivity.
    + unfold count in *. simpl. destruct (str_eqb x y) eqn:Exy; simpl; rewrite IH.
      * destruct (str_eqb x r) eqn:Exr; [|reflexivity].
        apply str_eqb_eq in Exy, Exr. subst. rewrite str_eqb_refl in Ery. discriminate.
      * reflexivity.
Qed.

Definition remove_all (redundant syns : list str) : list str :=
  fold_left (fun syns redundant_syn =>
               if str_in redundant_syn syns then list_remove redundant_syn syns else syns)
            redundant syns.

Lemma list_remove_absent (r : str) (l : list str) :
  str_in r l = false -> list_remove r l = l.
Proof.
  unfold str_in. induction l as [|y l IH]; simpl; [reflexivity|].
  destruct (str_eqb r y); simpl; [discriminate|]. intros H. now rewrite IH.
Qed.

Lemma count_remove_all (x : str) (redundant syns : list str) :
  count x (remove_all redundant syns) = (count x syns - count x redundant)%nat.
Proof.
  unfold remove_all. revert syns. induction redundant as [|r red IH]; intros syns; simpl.
  - change (count x []) with 0%nat. lia.
  - rewrite IH.
    assert (E : count x (if str_in r syns then list_remove r syns else syns)
                = count x (list_remove r syns)).
    { destruct (str_in r syns) eqn:Hin; [reflexivity|].
      now rewrite list_remove_absent. }
    rewrite E, count_list_remove.
    assert (C : count x (r :: red)
                = ((if str_eqb x r then 1 else 0) + count x red)%nat).
    { unfold count. simpl. destruct (str_eqb x r); reflexivity. }
    rewrite C. destruct (str_eqb x r); lia.
Qed.

Lemma filter_none (A : Type) (p : A -> bool) (l : list A) :
  (forall x, In x l -> p x = false) -> filter p l = [].
Proof.
  induction l as [|y l IH]; intros H; simpl; [reflexivity|].
  rewrite (H y (or_introl eq_refl)). apply IH. intros x Hx. apply H. now right.
Qed.

Section Redundancy.
Context {rt : PyRuntime}.

(** A synonym is normalised when it is the single-space join of its words. *)
Definition normalised (s : str) : Prop := join (lit " ") (split s) = s.

Definition mark (syns redundant : list str) (term : str) : list str :=
  if negb (str_in term redundant) then redundant ++ marked_by term syns else redundant.

Definition terms_of (syns : list str) : list str :=
  map (join (lit " ")) (sort_by_len (map split syns)).

Lemma remove_redundant_syns_unfold (syns : list str) :
  remove_redundant_syns syns
  = remove_all (fold_left (mark syns) (terms_of syns) []) syns.
Proof. reflexivity. Qed.

Lemma insert_by_len_in (x y : list str) (l : list (list str)) :
  In y (insert_by_len x l) <-> y = x \/ In y l.
Proof.
  induction l as [|z l IH]; simpl; [intuition|].
  destruct (length x <=? length z)%nat; simpl; [intuition|].
  rewrite IH. intuition.
Qed.

Lemma sort_by_len_in (y : list str) (l : list (list str)) :
  In y (sort_by_len l) <-> In y l.
Proof.
  induction l as [|x l IH]; simpl; [tauto|].
  rewrite insert_by_len_in, IH. intuition.
Qed.

Lemma terms_of_in (syns : list str) (t : str) :
  In t (terms_of syns) <-> exists s, In s syns /\ t = join (lit " ") (split s).
Proof.
  unfold terms_of. rewrite in_map_iff. split.
  - intros (w & <- & Hw). apply sort_by_len_in, in_map_iff in Hw as (s & <- & Hs).
    eauto.
  - intros (s & Hs & ->). exists (split s). split; [reflexivity|].
    apply sort_by_len_in, in_map_iff. eauto.
Qed.

(** What the marking loop guarantees: whatever is marked is marked as often
    as it occurs, and every term is either marked itself or has marked all
    the synonyms it is found in. *)
Lemma mark_fold (syns : list str) (terms : list str) :
  forall red,
    (forall x, In x red -> (count x syns <= count x red)%nat) ->
    let red' := fold_left (mark syns) terms red in
    (forall x, In x red -> In x red') /\
    (forall x, In x red' -> (count x syns <= count x red')%nat) /\
    (forall t, In t terms ->
               In t red' \/ forall x, In x (marked_by t syns) -> In x red').
Proof.
  induction terms as [|t terms IH]; intros red Hred; simpl.
  - repeat split; auto. intros t [].
  - assert (Hstep : forall x, In x (mark syns red t) ->
                              (count x syns <= count x (mark syns red t))%nat).
    { unfold mark. destruct (str_in t red); simpl; [exact Hred|].
      intros x Hx. rewrite count_app. apply in_app_or in Hx as [Hx|Hx].
      - specialize (Hred x Hx). lia.
      - unfold marked_by in *. rewrite count_filter.
        apply filter_In in Hx as [_ Hp]. rewrite Hp. lia. }
    destruct (IH _ Hstep) as (I1 & I2 & I3).
    assert (Hsub : forall x, In x red -> In x (mark syns red t)).
    { unfold mark. destruct (str_in t red); simpl; auto.
      intros x Hx. apply in_or_app. auto. }
    repeat split; auto.
    intros t' [<-|Ht']; [|auto].
    destruct (str_in t red) eqn:E.
    + left. apply I1, Hsub. now apply existsb_str_eqb.
    + right. intros x Hx. apply I1. unfold mark. rewrite E. simpl.
      apply in_or_app. auto.
Qed.

Lemma remove_all_subset (redundant syns : list str) (x : str) :
  In x (remove_all redundant syns) -> In x syns.
Proof.
  intros H. destruct (count x syns) eqn:E.
  - exfalso. revert H. apply count_zero. rewrite count_remove_all, E. reflexivity.
  - apply Decidable.not_not.
    + destruct (in_dec (list_eq_dec N.eq_dec) x syns); [left | right]; assumption.
    + intros Hn. apply count_zero in Hn. congruence.
Qed.

(** On normalised synonyms no redundant pair is left. *)
Lemma remove_redundant_syns_no_pair (syns : list str) :
  Forall normalised syns ->
  forall a b,
    In a (remove_redundant_syns syns) -> In b (remove_redundant_syns syns) ->
    a <> b -> word_search a b = false.
Proof.
  intros Hn a b Ha Hb Hab. rewrite remove_redundant_syns_unfold in *.
  set (red := fold_left (mark syns) (terms_of syns) []) in *.
  destruct (@mark_fold syns (terms_of syns) [] (fun x (H : In x []) => match H with end))
    as (_ & M2 & M3). fold red in M2, M3.
  assert (Hout : forall x, In x (remove_all red syns) -> ~ In x red).
  { intros x Hx Hr. revert Hx. apply count_zero.
    rewrite count_remove_all. specialize (M2 x Hr). lia. }
  assert (Hat : In a (terms_of syns)).
  { apply terms_of_in. exists a. split; [eapply remove_all_subset; eassumption|].
    symmetry. eapply Forall_forall in Hn; [exact Hn|].
    eapply remove_all_subset; eassumption. }
  destruct (M3 a Hat) as [Hr|Hm].
  - exfalso. exact (Hout a Ha Hr).
  - destruct (word_search a b) eqn:E; [|reflexivity].
    exfalso. apply (Hout b Hb). apply Hm. unfold marked_by.
    apply filter_In. split; [eapply remove_all_subset; eassumption|].
    rewrite E. assert (Hne : str_eqb b a = false) by (apply str_eqb_neq; congruence).
    rewrite Hne. reflexivity.
Qed.

Lemma mark_fold_nothing (syns terms : list str) :
  (forall t, In t terms -> marked_by t syns = []) ->
  fold_left (mark syns) terms [] = [].
Proof.
  induction terms as [|t terms IH]; intros H; simpl; [reflexivity|].
  unfold mark at 2. simpl. rewrite (H t (or_introl eq_refl)). simpl.
  apply IH. intros t' Ht'. apply H. now right.
Qed.

(** C5, as amended. On a list of normalised synonyms the redundancy
    elimination that ends [clean_syn_list] is idempotent: no member of its
    result is found as a whole word in another one, and applied to its own
    result it returns it unchanged. *)
Theorem remove_redundant_syns_idempotent (syns : list str) :
  Forall normalised syns ->
  (forall a b,
      In a (remove_redundant_syns syns) -> In b (remove_redundant_syns syns) ->
      a <> b -> word_search a b = false) /\
  remove_redundant_syns (remove_redundant_syns syns) = remove_redundant_syns syns.
Proof.
  intros Hn. split; [now apply remove_redundant_syns_no_pair|].
  set (R := remove_redundant_syns syns).
  assert (HR : forall x, In x R -> In x syns).
  { intros x Hx. unfold R in Hx. rewrite remove_redundant_syns_unfold in Hx.
    eapply remove_all_subset; eassumption. }
  rewrite (remove_redundant_syns_unfold R).
  rewrite mark_fold_nothing; [reflexivity|].
  intros t Ht. apply terms_of_in in Ht as (s & Hs & ->).
  assert (Hs' : join (lit " ") (split s) = s).
  { eapply Forall_forall in Hn; [exact Hn | auto]. }
  rewrite Hs'. unfold marked_by. apply filter_none. intros x Hx.
  destruct (str_eqb x s) eqn:E; [reflexivity|]. simpl.
  apply (remove_redundant_syns_no_pair Hn); auto.
  apply str_eqb_neq in E. congruence.
Qed.

End Redundancy.

Lemma remove_redundant_syns_idempotent_witness :
  Forall normalised [lit "lung cancer"; lit "cancer"; lit "cancer cell"] /\
  remove_redundant_syns
    (remove_redundant_syns [lit "lung cancer"; lit "cancer"; lit "cancer cell"])
  = remove_redundant_syns [lit "lung cancer"; lit "cancer"; lit "cancer cell"].
Proof.
  assert (H : Forall normalised [lit "lung cancer"; lit "cancer"; lit "cancer cell"])
    by (repeat constructor).
  split; [exact H|].
  exact (proj2 (remove_redundant_syns_idempotent H)).
Defined.

(** ** The original term *)

Section OriginalTerm.
Context {rt : PyRuntime}.

Lemma mark_fold_origin (syns terms : list str) :
  forall red x,
    In x (fold_left (mark syns) terms red) ->
    In x red \/ exists t, In t terms /\ In x (marked_by t syns).
Proof.
  induction terms as [|t terms IH]; intros red x H; simpl in H; [auto|].
  apply IH in H as [H|(t' & Ht' & H)].
  - unfold mark in H. destruct (negb (str_in t red)); [|auto].
    apply in_app_or in H as [H|H]; [auto|]. right. exists t. simpl. auto.
  - right. exists t'. simpl. auto.
Qed.

Lemma remove_redundant_syns_keeps (syns : list str) (x : str) :
  In x syns ->
  (forall t, In t (terms_of syns) -> ~ In x (marked_by t syns)) ->
  In x (remove_redundant_syns syns).
Proof.
  intros Hx Hm. rewrite remove_redundant_syns_unfold.
  set (red := fold_left (mark syns) (terms_of syns) []).
  assert (Hred : ~ In x red).
  { intros H. apply mark_fold_origin in H as [[]|(t & Ht & H)]. exact (Hm t Ht H). }
  apply Decidable.not_not.
  - destruct (in_dec (list_eq_dec N.eq_dec) x (remove_all red syns)); [left | right];
      assumption.
  - intros Hn. apply count_zero in Hn, Hred. rewrite count_remove_all, Hred in Hn.
    assert (count x syns = 0%nat) by lia. apply count_zero in H. contradiction.
Qed.

(** C7, as amended. The list [remove_noise_and_punctuation] returns starts
    with the original term, and the redundancy elimination keeps a member of
    its list unless one of the terms it compares (the members, joined on
    single spaces) other than that member is found in it. *)
Theorem original_term_after_first_stages :
  (forall (self : ExtractOLSSynonyms) (syn_list : list str) (syn_type : str),
      exists rest,
        remove_noise_and_punctuation self syn_list syn_type = original_term self :: rest) /\
  (forall (syns : list str) (term : str),
      In term syns ->
      (forall s, In s syns ->
                 join (lit " ") (split s) = term \/
                 word_search (join (lit " ") (split s)) term = false) ->
      In term (remove_redundant_syns syns)).
Proof.
  split.
  - intros. unfold remove_noise_and_punctuation. eexists. reflexivity.
  - intros syns term Hin Hs. apply remove_redundant_syns_keeps; [assumption|].
    intros t Ht Hm. apply terms_of_in in Ht as (s & Hs' & ->).
    unfold marked_by in Hm. apply filter_In in Hm as [_ Hm].
    apply andb_true_iff in Hm as [Hne Hw].
    destruct (Hs s Hs') as [E|E].
    + rewrite E, str_eqb_refl in Hne. discriminate.
    + congruence.
Qed.

End OriginalTerm.

Lemma original_term_after_first_stages_witness :
  In (lit "lung cancer")
     (remove_redundant_syns [lit "lung cancer"; lit "lung tumour"; lit "tumour of lung"]).
Proof.
  refine (proj2 original_term_after_first_stages
            [lit "lung cancer"; lit "lung tumour"; lit "tumour of lung"]
            (lit "lung cancer") (or_introl eq_refl) _).
  intros s [<-|[<-|[<-|[]]]]; [left | right | right]; vm_compute; reflexivity.
Defined.


(** ** The length of encoded text *)

Definition char_qlen (c : N) : Z :=
  match utf8_encode_char c with
  | Some bs => Z.of_nat (length (flat_map quote_byte bs))
  | None => 0
  end.

(** The length of [quote_plus s], when [s] can be encoded. *)
Definition qlen (s : str) : Z := fold_right (fun c n => char_qlen c + n) 0 s.

Definition encodableb (s : str) : bool :=
  forallb (fun c => matched (utf8_encode_char c)) s.

Lemma qlen_nonneg (s : str) : 0 <= qlen s.
Proof.
  induction s as [|c s IH]; simpl; [lia|].
  unfold char_qlen. destruct (utf8_encode_char c); lia.
Qed.

Lemma qlen_app (a b : str) : qlen (a ++ b) = qlen a + qlen b.
Proof. induction a as [|c a IH]; simpl; [reflexivity | rewrite IH; lia]. Qed.

Lemma encodableb_app (a b : str) :
  encodableb (a ++ b) = encodableb a && encodableb b.
Proof. unfold encodableb. apply forallb_app. Qed.

Lemma quote_plus_ret (s e : str) :
  quote_plus s = Ret e -> encodableb s = true /\ Z.of_nat (length e) = qlen s.
Proof.
  revert e; induction s as [|c s IH]; simpl; intros e H.
  - injection H as <-. auto.
  - unfold char_qlen. destruct (utf8_encode_char c) as [bs|]; [|discriminate].
    apply obind_ret in H as (r & Hr & H). injection H as <-.
    destruct (IH _ Hr) as [IH1 IH2]. simpl. split; [assumption|].
    rewrite length_app. lia.
Qed.

Lemma quote_plus_encodable (s : str) :
  encodableb s = true -> exists e, quote_plus s = Ret e.
Proof.
  induction s as [|c s IH]; simpl; intros H; [eauto|].
  apply andb_true_iff in H as [H1 H2].
  destruct (utf8_encode_char c); [|discriminate].
  destruct (IH H2) as [e He]. rewrite He. simpl. eauto.
Qed.

(** The value of [estimate_query_string_length] *)
Definition est_val (s : str) : Z :=
  match s with
  | [] => 0
  | _ => qlen s + 12
  end.

Lemma est_val_bounds (s : str) : 0 <= est_val s <= qlen s + 12.
Proof. pose proof (qlen_nonneg s). destruct s; simpl in *; lia. Qed.

Lemma est_val_nonempty (s : str) : s <> [] -> est_val s = qlen s + 12.
Proof. destruct s; [congruence | reflexivity]. Qed.

Lemma estimate_ret (s : str) (n : Z) :
  estimate_query_string_length s = Ret n -> encodableb s = true /\ n = est_val s.
Proof.
  unfold estimate_query_string_length. destruct s as [|c s].
  - intros H. injection H as <-. auto.
  - intros H. apply obind_ret in H as (e & He & H). injection H as <-.
    apply quote_plus_ret in He as [H1 H2]. split; [assumption|].
    unfold est_val. lia.
Qed.

Lemma estimate_encodable (s : str) :
  encodableb s = true -> estimate_query_string_length s = Ret (est_val s).
Proof.
  intros H. unfold estimate_query_string_length. destruct s as [|c s]; [reflexivity|].
  destruct (quote_plus_encodable _ H) as [e He]. rewrite He. simpl.
  apply quote_plus_ret in He as [_ He]. unfold est_val. now rewrite He.
Qed.

(** Sums *)
Definition zsum (A : Type) (f : A -> Z) (l : list A) : Z :=
  fold_right (fun x n => f x + n) 0 l.

Lemma zsum_app (A : Type) (f : A -> Z) (l1 l2 : list A) :
  zsum f (l1 ++ l2) = zsum f l1 + zsum f l2.
Proof. induction l1 as [|x l1 IH]; simpl; [reflexivity | rewrite IH; lia]. Qed.

Lemma zsum_le (A : Type) (f : A -> Z) (b : Z) (l : list A) :
  Forall (fun x => f x <= b) l -> zsum f l <= Z.of_nat (length l) * b.
Proof.
  induction 1 as [|x l Hx Hl IH]; simpl zsum; [simpl; lia|].
  change (length (x :: l)) with (S (length l)). lia.
Qed.

Lemma zsum_nonneg (A : Type) (f : A -> Z) (l : list A) :
  Forall (fun x => 0 <= f x) l -> 0 <= zsum f l.
Proof. induction 1; simpl; lia. Qed.

Lemma zsum_filter_le (A : Type) (f : A -> Z) (p : A -> bool) (l : list A) :
  Forall (fun x => 0 <= f x) l -> zsum f (filter p l) <= zsum f l.
Proof.
  induction 1 as [|x l Hx Hl IH]; simpl; [lia|].
  destruct (p x); simpl; lia.
Qed.

Lemma zsum_ext_le (A : Type) (f g : A -> Z) (l : list A) :
  Forall (fun x => f x <= g x) l -> zsum f l <= zsum g l.
Proof. induction 1; simpl; lia. Qed.

Lemma sum_acc (l : list Z) (a : Z) : fold_left Z.add l a = a + zsum (fun x => x) l.
Proof.
  revert a; induction l as [|x l IH]; intros a; simpl; [lia|].
  rewrite IH. lia.
Qed.

Lemma sum_zsum (l : list Z) : sum l = zsum (fun x => x) l.
Proof. unfold sum. rewrite sum_acc. lia. Qed.

Lemma zsum_map (A B : Type) (g : A -> B) (f : B -> Z) (l : list A) :
  zsum f (map g l) = zsum (fun x => f (g x)) l.
Proof. induction l as [|x l IH]; simpl; [reflexivity | now rewrite IH]. Qed.

(** [join] *)
Lemma join_cons (sep x y : str) (l : list str) :
  join sep (x :: y :: l) = x ++ sep ++ join sep (y :: l).
Proof. reflexivity. Qed.

Lemma qlen_join (sep : str) (l : list str) :
  l <> [] -> qlen (join sep l) + qlen sep = zsum (fun x => qlen x + qlen sep) l.
Proof.
  induction l as [|x l IH]; [congruence|]. intros _.
  destruct l as [|y l].
  - simpl. lia.
  - rewrite join_cons, !qlen_app. simpl zsum in *.
    specialize (IH ltac:(discriminate)). lia.
Qed.

Lemma qlen_join_le (sep : str) (l : list str) :
  qlen (join sep l) <= zsum (fun x => qlen x + qlen sep) l.
Proof.
  destruct l as [|x l]; [simpl; lia|].
  pose proof (@qlen_join sep (x :: l) ltac:(discriminate)).
  pose proof (qlen_nonneg sep). lia.
Qed.

Lemma encodableb_join (sep : str) (l : list str) :
  encodableb sep = true -> Forall (fun x => encodableb x = true) l ->
  encodableb (join sep l) = true.
Proof.
  intros Hs. induction 1 as [|x l Hx Hl IH]; [reflexivity|].
  destruct l as [|y l]; [exact Hx|].
  rewrite join_cons, !encodableb_app, Hx, Hs, IH. reflexivity.
Qed.

Lemma join_snoc (sep x : str) (l : list str) :
  l <> [] -> join sep (l ++ [x]) = join sep l ++ sep ++ x.
Proof.
  induction l as [|y l IH]; [congruence|]. intros _.
  destruct l as [|z l]; [reflexivity|].
  change ((y :: z :: l) ++ [x]) with (y :: (z :: l) ++ [x]).
  change ((z :: l) ++ [x]) with (z :: (l ++ [x])) at 1.
  rewrite join_cons. change (z :: l ++ [x]) with ((z :: l) ++ [x]).
  rewrite IH by discriminate. rewrite join_cons. now rewrite <- !app_assoc.
Qed.

(** Stripping only removes characters. *)
Lemma dropwhile_suffix (p : N -> bool) (s : str) :
  exists a, s = a ++ dropwhile p s.
Proof.
  induction s as [|c s [a Ha]]; simpl.
  - exists []. reflexivity.
  - destruct (p c).
    + exists (c :: a). simpl. now f_equal.
    + exists []. reflexivity.
Qed.

Lemma strip_with_infix (p : N -> bool) (s : str) :
  exists a b, s = a ++ strip_with p s ++ b.
Proof.
  unfold strip_with, rstrip_with, lstrip_with.
  destruct (dropwhile_suffix p s) as [a Ha].
  destruct (dropwhile_suffix p (rev (dropwhile p s))) as [b Hb].
  exists a, (rev b). rewrite Ha at 1. f_equal.
  rewrite <- (rev_involutive (dropwhile p s)) at 1. rewrite Hb at 1.
  now rewrite rev_app_distr.
Qed.

Lemma qlen_strip_le (p : N -> bool) (s : str) : qlen (strip_with p s) <= qlen s.
Proof.
  destruct (strip_with_infix p s) as (a & b & H). rewrite H at 2.
  rewrite !qlen_app. pose proof (qlen_nonneg a). pose proof (qlen_nonneg b). lia.
Qed.

Lemma encodableb_strip (p : N -> bool) (s : str) :
  encodableb s = true -> encodableb (strip_with p s) = true.
Proof.
  destruct (strip_with_infix p s) as (a & b & H). intros He. rewrite H in He.
  rewrite !encodableb_app in He. apply andb_true_iff in He as [_ He].
  now apply andb_true_iff in He as [He _].
Qed.


(** ** The chunks *)

Definition aj (l : list str) : str := add_abstract_title_and_join_synonyms l true false.

Lemma aj_unfold (l : list str) :
  aj l = lit "(" ++ join (lit " OR ") (map (field_query true) l) ++ lit ")".
Proof. reflexivity. Qed.

Lemma field_query_len (syn : str) : qlen (field_query true syn) <= 50 + 3 * qlen syn.
Proof.
  unfold field_query. pose proof (qlen_nonneg syn).
  destruct (startswith syn (lit "(TITLE:")).
  - pose proof (qlen_strip_le (fun c => mem_chr c (lit "()")) syn).
    unfold strip_chars. lia.
  - rewrite !qlen_app.
    change (qlen (lit "TITLE:")) with 8. change (qlen dq) with 3.
    change (qlen (lit " OR KW:")) with 9. change (qlen (lit " OR ABSTRACT:")) with 15.
    lia.
Qed.

Lemma qlen_aj_one (s : str) : qlen (aj [s]) = 6 + qlen (field_query true s).
Proof.
  rewrite aj_unfold. simpl map. simpl join. rewrite !qlen_app.
  change (qlen (lit "(")) with 3. change (qlen (lit ")")) with 3. lia.
Qed.

Lemma qlen_aj_snoc (l : list str) (s : str) :
  l <> [] -> qlen (aj (l ++ [s])) = qlen (aj l) + 4 + qlen (field_query true s).
Proof.
  intros Hl. rewrite !aj_unfold, map_app. simpl map.
  rewrite join_snoc by (destruct l; [congruence | discriminate]).
  rewrite !qlen_app. change (qlen (lit " OR ")) with 4. lia.
Qed.

Lemma firstn_succ (A : Type) (l : list A) (i : nat) (x : A) :
  nth_error l i = Some x -> firstn (S i) l = firstn i l ++ [x].
Proof.
  revert i; induction l as [|y l IH]; intros [|i]; simpl; intros H; try discriminate.
  - now injection H as ->.
  - f_equal. now apply IH.
Qed.

Lemma firstn_nonempty (A : Type) (l : list A) (i : nat) (x : A) :
  (1 <= i)%nat -> nth_error l i = Some x -> firstn i l <> [].
Proof. destruct i; [lia|]. destruct l; simpl; [discriminate | discriminate]. Qed.

(** A chunk is good for a chunk size when it can be encoded, stays 6
    characters under the size, and is a bracketed text. *)
Definition good (chunk_size : Z) (c : str) : Prop :=
  encodableb c = true /\ qlen c + 6 <= chunk_size /\
  exists body, c = lit "(" ++ body ++ lit ")".

Lemma chunk_inner_unfold (fuel : nat) (chunk_size : Z) (syns : list str)
  (i : nat) (qs : str) (ql : Z) (fin : bool) :
  chunk_inner (S fuel) chunk_size syns i qs ql fin =
  if (ql <=? chunk_size) && negb fin then
    (e1 <- quote_plus (aj (firstn (S i) syns)) ;;
     match nth_error syns (S i) with
     | None => chunk_inner fuel chunk_size syns (S i) (aj (firstn (S i) syns)) ql true
     | Some s =>
         (e2 <- quote_plus s ;;
          chunk_inner fuel chunk_size syns (S i) (aj (firstn (S i) syns))
            (Z.of_nat (length e1) + Z.of_nat (length e2) * 3 + 62) fin)
     end)%py
  else Ret (i, qs, fin).
Proof. reflexivity. Qed.

Lemma chunk_inner_stop (fuel : nat) (chunk_size : Z) (syns : list str)
  (i : nat) (qs : str) (ql : Z) (fin : bool) :
  (ql <=? chunk_size) && negb fin = false ->
  chunk_inner fuel chunk_size syns i qs ql fin = Ret (i, qs, fin).
Proof. intros H. destruct fuel; simpl; rewrite H; reflexivity. Qed.

Lemma chunk_inner_spec (chunk_size : Z) (syns : list str) (fuel : nat) :
  forall (i : nat) (qs : str) (ql : Z) (fin : bool) (i' : nat) (qs' : str) (fin' : bool),
    chunk_inner fuel chunk_size syns i qs ql fin = Ret (i', qs', fin') ->
    (fin = false ->
     exists s, nth_error syns i = Some s /\ ql = qlen qs + 3 * qlen s + 62) ->
    (i = 0%nat /\ qs = [] \/ (1 <= i)%nat /\ qs = aj (firstn i syns)) ->
    (fin = true -> (length syns <= i)%nat) ->
    ((i' = i /\ qs' = qs /\ fin' = fin /\ (chunk_size < ql \/ fin = true)) \/
     ((i < i')%nat /\ qs' = aj (firstn i' syns) /\ encodableb qs' = true /\
      qlen qs' + 6 <= chunk_size)) /\
    (fin' = true -> (length syns <= i')%nat).
Proof.
  induction fuel as [|fuel IH]; intros i qs ql fin i' qs' fin' H Hql Hshape Hfin.
  - simpl in H. destruct ((ql <=? chunk_size) && negb fin) eqn:C; [discriminate|].
    injection H as <- <- <-. split; [|assumption]. left. repeat split.
    apply andb_false_iff in C as [C|C].
    + left. apply Z.leb_gt in C. lia.
    + right. now destruct fin.
  - rewrite chunk_inner_unfold in H.
    destruct ((ql <=? chunk_size) && negb fin) eqn:C.
    2:{ injection H as <- <- <-. split; [|assumption]. left. repeat split.
        apply andb_false_iff in C as [C|C].
        - left. apply Z.leb_gt in C. lia.
        - right. now destruct fin. }
    apply andb_true_iff in C as [C1 C2]. apply Z.leb_le in C1.
    destruct fin; [discriminate|]. clear C2.
    destruct (Hql eq_refl) as (s & Hs & ->).
    apply obind_ret in H as (e1 & He1 & H).
    apply quote_plus_ret in He1 as [Henc Hlen1].
    assert (Hbound : qlen (aj (firstn (S i) syns)) + 6 <= chunk_size).
    { rewrite (firstn_succ _ _ Hs). pose proof (field_query_len s).
      destruct Hshape as [[-> ->]|[Hi ->]].
      - simpl firstn. simpl app. rewrite qlen_aj_one. simpl qlen in C1. lia.
      - rewrite qlen_aj_snoc by (eapply firstn_nonempty; eassumption). lia. }
    assert (Hshape' : (S i = 0%nat /\ aj (firstn (S i) syns) = []) \/
                      (1 <= S i)%nat /\ aj (firstn (S i) syns) = aj (firstn (S i) syns)).
    { right. split; [lia | reflexivity]. }
    assert (Hfinish : forall ql' fin0,
               chunk_inner fuel chunk_size syns (S i) (aj (firstn (S i) syns)) ql' fin0
               = Ret (i', qs', fin') ->
               (fin0 = false ->
                exists s0, nth_error syns (S i) = Some s0 /\
                           ql' = qlen (aj (firstn (S i) syns)) + 3 * qlen s0 + 62) ->
               (fin0 = true -> (length syns <= S i)%nat) ->
               ((i' = i /\ qs' = [] ++ qs' /\ fin' = false /\ False) \/
                ((i < i')%nat /\ qs' = aj (firstn i' syns) /\ encodableb qs' = true /\
                 qlen qs' + 6 <= chunk_size)) /\
               (fin' = true -> (length syns <= i')%nat)).
    { intros ql' fin0 H0 A B.
      destruct (IH _ _ _ _ _ _ _ H0 A Hshape' B)
        as [[(-> & -> & -> & _)|(I1 & I2 & I3 & I4)] I5].
      - split; [|assumption]. right. repeat split; auto.
      - split; [|assumption]. right. repeat split; auto. lia. }
    destruct (nth_error syns (S i)) as [s'|] eqn:Hs'.
    + apply obind_ret in H as (e2 & He2 & H).
      apply quote_plus_ret in He2 as [_ Hlen2].
      destruct (Hfinish _ _ H) as [[(_ & _ & _ & [])|R] I5].
      * intros _. exists s'. split; [reflexivity | lia].
      * discriminate.
      * split; [|assumption]. now right.
    + destruct (Hfinish _ _ H) as [[(_ & _ & _ & [])|R] I5].
      * discriminate.
      * intros _. apply nth_error_None. assumption.
      * split; [|assumption]. now right.
Qed.

Lemma chunk_while_unfold (fuel : nat) (k : key) (chunk_size : Z) (st : chunking) :
  chunk_while (S fuel) k chunk_size st =
  match c_syns st with
  | [] => mret (c_querystrings st)
  | _ :: _ =>
      (qstring_len <-- lift (next_len (c_querystring st) (c_syns st) (c_i st)) ;;
       if Nat.eqb (c_i st) 0 && (qstring_len >? chunk_size) then
         (s <-- lift (getitem (c_syns st) (c_i st)) ;;
          emit (too_long_warning k s) ;;;
          chunk_while fuel k chunk_size st)
       else
         (r <-- lift (chunk_inner fuel chunk_size (c_syns st) (c_i st)
                        (c_querystring st) qstring_len (c_finished st)) ;;
          let '(i, querystring, finished) := r in
          let querystrings := c_querystrings st ++ [querystring] in
          let syns := if (i <=? length (c_syns st))%nat
                      then skipn i (c_syns st) else [] in
          chunk_while fuel k chunk_size
            (mkChunking syns [] querystrings 0 finished)))%m
  end.
Proof. destruct st as [syns qs qss i fin]. destruct syns; reflexivity. Qed.

Lemma chunk_while_spec (k : key) (chunk_size : Z) (fuel : nat) :
  forall (st : chunking) (ev ev' : list event) (res : list str),
    chunk_while fuel k chunk_size st ev = (ev', Ret res) ->
    c_i st = 0%nat -> c_querystring st = [] ->
    (c_finished st = true -> c_syns st = []) ->
    Forall (good chunk_size) (c_querystrings st) ->
    Forall (good chunk_size) res.
Proof.
  induction fuel as [|fuel IH]; intros st ev ev' res H Hi Hq Hf Hg.
  - simpl in H. destruct (c_syns st); [|discriminate].
    apply mret_ret in H as [<- _]. assumption.
  - rewrite chunk_while_unfold in H.
    destruct (c_syns st) as [|s0 rest] eqn:Hsyns.
    + apply mret_ret in H as [<- _]. assumption.
    + apply mbind_ret in H as (ql & ev1 & Hql & H).
      apply lift_ret in Hql as [Hql ->].
      unfold next_len in Hql. rewrite Hi, Hq in Hql. simpl in Hql.
      apply obind_ret in Hql as (e2 & He2 & Hql). injection Hql as <-.
      apply quote_plus_ret in He2 as [_ Hlen2].
      rewrite Hi in H. simpl Nat.eqb in H. simpl andb in H.
      destruct (_ >? chunk_size) eqn:C.
      * apply mbind_ret in H as (s & ev2 & _ & H).
        apply mbind_ret in H as (u & ev3 & _ & H).
        eapply IH; eauto. rewrite Hsyns. assumption.
      * apply mbind_ret in H as ([[i' qs'] fin'] & ev2 & Hin & H).
        apply lift_ret in Hin as [Hin ->].
        assert (Hfin : c_finished st = false).
        { destruct (c_finished st); [|reflexivity]. specialize (Hf eq_refl). discriminate. }
        rewrite Hq, Hfin in Hin.
        pose proof (@chunk_inner_spec _ _ _ _ _ _ _ _ _ _ Hin) as Hspec.
        destruct Hspec as [[(-> & _ & _ & [L|L])|R] I5].
        -- intros _. exists s0. split; [reflexivity|]. simpl qlen. lia.
        -- left. auto.
        -- discriminate.
        -- exfalso. rewrite Z.gtb_ltb in C. apply Z.ltb_ge in C. lia.
        -- discriminate.
        -- destruct R as (R1 & R2 & R3 & R4).
           cbv zeta in H.
           eapply IH; [exact H | reflexivity | reflexivity | |].
           ++ cbn [c_finished c_syns]. intros ->. specialize (I5 eq_refl).
              destruct (Nat.leb_spec i' (length (s0 :: rest))); [|reflexivity].
              apply skipn_all2. lia.
           ++ cbn [c_querystrings]. apply Forall_app. split; [assumption|].
              constructor; [|constructor]. repeat split; auto.
              rewrite R2, aj_unfold. eauto.
Qed.


(** ** The combinations of chunks *)

Lemma product_spec (A : Type) (P : A -> Prop) (ls : list (list A)) :
  Forall (Forall P) ls ->
  Forall (fun combo => length combo = length ls /\ Forall P combo) (product ls).
Proof.
  induction 1 as [|l ls Hl Hls IH]; simpl.
  - constructor; [|constructor]. split; [reflexivity | constructor].
  - apply Forall_forall. intros combo Hc.
    apply in_flat_map in Hc as (x & Hx & Hc).
    apply in_map_iff in Hc as (c & <- & Hc).
    pose proof (proj1 (Forall_forall _ _) IH c Hc) as [H1 H2].
    split; [simpl; congruence|]. constructor; [|assumption].
    exact (proj1 (Forall_forall _ _) Hl x Hx).
Qed.

Lemma split_long_queries_spec (self : Query) (fuel : nat) (len_dict shorter : dict entry)
  (max_length : Z) (ev ev' : list event) (combos : list (list str)) :
  split_long_queries self fuel len_dict max_length ev = (ev', Ret (shorter, combos)) ->
  filter (@is_others entry) shorter = filter (@is_others entry) len_dict /\
  (forall Q : key * entry -> Prop, Forall Q len_dict -> Forall Q shorter) /\
  exists (k : nat) (chunk_size : Z),
    (1 <= k)%nat /\
    Z.of_nat k * (chunk_size + 100)
    <= max_length - (sum (create_query_length_list shorter)
                     + Z.of_nat (length shorter) * 10) /\
    Forall (fun combo => length combo = k /\ Forall (good chunk_size) combo) combos.
Proof.
  unfold split_long_queries. intros H.
  apply mbind_ret in H as ([short long] & ev1 & Hid & H).
  apply lift_ret in Hid as [Hid ->].
  unfold identify_long_queries in Hid.
  destruct (identify_long_while_keeps _ _ _ _ _ Hid) as (K1 & K2 & _).
  apply mbind_ret in H as (cs & ev2 & Hcs & H).
  apply lift_ret in Hcs as [Hcs ->].
  apply mbind_ret in H as (chunks & ev3 & Hchunks & H).
  apply mret_ret in H as [H _]. injection H as <- <-.
  split; [assumption|]. split; [assumption|].
  exists (length long), cs.
  assert (Hlong : (1 <= length long)%nat).
  { destruct long; [discriminate | simpl; lia]. }
  split; [assumption|].
  assert (Hcsv : cs = (max_length - (sum (create_query_length_list short)
                                     + Z.of_nat (length short) * 10))
                      / Z.of_nat (length long) - 100).
  { destruct long; [discriminate|]. now injection Hcs as <-. }
  split.
  - rewrite Hcsv. replace (_ / _ - 100 + 100) with
      ((max_length - (sum (create_query_length_list short)
                      + Z.of_nat (length short) * 10)) / Z.of_nat (length long)) by lia.
    apply Z.mul_div_le. lia.
  - eapply mapM_ret with (P := Forall (good cs)) in Hchunks.
    + destruct Hchunks as [Hlen Hall]. rewrite <- Hlen. now apply product_spec.
    + intros [k v] e e' y _ Hy. simpl in Hy.
      apply mbind_ret in Hy as (syns & e1 & _ & Hy).
      eapply chunk_while_spec; [exact Hy | reflexivity | reflexivity | discriminate |].
      constructor.
Qed.

(** ** The length dictionary *)

Definition wf_entry (kv : key * entry) : Prop :=
  encodableb (e_string (snd kv)) = true /\ e_len (snd kv) = est_val (e_string (snd kv)).

Definition total (d : dict entry) : Z := zsum (fun kv => e_len (snd kv)) d.

Lemma total_split (d : dict entry) :
  total d = sum (create_query_length_list d)
            + zsum (fun kv => e_len (snd kv)) (filter (@is_others entry) d).
Proof.
  unfold total, create_query_length_list, is_others. rewrite sum_zsum, zsum_map.
  induction d as [|kv d IH]; simpl; [reflexivity|].
  destruct (key_eqb (fst kv) Kothers); simpl; lia.
Qed.

Lemma dict_set_fresh (V : Type) (d : dict V) (k : key) (v : V) :
  ~ In k (dict_keys d) -> dict_set d k v = d ++ [(k, v)].
Proof.
  induction d as [|[k0 v0] d IH]; simpl; intros H; [reflexivity|].
  destruct (key_eqb k k0) eqn:E.
  - apply key_eqb_eq in E. subst. tauto.
  - rewrite IH; [reflexivity | tauto].
Qed.

Lemma make_len_dict_kwds_spec (kwds : list str) :
  forall (i : nat) (d d' : dict entry),
    (forall j, In (Kkwd j) (dict_keys d) -> (j < i)%nat) ->
    make_len_dict_kwds i kwds d = Ret d' ->
    exists es, d' = d ++ es /\ Forall wf_entry es /\
               Forall (fun kv => @is_others entry kv = false) es /\
               map (fun kv => e_string (snd kv)) es = kwds.
Proof.
  induction kwds as [|kwd kwds IH]; intros i d d' Hfresh H; simpl in H.
  - injection H as <-. exists []. rewrite app_nil_r. repeat split; constructor.
  - apply obind_ret in H as (n & Hn & H).
    apply estimate_ret in Hn as [Henc ->].
    rewrite dict_set_fresh in H.
    2:{ intros Hin. apply Hfresh in Hin. lia. }
    apply IH in H as (es & -> & E1 & E2 & E3).
    + exists ((Kkwd i, mkEntry kwd (est_val kwd)) :: es).
      rewrite <- app_assoc. repeat split.
      * constructor; [split; [exact Henc | reflexivity] | assumption].
      * constructor; [reflexivity | assumption].
      * simpl. now rewrite E3.
    + intros j Hj. unfold dict_keys in Hj. rewrite map_app in Hj.
      apply in_app_or in Hj as [Hj|[Hj|[]]].
      * apply Hfresh in Hj. lia.
      * simpl in Hj. injection Hj as <-. lia.
Qed.

Lemma make_len_dict_spec (diseases tissues others genes : str) (kwds : list str)
  (d : dict entry) :
  make_len_dict diseases tissues others genes kwds = Ret d ->
  exists es,
    d = [(Kdiseases, mkEntry diseases (est_val diseases));
         (Ktissues, mkEntry tissues (est_val tissues));
         (Kothers, mkEntry others (est_val others));
         (Kgenes, mkEntry genes (est_val genes))] ++ es /\
    Forall wf_entry d /\
    Forall (fun kv => @is_others entry kv = false) es /\
    map (fun kv => e_string (snd kv)) es = kwds.
Proof.
  unfold make_len_dict. intros H.
  apply obind_ret in H as (ld & Hld & H). apply estimate_ret in Hld as [E1 ->].
  apply obind_ret in H as (lt & Hlt & H). apply estimate_ret in Hlt as [E2 ->].
  apply obind_ret in H as (lo & Hlo & H). apply estimate_ret in Hlo as [E3 ->].
  apply obind_ret in H as (lg & Hlg & H). apply estimate_ret in Hlg as [E4 ->].
  apply make_len_dict_kwds_spec in H as (es & -> & F1 & F2 & F3).
  - exists es. repeat split; auto.
    apply Forall_app. split; [|assumption].
    repeat constructor; assumption.
  - simpl. intros j [Hj|[Hj|[Hj|[Hj|[]]]]]; discriminate.
Qed.

(** ** The parts that are not split *)

Lemma non_empty_part_nonempty (s : str) : non_empty_part s = true -> s <> [].
Proof.
  unfold non_empty_part. intros H. apply andb_true_iff in H as [H _].
  intros ->. discriminate.
Qed.

Lemma zsum_est_val_nonneg (l : list str) : Forall (fun x => 0 <= est_val x) l.
Proof. apply Forall_forall. intros x _. apply est_val_bounds. Qed.

Lemma parts_sum (l : list str) :
  zsum (fun x => qlen x + 12) (filter non_empty_part l) <= zsum est_val l.
Proof.
  induction l as [|x l IH]; simpl; [lia|].
  pose proof (est_val_bounds x).
  destruct (non_empty_part x) eqn:E; simpl; [|lia].
  rewrite (est_val_nonempty (non_empty_part_nonempty E)). lia.
Qed.

Lemma zsum_shift (l : list str) (a b c : Z) :
  c = a + b ->
  zsum (fun x => qlen x + a) l + Z.of_nat (length l) * b = zsum (fun x => qlen x + c) l.
Proof.
  intros ->. induction l as [|x l IH]; [simpl; lia|].
  change (length (x :: l)) with (S (length l)). simpl zsum. lia.
Qed.

(** The text joined from the non-empty parts is estimated at no more than
    the sum of the estimates of the parts. *)
Lemma parts_est (l : list str) :
  est_val (join (lit " & ") (filter non_empty_part l)) <= zsum est_val l.
Proof.
  pose proof (parts_sum l) as Hs.
  destruct (filter non_empty_part l) as [|x f] eqn:E.
  - simpl. apply zsum_nonneg, zsum_est_val_nonneg.
  - pose proof (est_val_bounds (join (lit " & ") (x :: f))) as [_ Hb].
    pose proof (@qlen_join (lit " & ") (x :: f) ltac:(discriminate)) as Hj.
    change (qlen (lit " & ")) with 5 in Hj.
    pose proof (@zsum_shift (x :: f) 5 7 12 eq_refl) as Hz.
    change (length (x :: f)) with (S (length f)) in Hz. lia.
Qed.

Lemma parts_qlen (l : list str) :
  qlen (join (lit " & ") (filter non_empty_part l)) <= zsum est_val l.
Proof.
  pose proof (parts_sum l) as Hs.
  pose proof (qlen_join_le (lit " & ") (filter non_empty_part l)) as Hj.
  change (qlen (lit " & ")) with 5 in Hj.
  pose proof (@zsum_shift (filter non_empty_part l) 5 7 12 eq_refl) as Hz.
  lia.
Qed.

Lemma parts_encodable (l : list str) :
  Forall (fun x => encodableb x = true) l ->
  encodableb (join (lit " & ") (filter non_empty_part l)) = true.
Proof.
  intros H. apply encodableb_join; [reflexivity|].
  apply Forall_forall. intros x Hx. apply filter_In in Hx as [Hx _].
  exact (proj1 (Forall_forall _ _) H x Hx).
Qed.

Lemma total_strings (d : dict entry) :
  Forall wf_entry d -> total d = zsum est_val (map (fun kv => e_string (snd kv)) d).
Proof.
  unfold total. induction 1 as [|kv d [_ Hkv] Hd IH]; simpl; [reflexivity|].
  rewrite Hkv, IH. reflexivity.
Qed.

Lemma strings_encodable (d : dict entry) :
  Forall wf_entry d ->
  Forall (fun x => encodableb x = true) (map (fun kv => e_string (snd kv)) d).
Proof. induction 1 as [|kv d [Hkv _] Hd IH]; simpl; constructor; assumption. Qed.

(** A chunk between brackets again, after stripping. *)
Definition rewrap (each : str) : str :=
  lit "(" ++ strip_chars each (lit "(,) ") ++ lit ")".

Lemma rewrap_good (chunk_size : Z) (c : str) :
  good chunk_size c -> encodableb (rewrap c) = true /\ qlen (rewrap c) + 6 <= chunk_size.
Proof.
  intros (Henc & Hlen & body & ->). unfold rewrap, strip_chars.
  set (p := fun c : N => mem_chr c (lit "(,) ")).
  assert (Hstrip : strip_with p (lit "(" ++ body ++ lit ")")
                   = rstrip_with p (dropwhile p body ++ lit ")") \/
                   strip_with p (lit "(" ++ body ++ lit ")") = []).
  { clear Hlen Henc. unfold strip_with, lstrip_with. simpl app. simpl dropwhile.
    induction body as [|b body IH]; simpl.
    - right. reflexivity.
    - destruct (p b) eqn:Pb; [exact IH|]. left. reflexivity. }
  rewrite !encodableb_app in Henc.
  apply andb_true_iff in Henc as [_ Henc]. apply andb_true_iff in Henc as [Hbody _].
  rewrite !qlen_app in Hlen. change (qlen (lit "(")) with 3 in Hlen.
  change (qlen (lit ")")) with 3 in Hlen.
  rewrite !encodableb_app, !qlen_app.
  change (qlen (lit "(")) with 3. change (qlen (lit ")")) with 3.
  change (encodableb (lit "(")) with true. change (encodableb (lit ")")) with true.
  cbn [andb]. rewrite andb_true_r.
  destruct Hstrip as [-> | ->]; [|split; [reflexivity|]; simpl qlen;
                                  pose proof (qlen_nonneg body); lia].
  unfold rstrip_with. rewrite rev_app_distr. simpl rev. simpl app. simpl dropwhile.
  destruct (dropwhile_suffix p body) as [a Ha].
  destruct (dropwhile_suffix p (rev (dropwhile p body))) as [b Hb].
  assert (Hd : dropwhile p body = rev (dropwhile p (rev (dropwhile p body))) ++ rev b).
  { rewrite <- (rev_involutive (dropwhile p body)) at 1. rewrite Hb at 1.
    now rewrite rev_app_distr. }
  set (r := rev (dropwhile p (rev (dropwhile p body)))) in *.
  assert (Hbody' : body = a ++ r ++ rev b) by (rewrite Ha at 1; now rewrite Hd at 1).
  rewrite Hbody' in Hbody, Hlen.
  rewrite !encodableb_app in Hbody. rewrite !qlen_app in Hlen.
  apply andb_true_iff in Hbody as [_ Hbody]. apply andb_true_iff in Hbody as [Hr _].
  pose proof (qlen_nonneg a). pose proof (qlen_nonneg (rev b)).
  split; [exact Hr | lia].
Qed.


Lemma filter_others_none (es : dict entry) :
  Forall (fun kv => @is_others entry kv = false) es -> filter (@is_others entry) es = [].
Proof. intros H. apply filter_none. apply Forall_forall. exact H. Qed.

Lemma within_budget (q : str) (b : Z) :
  encodableb q = true -> qlen q + 12 <= b ->
  exists n, estimate_query_string_length q = Ret n /\ n <= b.
Proof.
  intros He Hq. exists (est_val q). split; [now apply estimate_encodable|].
  pose proof (est_val_bounds q). lia.
Qed.

(** C1. Every query [create_epmc_queries] returns is estimated by
    [estimate_query_string_length] at no more than 7500. *)
Theorem create_epmc_queries_within_budget
  (self : Query) (fuel : nat) (diseases tissues others genes : str) (kwds : list str)
  (ev ev' : list event) (queries : list str) :
  create_epmc_queries self fuel diseases tissues others genes kwds ev = (ev', Ret queries) ->
  Forall (fun q => exists n, estimate_query_string_length q = Ret n /\ n <= 7500) queries.
Proof.
  unfold create_epmc_queries. intros H.
  apply mbind_ret in H as (d & ev1 & Hd & H). apply lift_ret in Hd as [Hd ->].
  destruct (make_len_dict_spec _ _ _ _ _ Hd) as (es & Hshape & Hwf & Hes & Hkw).
  apply mbind_ret in H as (eo & ev1 & Ho & H). apply lift_ret in Ho as [Ho ->].
  rewrite Hshape in Ho. simpl in Ho. injection Ho as <-. cbn [e_len] in H.
  assert (Hothers : zsum (fun kv => e_len (snd kv)) (filter (@is_others entry) d)
                    = est_val others).
  { rewrite Hshape, filter_app, (filter_others_none Hes). simpl. lia. }
  pose proof (total_split d) as Htot. rewrite Hothers in Htot.
  pose proof (total_strings Hwf) as Hstr.
  pose proof (est_val_bounds others) as Hlo.
  destruct (_ >? _) eqn:C.
  - apply mbind_ret in H as ([short combos] & ev2 & Hsplit & H).
    apply mret_ret in H as [<- _].
    destruct (split_long_queries_spec _ _ _ _ _ Hsplit)
      as (K1 & K2 & k & cs & Hk & Hcs & Hcombos).
    pose proof (K2 _ Hwf) as Hwfs.
    pose proof (total_split short) as Htots. rewrite K1, Hothers in Htots.
    pose proof (total_strings Hwfs) as Hstrs.
    pose proof (parts_qlen (map (fun kv : key * entry => e_string (snd kv)) short)) as Hcq.
    pose proof (parts_encodable (strings_encodable Hwfs)) as Hce.
    apply Forall_forall. intros q Hq. apply in_map_iff in Hq as (combo & <- & Hcombo).
    pose proof (proj1 (Forall_forall _ _) Hcombos combo Hcombo) as [Hlen Hgood].
    fold rewrap.
    assert (Hre : Forall (fun x => encodableb x = true /\ qlen x + 5 <= cs - 1)
                         (map rewrap combo)).
    { apply Forall_forall. intros x Hx. apply in_map_iff in Hx as (c & <- & Hc).
      destruct (rewrap_good (proj1 (Forall_forall _ _) Hgood c Hc)). split; [assumption | lia]. }
    assert (Hne : map rewrap combo <> []).
    { destruct combo; [simpl in Hlen; lia | discriminate]. }
    pose proof (@qlen_join (lit " & ") _ Hne) as Hj. change (qlen (lit " & ")) with 5 in Hj.
    assert (Hz : zsum (fun x => qlen x + 5) (map rewrap combo)
                 <= Z.of_nat (length (map rewrap combo)) * (cs - 1)).
    { apply zsum_le. eapply Forall_impl; [|exact Hre]. simpl. tauto. }
    rewrite length_map, Hlen in Hz.
    apply within_budget.
    + rewrite !encodableb_app, Hce. change (encodableb (lit " & ")) with true.
      cbn [andb]. rewrite andb_true_r. apply encodableb_join; [reflexivity|].
      eapply Forall_impl; [|exact Hre]. simpl. tauto.
    + rewrite !qlen_app. change (qlen (lit " & ")) with 5.
      assert (E : Z.of_nat k * (cs - 1) = Z.of_nat k * (cs + 100) - 101 * Z.of_nat k) by ring.
      assert (0 <= Z.of_nat (length short)) by lia.
      assert (1 <= Z.of_nat k) by lia.
      clear - Hj Hz E Hcs Hcq Hstrs Htots H H0. unfold str in *.
      lia.
  - apply mret_ret in H as [<- _]. constructor; [|constructor].
    rewrite <- filter_app.
    pose proof (parts_est ([genes; diseases; tissues; others] ++ kwds)) as He.
    rewrite zsum_app in He. simpl zsum in He at 1.
    assert (Hmap : map (fun kv : key * entry => e_string (snd kv)) d
                   = [diseases; tissues; others; genes] ++ kwds).
    { rewrite Hshape, map_app, Hkw. reflexivity. }
    rewrite Hmap, zsum_app in Hstr. simpl zsum in Hstr at 1.
    rewrite Z.gtb_ltb in C. apply Z.ltb_ge in C.
    exists (est_val (join (lit " & ")
                       (filter non_empty_part ([genes; diseases; tissues; others] ++ kwds)))).
    split; [|lia].
    apply estimate_encodable, parts_encodable.
    pose proof (strings_encodable Hwf) as Hall.
    rewrite Hmap in Hall.
    apply Forall_app in Hall as [Hb Hk].
    apply Forall_app. split; [|assumption].
    inversion Hb as [|? ? B1 Hb1]; subst. inversion Hb1 as [|? ? B2 Hb2]; subst.
    inversion Hb2 as [|? ? B3 Hb3]; subst. inversion Hb3 as [|? ? B4 Hb4]; subst.
    repeat constructor; assumption.
Qed.

(** A gene with 150 synonyms: its query string is estimated at 10934, and two
    queries are built. *)
Definition many_gene_syns : list str :=
  map (fun i => lit "GENE" ++ str_of_nat i) (seq 0 150).
Definition many_gene_query : Query :=
  mkQuery ArgNone ArgNone None None false 1 [] [] [] [] many_gene_syns [].
Definition many_gene_string : str :=
  add_abstract_title_and_join_synonyms many_gene_syns true false.

Lemma create_epmc_queries_within_budget_witness :
  exists queries,
    create_epmc_queries many_gene_query 200 [] [] [] many_gene_string [] []
    = ([], Ret queries) /\
    length queries = 2%nat /\
    Forall (fun q => exists n, estimate_query_string_length q = Ret n /\ n <= 7500)
           queries.
Proof.
  eexists. split; [vm_compute; reflexivity|]. split; [reflexivity|].
  eapply (@create_epmc_queries_within_budget many_gene_query 200 [] [] []
            many_gene_string [] [] []).
  vm_compute. reflexivity.
Defined.

(** * Further properties of the query builder and the searches *)

(** ** Wrapping a query string that is wrapped already *)

Definition is_bracket (c : N) : bool := mem_chr c (lit "()").

(** A text that ends with a character other than a bracket. *)
Definition closed_end (s : str) : Prop :=
  exists r c, s = r ++ [c] /\ is_bracket c = false.

Lemma dropwhile_app (p : N -> bool) (a b : str) :
  dropwhile p (a ++ b) = if forallb p a then dropwhile p b else dropwhile p a ++ b.
Proof.
  induction a as [|c a IH]; simpl; [reflexivity|].
  destruct (p c); simpl; [exact IH | reflexivity].
Qed.

Lemma dropwhile_all (p : N -> bool) (a : str) :
  forallb p a = true -> dropwhile p a = [].
Proof.
  induction a as [|c a IH]; simpl; [reflexivity|].
  destruct (p c); simpl; [exact IH | discriminate].
Qed.

Lemma rstrip_closed_end (s : str) :
  closed_end s -> rstrip_with is_bracket s = s.
Proof.
  intros (r & c & -> & Hc). unfold rstrip_with.
  rewrite rev_app_distr. simpl. rewrite Hc. simpl.
  now rewrite rev_involutive.
Qed.

Lemma rstrip_app_closed (a b : str) :
  closed_end a -> rstrip_with is_bracket (a ++ b) = a ++ rstrip_with is_bracket b.
Proof.
  intros Ha. unfold rstrip_with. rewrite rev_app_distr, dropwhile_app.
  destruct (forallb is_bracket (rev b)) eqn:E.
  - rewrite (dropwhile_all _ _ E). simpl. rewrite app_nil_r.
    apply (rstrip_closed_end Ha).
  - rewrite rev_app_distr, rev_involutive. reflexivity.
Qed.

Lemma closed_end_app (a b : str) : closed_end b -> closed_end (a ++ b).
Proof. intros (r & c & -> & Hc). exists (a ++ r), c. now rewrite app_assoc. Qed.

Lemma rstrip_result (s : str) :
  rstrip_with is_bracket s = [] \/ closed_end (rstrip_with is_bracket s).
Proof.
  unfold rstrip_with. induction (rev s) as [|c t IH]; simpl; [now left|].
  destruct (is_bracket c) eqn:E; [exact IH|].
  right. exists (rev t), c. simpl. auto.
Qed.

Lemma startswith_prefix (s p : str) :
  startswith s p = true -> exists rest, s = p ++ rest.
Proof.
  revert s; induction p as [|c p IH]; intros s H; [exists s; reflexivity|].
  destruct s as [|d s]; [discriminate|]. simpl in H.
  apply andb_true_iff in H as [H1 H2]. apply N.eqb_eq in H1. subst d.
  destruct (IH _ H2) as [rest ->]. exists rest. reflexivity.
Qed.

Lemma startswith_self (p rest : str) : startswith (p ++ rest) p = true.
Proof.
  induction p as [|c p IH]; [destruct rest; reflexivity|].
  simpl. now rewrite N.eqb_refl.
Qed.

(** The text of one synonym starts with [TITLE:] and does not end with a
    bracket. *)
Lemma field_query_shape (search_in_kwds : bool) (syn : str) :
  exists m, field_query search_in_kwds syn = lit "TITLE:" ++ m /\
            closed_end (field_query search_in_kwds syn).
Proof.
  unfold field_query. destruct (startswith syn (lit "(TITLE:")) eqn:E.
  - destruct (startswith_prefix _ _ E) as [rest ->].
    unfold strip_chars, strip_with, lstrip_with. fold is_bracket.
    change (dropwhile is_bracket (lit "(TITLE:" ++ rest)) with (lit "TITLE:" ++ rest).
    assert (Hc : closed_end (lit "TITLE:")).
    { exists (lit "TITLE"), (ch ":"). split; reflexivity. }
    rewrite (rstrip_app_closed rest Hc).
    exists (rstrip_with is_bracket rest). split; [reflexivity|].
    destruct (rstrip_result rest) as [-> | H].
    + now rewrite app_nil_r.
    + now apply closed_end_app.
  - assert (Hq : closed_end dq) by (exists [], 34%N; split; reflexivity).
    destruct search_in_kwds.
    + eexists. split; [reflexivity|].
      repeat (apply closed_end_app). exact Hq.
    + eexists. split; [reflexivity|].
      repeat (apply closed_end_app). exact Hq.
Qed.

Lemma join_shape (sep : str) (search_in_kwds : bool) (x : str) (l : list str) :
  exists m, join sep (map (field_query search_in_kwds) (x :: l)) = lit "TITLE:" ++ m /\
            closed_end (join sep (map (field_query search_in_kwds) (x :: l))).
Proof.
  revert x; induction l as [|y l IH]; intros x.
  - simpl. apply field_query_shape.
  - change (map (field_query search_in_kwds) (x :: y :: l))
      with (field_query search_in_kwds x :: map (field_query search_in_kwds) (y :: l)).
    destruct (map (field_query search_in_kwds) (y :: l)) as [|fy fl] eqn:E; [discriminate|].
    rewrite join_cons. rewrite <- E.
    destruct (field_query_shape search_in_kwds x) as (m & -> & _).
    destruct (IH y) as (m' & _ & Hc).
    eexists. split; [rewrite <- app_assoc; reflexivity|].
    rewrite <- app_assoc. apply closed_end_app. rewrite app_assoc.
    now apply closed_end_app.
Qed.

Lemma strip_wrapped (body : str) :
  (exists m, body = lit "TITLE:" ++ m) -> closed_end body ->
  strip_chars (lit "(" ++ body ++ lit ")") (lit "()") = body.
Proof.
  intros [m ->] Hc. unfold strip_chars, strip_with, lstrip_with. fold is_bracket.
  change (dropwhile is_bracket (lit "(" ++ (lit "TITLE:" ++ m) ++ lit ")"))
    with ((lit "TITLE:" ++ m) ++ lit ")").
  rewrite (rstrip_app_closed _ Hc). simpl. now rewrite app_nil_r.
Qed.

(** X1. The query string of a list of synonyms, given again as a single
    synonym, comes back unchanged: the brackets are not doubled. *)
Theorem wrapped_synonyms_not_wrapped_again
  (syns : list str) (search_in_kwds join_on_and search_in_kwds' join_on_and' : bool) :
  syns <> [] ->
  add_abstract_title_and_join_synonyms
    [add_abstract_title_and_join_synonyms syns search_in_kwds join_on_and]
    search_in_kwds' join_on_and'
  = add_abstract_title_and_join_synonyms syns search_in_kwds join_on_and.
Proof.
  intros Hne. destruct syns as [|x l]; [congruence|].
  assert (H : forall sep,
             field_query search_in_kwds'
               (lit "(" ++ join sep (map (field_query search_in_kwds) (x :: l)) ++ lit ")")
             = join sep (map (field_query search_in_kwds) (x :: l))).
  { intros sep. destruct (join_shape sep search_in_kwds x l) as (m & Hm & Hc).
    unfold field_query at 1.
    assert (Hs : startswith (lit "(" ++ join sep (map (field_query search_in_kwds) (x :: l))
                               ++ lit ")") (lit "(TITLE:") = true).
    { rewrite Hm.
      change (lit "(" ++ (lit "TITLE:" ++ m) ++ lit ")")
        with (lit "(TITLE:" ++ (m ++ lit ")")).
      apply startswith_self. }
    rewrite Hs. apply strip_wrapped; [eauto | assumption]. }
  unfold add_abstract_title_and_join_synonyms at 1.
  cbn [map join].
  unfold add_abstract_title_and_join_synonyms.
  destruct join_on_and, join_on_and'; rewrite H; reflexivity.
Qed.

Lemma wrapped_synonyms_not_wrapped_again_witness :
  add_abstract_title_and_join_synonyms
    [add_abstract_title_and_join_synonyms [lit "ABC1"; lit "ABC 1"] true false] true false
  = add_abstract_title_and_join_synonyms [lit "ABC1"; lit "ABC 1"] true false.
Proof.
  apply (@wrapped_synonyms_not_wrapped_again [lit "ABC1"; lit "ABC 1"] true false true false).
  discriminate.
Defined.

(** X2. The query string of an empty list of synonyms is the text [()], which
    [create_epmc_queries] leaves out of a query; the string of any other list
    is kept. *)
Theorem empty_segment_left_out (syns : list str) (search_in_kwds join_on_and : bool) :
  add_abstract_title_and_join_synonyms [] search_in_kwds join_on_and = lit "()" /\
  non_empty_part (add_abstract_title_and_join_synonyms syns search_in_kwds join_on_and)
  = match syns with [] => false | _ => true end.
Proof.
  split; [destruct join_on_and; reflexivity|].
  destruct syns as [|x l]; [destruct join_on_and; reflexivity|].
  unfold add_abstract_title_and_join_synonyms, non_empty_part.
  destruct join_on_and.
  - destruct (join_shape (lit ") & (") search_in_kwds x l) as (m & -> & _). reflexivity.
  - destruct (join_shape (lit " OR ") search_in_kwds x l) as (m & -> & _). reflexivity.
Qed.

(** ** The estimate of the encoded length *)

Lemma quote_byte_length (b : N) :
  (1 <= length (quote_byte b) <= 3)%nat.
Proof.
  unfold quote_byte. destruct (always_safe b); [simpl; lia|].
  destruct (N.eqb b 32); simpl; lia.
Qed.

Lemma flat_map_quote_length (bs : list N) :
  (length bs <= length (flat_map quote_byte bs) <= 3 * length bs)%nat.
Proof.
  induction bs as [|b bs IH]; simpl; [lia|].
  rewrite length_app. pose proof (quote_byte_length b). lia.
Qed.

Lemma utf8_encode_char_length (c : N) (bs : list N) :
  utf8_encode_char c = Some bs -> (1 <= length bs <= 4)%nat.
Proof.
  unfold utf8_encode_char.
  repeat match goal with
         | |- context [if ?b then _ else _] => destruct b
         end; intros H; try discriminate; injection H as <-; simpl; lia.
Qed.

Lemma char_qlen_bounds (c : N) :
  matched (utf8_encode_char c) = true -> 1 <= char_qlen c <= 12.
Proof.
  unfold char_qlen. destruct (utf8_encode_char c) as [bs|] eqn:E; [|discriminate].
  intros _. pose proof (utf8_encode_char_length _ E).
  pose proof (flat_map_quote_length bs). lia.
Qed.

Lemma qlen_bounds (s : str) :
  encodableb s = true ->
  Z.of_nat (length s) <= qlen s <= 12 * Z.of_nat (length s).
Proof.
  induction s as [|c s IH]; simpl; [lia|]. intros H.
  apply andb_true_iff in H as [H1 H2].
  pose proof (char_qlen_bounds _ H1). specialize (IH H2). lia.
Qed.

Lemma quote_plus_not_encodable (s : str) :
  encodableb s = false -> quote_plus s = Raise UnicodeEncodeError.
Proof.
  induction s as [|c s IH]; simpl; [discriminate|]. intros H.
  destruct (utf8_encode_char c); [|reflexivity]. simpl in H.
  rewrite (IH H). reflexivity.
Qed.

Lemma estimate_not_encodable (s : str) :
  encodableb s = false -> estimate_query_string_length s = Raise UnicodeEncodeError.
Proof.
  intros E. destruct s as [|c s]; [discriminate|].
  unfold estimate_query_string_length. now rewrite quote_plus_not_encodable.
Qed.

(** X3. [estimate_query_string_length] raises [UnicodeEncodeError] exactly
    on a text with a code point that UTF-8 cannot encode, is 0 on the empty
    text, and otherwise lies between the length of the text plus 12 and
    twelve times the length plus 12. *)
Theorem estimate_query_string_length_range (q_string : str) :
  match q_string, encodableb q_string with
  | _, false => estimate_query_string_length q_string = Raise UnicodeEncodeError
  | [], true => estimate_query_string_length q_string = Ret 0
  | _ :: _, true =>
      exists n, estimate_query_string_length q_string = Ret n /\
                Z.of_nat (length q_string) + 12 <= n <= 12 * Z.of_nat (length q_string) + 12
  end.
Proof.
  destruct q_string as [|c s]; [reflexivity|].
  destruct (encodableb (c :: s)) eqn:E.
  - exists (est_val (c :: s)). split; [now apply estimate_encodable|].
    pose proof (qlen_bounds _ E). unfold est_val. lia.
  - now apply estimate_not_encodable.
Qed.

(** ** The length dictionary, as a value *)

Definition len_entry (s : str) : entry := mkEntry s (est_val s).

Definition len_dict_of (diseases tissues others genes : str) (kwds : list str)
  : dict entry :=
  [(Kdiseases, len_entry diseases); (Ktissues, len_entry tissues);
   (Kothers, len_entry others); (Kgenes, len_entry genes)]
  ++ map (fun ik => (Kkwd (fst ik), len_entry (snd ik))) (enumerate_from 1 kwds).

Lemma enumerate_from_keys (A : Type) (l : list A) (i j : nat) :
  In j (map fst (enumerate_from i l)) -> (i <= j)%nat.
Proof.
  revert i; induction l as [|x l IH]; intros i; simpl; [tauto|].
  intros [<-|H]; [lia|]. apply IH in H. lia.
Qed.

Lemma make_len_dict_kwds_value (kwds : list str) :
  forall (i : nat) (d : dict entry),
    (forall j, In (Kkwd j) (dict_keys d) -> (j < i)%nat) ->
    Forall (fun s => encodableb s = true) kwds ->
    make_len_dict_kwds i kwds d
    = Ret (d ++ map (fun ik => (Kkwd (fst ik), len_entry (snd ik))) (enumerate_from i kwds)).
Proof.
  induction kwds as [|kwd kwds IH]; intros i d Hfresh Henc; simpl.
  - now rewrite app_nil_r.
  - inversion Henc as [|? ? H1 H2]; subst.
    rewrite (estimate_encodable _ H1). simpl.
    rewrite dict_set_fresh.
    2:{ intros Hin. apply Hfresh in Hin. lia. }
    rewrite IH; [now rewrite <- app_assoc | | assumption].
    intros j Hj. unfold dict_keys in Hj. rewrite map_app in Hj.
    apply in_app_or in Hj as [Hj|[Hj|[]]].
    + apply Hfresh in Hj. lia.
    + simpl in Hj. injection Hj as <-. lia.
Qed.

Lemma make_len_dict_value (diseases tissues others genes : str) (kwds : list str) :
  Forall (fun s => encodableb s = true) (diseases :: tissues :: others :: genes :: kwds) ->
  make_len_dict diseases tissues others genes kwds
  = Ret (len_dict_of diseases tissues others genes kwds).
Proof.
  intros H.
  inversion H as [|? ? E1 H1]; subst. inversion H1 as [|? ? E2 H2]; subst.
  inversion H2 as [|? ? E3 H3]; subst. inversion H3 as [|? ? E4 H4]; subst.
  unfold make_len_dict.
  rewrite (estimate_encodable _ E1), (estimate_encodable _ E2),
    (estimate_encodable _ E3), (estimate_encodable _ E4). simpl obind.
  rewrite make_len_dict_kwds_value; [reflexivity | | assumption].
  simpl. intros j [Hj|[Hj|[Hj|[Hj|[]]]]]; discriminate.
Qed.

Lemma make_len_dict_fails (diseases tissues others genes : str) (kwds : list str) :
  existsb (fun s => negb (encodableb s)) (diseases :: tissues :: others :: genes :: kwds)
  = true ->
  make_len_dict diseases tissues others genes kwds = Raise UnicodeEncodeError.
Proof.
  assert (Hk : forall kwds i d,
             existsb (fun s => negb (encodableb s)) kwds = true ->
             make_len_dict_kwds i kwds d = Raise UnicodeEncodeError).
  { clear. intros l. induction l as [|kwd l IH]; intros i d H; simpl in *; [discriminate|].
    destruct (encodableb kwd) eqn:E.
    - rewrite (estimate_encodable _ E). simpl. apply IH. exact H.
    - now rewrite (estimate_not_encodable _ E). }
  unfold make_len_dict. intros H. simpl in H.
  pose proof estimate_not_encodable as Hs.
  destruct (encodableb diseases) eqn:E1; [|now rewrite (Hs _ E1)].
  rewrite (estimate_encodable _ E1). simpl obind.
  destruct (encodableb tissues) eqn:E2; [|now rewrite (Hs _ E2)].
  rewrite (estimate_encodable _ E2). simpl obind.
  destruct (encodableb others) eqn:E3; [|now rewrite (Hs _ E3)].
  rewrite (estimate_encodable _ E3). simpl obind.
  destruct (encodableb genes) eqn:E4; [|now rewrite (Hs _ E4)].
  rewrite (estimate_encodable _ E4). simpl obind.
  apply Hk. exact H.
Qed.

Lemma dict_get_app_fresh (V : Type) (pre suf : dict V) (k : key) :
  ~ In k (dict_keys pre) -> dict_get (pre ++ suf) k = dict_get suf k.
Proof.
  induction pre as [|[k0 v0] pre IH]; simpl; intros H; [reflexivity|].
  destruct (key_eqb k k0) eqn:E.
  - apply key_eqb_eq in E. subst. tauto.
  - apply IH. tauto.
Qed.

Lemma dict_get_enumerate (kwds : list str) :
  forall (i j : nat) (kwd : str),
    nth_error kwds j = Some kwd ->
    dict_get (map (fun ik => (Kkwd (fst ik), len_entry (snd ik))) (enumerate_from i kwds))
             (Kkwd (i + j))
    = Ret (len_entry kwd).
Proof.
  induction kwds as [|x kwds IH]; intros i j kwd H; [destruct j; discriminate|].
  destruct j as [|j]; simpl in H.
  - injection H as ->. simpl. rewrite Nat.add_0_r, Nat.eqb_refl. reflexivity.
  - simpl. destruct (Nat.eqb_spec (i + S j) i) as [E|_]; [lia|].
    replace (i + S j)%nat with (S i + j)%nat by lia. now apply IH.
Qed.

Lemma make_len_dict_not_encodable (diseases tissues others genes : str)
  (kwds : list str) :
  forallb encodableb (diseases :: tissues :: others :: genes :: kwds) = false ->
  make_len_dict diseases tissues others genes kwds = Raise UnicodeEncodeError.
Proof.
  intros E. apply make_len_dict_fails.
  induction (diseases :: tissues :: others :: genes :: kwds) as [|x l IH];
    simpl in *; [discriminate|].
  destruct (encodableb x); simpl in *; [now apply IH | reflexivity].
Qed.

(** X4. [make_len_dict] returns when all the strings can be encoded (and
    raises [UnicodeEncodeError] otherwise); the dictionary has the keys
    [diseases], [tissues], [others], [genes], [kwd1], [kwd2], ... in this
    order, and under each key the string that was given with its estimate. *)
Theorem make_len_dict_lookup (diseases tissues others genes : str) (kwds : list str) :
  if forallb encodableb (diseases :: tissues :: others :: genes :: kwds) then
    exists d,
      make_len_dict diseases tissues others genes kwds = Ret d /\
      dict_keys d = [Kdiseases; Ktissues; Kothers; Kgenes]
                    ++ map Kkwd (seq 1 (length kwds)) /\
      dict_get d Kdiseases = Ret (mkEntry diseases (est_val diseases)) /\
      dict_get d Ktissues = Ret (mkEntry tissues (est_val tissues)) /\
      dict_get d Kothers = Ret (mkEntry others (est_val others)) /\
      dict_get d Kgenes = Ret (mkEntry genes (est_val genes)) /\
      forall (j : nat) (kwd : str),
        nth_error kwds j = Some kwd ->
        dict_get d (Kkwd (S j)) = Ret (mkEntry kwd (est_val kwd))
  else make_len_dict diseases tissues others genes kwds = Raise UnicodeEncodeError.
Proof.
  destruct (forallb encodableb _) eqn:E.
  - assert (H : Forall (fun s => encodableb s = true)
                       (diseases :: tissues :: others :: genes :: kwds)).
    { apply Forall_forall. intros s Hs. exact (proj1 (forallb_forall _ _) E s Hs). }
    exists (len_dict_of diseases tissues others genes kwds).
    split; [now apply make_len_dict_value|].
    split.
    { unfold len_dict_of, dict_keys. rewrite map_app, map_map. simpl. do 4 f_equal.
      generalize 1%nat. clear. induction kwds as [|x kwds IH]; intros i; simpl;
        [reflexivity | now rewrite IH]. }
    repeat split; try reflexivity.
    intros j kwd Hj. unfold len_dict_of.
    rewrite (@dict_get_app_fresh _ [_; _; _; _]).
    + apply (dict_get_enumerate kwds 1 j Hj).
    + simpl. intros [Hk|[Hk|[Hk|[Hk|[]]]]]; discriminate.
  - now apply make_len_dict_not_encodable.
Qed.

(** ** The strings that are moved to be split *)

(** An entry that a round of [identify_long_queries] moves: its key is not
    [others] and its length is the maximum of the round. *)
Definition moved (mx : Z) (kv : key * entry) : bool :=
  negb (is_others kv) && (e_len (snd kv) =? mx).

Definition kept_of (mx : Z) (d : dict entry) : dict entry :=
  filter (fun kv => negb (moved mx kv)) d.

Definition moved_of (mx : Z) (d : dict entry) : dict entry := filter (moved mx) d.

Definition add_long (long_strs : dict str) (kvs : dict entry) : dict str :=
  fold_left (fun l kv => dict_set l (fst kv) (e_string (snd kv))) kvs long_strs.

Lemma key_eqb_refl (k : key) : key_eqb k k = true.
Proof. now apply key_eqb_eq. Qed.

Lemma dict_del_app_fresh (V : Type) (pre suf : dict V) (k : key) (v : V) :
  ~ In k (dict_keys pre) -> dict_del (pre ++ (k, v) :: suf) k = Ret (pre ++ suf).
Proof.
  induction pre as [|[k0 v0] pre IH]; simpl; intros H.
  - now rewrite key_eqb_refl.
  - destruct (key_eqb k k0) eqn:E.
    + apply key_eqb_eq in E. subst. tauto.
    + rewrite IH; [reflexivity | tauto].
Qed.

Lemma identify_long_for_value (ll : list Z) (mx : Z) (suf : dict entry) :
  py_max ll = Ret mx ->
  forall (pre : dict entry) (l : dict str),
    NoDup (dict_keys (pre ++ suf)) ->
    identify_long_for (dict_keys suf) ll (pre ++ suf) l
    = Ret (pre ++ kept_of mx suf, add_long l (moved_of mx suf)).
Proof.
  intros Hmx. induction suf as [|[k e] suf IH]; intros pre l Hnd.
  - simpl. now rewrite app_nil_r.
  - assert (Hfresh : ~ In k (dict_keys pre)).
    { unfold dict_keys in *. rewrite map_app in Hnd. simpl in Hnd.
      apply NoDup_remove_2 in Hnd. intros Hin. apply Hnd. apply in_or_app. now left. }
    assert (Hnext : NoDup (dict_keys ((pre ++ [(k, e)]) ++ suf))).
    { now rewrite <- app_assoc. }
    assert (Hskip : identify_long_for (dict_keys suf) ll (pre ++ (k, e) :: suf) l
                    = Ret (pre ++ (k, e) :: kept_of mx suf, add_long l (moved_of mx suf))).
    { specialize (IH (pre ++ [(k, e)]) l Hnext).
      rewrite <- !app_assoc in IH. exact IH. }
    cbn [dict_keys map fst identify_long_for]. fold (dict_keys suf).
    unfold kept_of, moved_of, moved, is_others. cbn [filter fst snd].
    destruct (key_eqb k Kothers) eqn:Hk; cbn [negb andb].
    + exact Hskip.
    + rewrite (@dict_get_app_fresh _ pre ((k, e) :: suf) k Hfresh). simpl dict_get. rewrite key_eqb_refl.
      simpl obind. rewrite Hmx. simpl obind.
      destruct (e_len e =? mx) eqn:Hlen; cbn [negb].
      * rewrite (@dict_del_app_fresh _ pre suf k e Hfresh). simpl obind.
        assert (Hnd' : NoDup (dict_keys (pre ++ suf))).
        { unfold dict_keys in *. rewrite map_app in *. simpl in Hnd.
          now apply NoDup_remove_1 in Hnd. }
        rewrite (IH pre _ Hnd'). reflexivity.
      * exact Hskip.
Qed.

Lemma identify_long_for_others_only (ll : list Z) (keys : list key) (d : dict entry)
  (l : dict str) :
  Forall (fun k => key_eqb k Kothers = true) keys ->
  identify_long_for keys ll d l = Ret (d, l).
Proof.
  induction 1 as [|k keys Hk Hks IH]; simpl; [reflexivity|].
  rewrite Hk. simpl. exact IH.
Qed.

Lemma py_max_spec (ll : list Z) :
  ll <> [] -> exists mx, py_max ll = Ret mx /\ In mx ll /\ Forall (fun x => x <= mx) ll.
Proof.
  destruct ll as [|x ll]; [congruence|]. intros _.
  exists (fold_left Z.max ll x). split; [reflexivity|].
  assert (H : forall a, (fold_left Z.max ll a = a \/ In (fold_left Z.max ll a) ll) /\
                        a <= fold_left Z.max ll a /\
                        Forall (fun y => y <= fold_left Z.max ll a) ll).
  { induction ll as [|y ll IH]; intros a; simpl.
    - split; [now left|]. split; [lia | constructor].
    - destruct (IH (Z.max a y)) as (I1 & I2 & I3). split; [|split].
      + destruct I1 as [I1|I1]; [|now right; right].
        rewrite I1. destruct (Z.max_spec a y) as [[_ ->]|[_ ->]]; [right; now left | now left].
      + lia.
      + constructor; [lia | assumption]. }
  destruct (H x) as (I1 & I2 & I3). split.
  - destruct I1 as [->|I1]; [now left | now right].
  - constructor; assumption.
Qed.

Definition lens (d : dict entry) : list Z := create_query_length_list d.

Lemma lens_in (d : dict entry) (x : Z) :
  In x (lens d) <-> exists kv, In kv d /\ is_others kv = false /\ e_len (snd kv) = x.
Proof.
  unfold lens, create_query_length_list. rewrite in_map_iff. split.
  - intros (kv & <- & H). apply filter_In in H as [H1 H2].
    exists kv. unfold is_others. apply negb_true_iff in H2. auto.
  - intros (kv & H1 & H2 & <-). exists kv. split; [reflexivity|].
    apply filter_In. unfold is_others in H2. rewrite H2. auto.
Qed.

Lemma lens_empty (d : dict entry) :
  lens d = [] -> Forall (fun k => key_eqb k Kothers = true) (dict_keys d).
Proof.
  intros H. apply Forall_forall. intros k Hk.
  apply in_map_iff in Hk as (kv & <- & Hkv).
  destruct (key_eqb (fst kv) Kothers) eqn:E; [reflexivity|].
  assert (Hin : In (e_len (snd kv)) (lens d)) by (apply lens_in; exists kv; auto).
  rewrite H in Hin. destruct Hin.
Qed.

Lemma lens_kept (mx : Z) (d : dict entry) :
  lens (kept_of mx d) = filter (fun x => negb (x =? mx)) (lens d).
Proof.
  unfold lens, create_query_length_list, kept_of, moved, is_others.
  induction d as [|kv d IH]; [reflexivity|].
  cbn [filter].
  destruct (key_eqb (fst kv) Kothers) eqn:E1; cbn [negb andb filter map].
  - rewrite ?E1. cbn [negb]. exact IH.
  - destruct (e_len (snd kv) =? mx) eqn:E2; cbn [negb filter map];
      rewrite ?E1, ?E2; cbn [negb filter map]; rewrite ?E1, ?E2; cbn [negb filter map];
      [exact IH | now rewrite IH].
Qed.

Lemma nodup_keys_filter (V : Type) (p : key * V -> bool) (d : dict V) :
  NoDup (dict_keys d) -> NoDup (dict_keys (filter p d)).
Proof.
  unfold dict_keys. induction d as [|kv d IH]; simpl; intros H; [constructor|].
  inversion H as [|? ? Hn Hd]; subst.
  destruct (p kv); simpl; [|now apply IH].
  constructor; [|now apply IH].
  intros Hin. apply Hn. apply in_map_iff in Hin as (kv' & E & Hkv').
  apply filter_In in Hkv' as [Hkv' _]. apply in_map_iff. eauto.
Qed.

Lemma filter_length_lt (A : Type) (p : A -> bool) (l : list A) (x : A) :
  In x l -> p x = false -> (length (filter p l) < length l)%nat.
Proof.
  induction l as [|y l IH]; simpl; [tauto|].
  intros [->|Hin] Hp.
  - rewrite Hp. pose proof (filter_length_le p l). lia.
  - specialize (IH Hin Hp). destruct (p y); simpl; lia.
Qed.

Lemma sum_nil_or (ll : list Z) (t : Z) : 0 <= t -> sum ll > t -> ll <> [].
Proof. intros Ht Hs ->. unfold sum in Hs. simpl in Hs. lia. Qed.

(** The loop of [identify_long_queries], with an invariant of its rounds. *)
Lemma identify_long_while_inv (max_length : Z) (P : dict entry -> dict str -> Prop) :
  500 <= max_length ->
  (forall d l mx,
      P d l -> NoDup (dict_keys d) -> In mx (lens d) ->
      Forall (fun x => x <= mx) (lens d) ->
      P (kept_of mx d) (add_long l (moved_of mx d))) ->
  forall (fuel : nat) (d : dict entry) (l : dict str),
    NoDup (dict_keys d) -> (length (lens d) <= fuel)%nat -> P d l ->
    exists d' l',
      identify_long_while fuel max_length (lens d) d l = Ret (d', l') /\
      P d' l' /\ sum (lens d') <= max_length - 500.
Proof.
  intros Hmax Hstep. induction fuel as [|fuel IH]; intros d l Hnd Hlen HP.
  - assert (E : lens d = []) by (destruct (lens d); [reflexivity | simpl in Hlen; lia]).
    exists d, l. rewrite E. split; [|split; [assumption|]].
    + apply identify_long_while_done. unfold sum. simpl.
      destruct (Z.gtb_spec 0 (max_length - 500)); [lia | reflexivity].
    + unfold sum. simpl. lia.
  - destruct (sum (lens d) >? max_length - 500) eqn:C.
    + assert (Hne : lens d <> []).
      { apply sum_nil_or with (t := max_length - 500); [lia|].
        rewrite Z.gtb_ltb in C. apply Z.ltb_lt in C. lia. }
      destruct (py_max_spec Hne) as (mx & Hmx & Hin & Hall).
      pose proof (@identify_long_for_value (lens d) mx d Hmx [] l Hnd) as Hfor.
      simpl app in Hfor.
      rewrite (identify_long_while_step fuel _ _ _ _ C Hfor).
      apply IH.
      * now apply nodup_keys_filter.
      * rewrite lens_kept.
        pose proof (@filter_length_lt Z (fun x => negb (x =? mx)) (lens d) mx Hin) as Hlt.
        cbv beta in Hlt. rewrite Z.eqb_refl in Hlt. specialize (Hlt eq_refl). lia.
      * now apply Hstep.
    + exists d, l. split; [now apply identify_long_while_done|].
      split; [assumption|]. rewrite Z.gtb_ltb in C. apply Z.ltb_ge in C. lia.
Qed.

Lemma dict_set_in (V : Type) (l : dict V) (k : key) (v : V) :
  In (k, v) (dict_set l k v).
Proof.
  induction l as [|[k0 v0] l IH]; simpl; [now left|].
  destruct (key_eqb k k0) eqn:E.
  - apply key_eqb_eq in E. subst. now left.
  - now right.
Qed.

Lemma dict_set_other (V : Type) (l : dict V) (k k' : key) (v v' : V) :
  k' <> k -> (In (k', v') (dict_set l k v) <-> In (k', v') l).
Proof.
  intros Hne. induction l as [|[k0 v0] l IH]; simpl.
  - split; [intros [H|[]]; congruence | tauto].
  - destruct (key_eqb k k0) eqn:E.
    + apply key_eqb_eq in E. subst k0. simpl. split.
      * intros [H|H]; [congruence | now right].
      * intros [H|H]; [congruence | now right].
    + simpl. rewrite IH. tauto.
Qed.

Lemma key_eq_dec_aux (a b : key) : {a = b} + {a <> b}.
Proof.
  destruct (key_eqb a b) eqn:E.
  - left. now apply key_eqb_eq.
  - right. intros H. apply key_eqb_eq in H. congruence.
Qed.

Lemma add_long_in (kvs : dict entry) :
  NoDup (dict_keys kvs) ->
  forall (l : dict str) (k : key) (s : str),
    (forall k0, In k0 (dict_keys kvs) -> ~ In k0 (dict_keys l)) ->
    (In (k, s) (add_long l kvs) <->
     In (k, s) l \/ exists e, In (k, e) kvs /\ e_string e = s).
Proof.
  unfold add_long. induction kvs as [|[k0 e0] kvs IH]; intros Hnd l k s Hfresh; simpl.
  - split; [auto | intros [H|(e & [] & _)]; assumption].
  - unfold dict_keys in Hnd. simpl in Hnd. inversion Hnd as [|? ? Hn Hd]; subst.
    rewrite IH; [|exact Hd|].
    + split.
      * intros [H|(e & He & Hs)].
        -- destruct (key_eq_dec_aux k k0) as [->|Hne].
           ++ right. exists e0. split; [now left|].
              assert (Hfr : ~ In k0 (dict_keys l)) by (apply Hfresh; now left).
              rewrite (@dict_set_fresh _ l k0 (e_string e0) Hfr) in H.
              apply in_app_or in H as [H|[H|[]]].
              ** exfalso. apply Hfr. apply in_map_iff. exists (k0, s). auto.
              ** now injection H.
           ++ left. now apply (@dict_set_other _ l k0 k (e_string e0) s Hne) in H.
        -- right. exists e. split; [now right | assumption].
      * intros [H|(e & [He|He] & Hs)].
        -- left. destruct (key_eq_dec_aux k k0) as [->|Hne].
           ++ exfalso. apply (Hfresh k0); [now left|].
              apply in_map_iff. exists (k0, s). auto.
           ++ now apply (@dict_set_other _ l k0 k (e_string e0) s Hne).
        -- injection He as -> ->. left. rewrite <- Hs. apply dict_set_in.
        -- right. eauto.
    + intros k1 Hk1 Hin. apply dict_set_keys in Hin as [->|Hin].
      * contradiction.
      * apply (Hfresh k1); [now right | assumption].
Qed.

Lemma nodup_keys_unique (V : Type) (d : dict V) (k : key) (v v' : V) :
  NoDup (dict_keys d) -> In (k, v) d -> In (k, v') d -> v = v'.
Proof.
  unfold dict_keys. induction d as [|[k0 v0] d IH]; simpl; [tauto|].
  intros Hnd H1 H2. inversion Hnd as [|? ? Hn Hd]; subst.
  destruct H1 as [H1|H1], H2 as [H2|H2].
  - congruence.
  - injection H1 as -> ->. exfalso. apply Hn. apply in_map_iff. exists (k, v'). auto.
  - injection H2 as -> ->. exfalso. apply Hn. apply in_map_iff. exists (k, v). auto.
  - now apply IH.
Qed.

Lemma in_dict_keys (V : Type) (d : dict V) (k : key) :
  In k (dict_keys d) <-> exists v, In (k, v) d.
Proof.
  unfold dict_keys. rewrite in_map_iff. split.
  - intros ([k0 v] & <- & H). eauto.
  - intros (v & H). exists (k, v). auto.
Qed.

Section LongStrings.
Variable len_dict : dict entry.
Hypothesis keys_unique : NoDup (dict_keys len_dict).

(** What holds of the entries kept and the strings moved after any number
    of rounds. *)
Definition rounds_inv (d : dict entry) (l : dict str) : Prop :=
  (forall kv, In kv d -> In kv len_dict) /\
  (forall kv, In kv len_dict -> In kv d \/ In (fst kv, e_string (snd kv)) l) /\
  (forall k s, In (k, s) l ->
     k <> Kothers /\
     exists e, In (k, e) len_dict /\ e_string e = s /\
               forall kv', In kv' d -> is_others kv' = false -> e_len (snd kv') < e_len e) /\
  (forall k, In k (dict_keys l) -> ~ In k (dict_keys d)).

Lemma rounds_inv_step (d : dict entry) (l : dict str) (mx : Z) :
  rounds_inv d l -> NoDup (dict_keys d) -> In mx (lens d) ->
  Forall (fun x => x <= mx) (lens d) ->
  rounds_inv (kept_of mx d) (add_long l (moved_of mx d)).
Proof.
  intros (I1 & I2 & I3 & I4) Hnd Hin Hall.
  assert (Hm : NoDup (dict_keys (moved_of mx d))) by now apply nodup_keys_filter.
  assert (Hfresh : forall k0, In k0 (dict_keys (moved_of mx d)) -> ~ In k0 (dict_keys l)).
  { intros k0 Hk0 Hl. apply (I4 _ Hl). apply in_dict_keys in Hk0 as [v Hv].
    apply filter_In in Hv as [Hv _]. apply in_dict_keys. eauto. }
  pose proof (fun k s => @add_long_in _ Hm l k s Hfresh) as Hadd.
  repeat split.
  - intros kv Hkv. apply filter_In in Hkv as [Hkv _]. auto.
  - intros kv Hkv. destruct (I2 _ Hkv) as [Hd|Hl].
    + destruct (moved mx kv) eqn:M.
      * right. apply Hadd. right. exists (snd kv). split; [|reflexivity].
        apply filter_In. split; [|assumption]. now destruct kv.
      * left. apply filter_In. rewrite M. auto.
    + right. apply Hadd. now left.
  - apply Hadd in H as [H|(e & He & Hs)].
    + now destruct (I3 _ _ H).
    + apply filter_In in He as [_ M]. unfold moved, is_others in M. simpl in M.
      apply andb_true_iff in M as [M _]. apply negb_true_iff in M.
      intros ->. discriminate.
  - apply Hadd in H as [H|(e & He & Hs)].
    + destruct (I3 _ _ H) as (_ & e & E1 & E2 & E3). exists e. repeat split; auto.
      intros kv' Hkv'. apply filter_In in Hkv' as [Hkv' _]. auto.
    + exists e. apply filter_In in He as [He M]. repeat split; auto.
      intros kv' Hkv' Ho. apply filter_In in Hkv' as [Hkv' M'].
      unfold moved in M, M'. rewrite Ho in M'. simpl in M, M'.
      apply andb_true_iff in M as [_ M]. apply Z.eqb_eq in M.
      apply negb_true_iff in M'. apply Z.eqb_neq in M'.
      assert (Hle : e_len (snd kv') <= mx).
      { apply (proj1 (Forall_forall _ _) Hall). apply lens_in. eauto. }
      lia.
  - intros k Hk Hkept. apply in_dict_keys in Hk as [s Hs].
    apply in_dict_keys in Hkept as [e' He'].
    apply filter_In in He' as [He' M'].
    apply Hadd in Hs as [Hs|(e & He & _)].
    + apply (I4 k); apply in_dict_keys; eauto.
    + apply filter_In in He as [He M].
      rewrite (@nodup_keys_unique _ d k e e' Hnd He He') in M. rewrite M in M'. discriminate.
Qed.

(** X5. When the limit is at least 500 and the keys are distinct,
    [identify_long_queries] returns after at most as many rounds as there
    are entries; the lengths kept sum to at most the limit less 500; every
    entry is either kept as it is or its string is moved under its key, and
    not both; and a string that is moved is not that of [others] and is
    longer than every entry kept, [others] apart. *)
Theorem identify_long_queries_moves_the_longest (max_length : Z) (fuel : nat) :
  500 <= max_length -> (length len_dict <= fuel)%nat ->
  exists shorter long_strs,
    identify_long_queries fuel len_dict max_length = Ret (shorter, long_strs) /\
    sum (create_query_length_list shorter) <= max_length - 500 /\
    (forall k e, In (k, e) shorter -> In (k, e) len_dict) /\
    (forall k e, In (k, e) len_dict ->
                 In (k, e) shorter \/ In (k, e_string e) long_strs) /\
    (forall k, In k (dict_keys long_strs) -> ~ In k (dict_keys shorter)) /\
    (forall k s, In (k, s) long_strs ->
       k <> Kothers /\
       exists e, In (k, e) len_dict /\ e_string e = s /\
                 forall k' e', In (k', e') shorter -> k' <> Kothers ->
                               e_len e' < e_len e).
Proof.
  intros Hmax Hfuel.
  assert (Hlen : (length (lens len_dict) <= fuel)%nat).
  { unfold lens, create_query_length_list. rewrite length_map.
    pose proof (filter_length_le (fun kv : key * entry => negb (key_eqb (fst kv) Kothers))
                                 len_dict). lia. }
  assert (H0 : rounds_inv len_dict []).
  { split; [auto|]. split; [auto|]. split; [intros k s [] | intros k []]. }
  destruct (@identify_long_while_inv max_length rounds_inv Hmax rounds_inv_step
              fuel len_dict [] keys_unique Hlen H0)
    as (d' & l' & Hret & (I1 & I2 & I3 & I4) & Hsum).
  exists d', l'. split; [exact Hret|]. split; [exact Hsum|].
  split; [intros k e; apply I1|]. split; [intros k e H; apply (I2 _ H)|].
  split; [exact I4|].
  intros k s H. destruct (I3 _ _ H) as (Hk & e & E1 & E2 & E3).
  split; [assumption|]. exists e. repeat split; auto.
  intros k' e' Hin Hne. apply (E3 (k', e') Hin).
  unfold is_others. simpl. destruct (key_eqb k' Kothers) eqn:E; [|reflexivity].
  apply key_eqb_eq in E. contradiction.
Qed.

End LongStrings.

Definition three_segments : dict entry :=
  [(Kdiseases, mkEntry (lit "(d)") 3000); (Ktissues, mkEntry (lit "(t)") 800);
   (Kothers, mkEntry (lit "o") 9000); (Kgenes, mkEntry (lit "(g)") 5000)].

Lemma identify_long_queries_moves_the_longest_witness :
  exists shorter long_strs,
    identify_long_queries 4 three_segments 7500 = Ret (shorter, long_strs) /\
    sum (create_query_length_list shorter) <= 7500 - 500 /\
    (forall k e, In (k, e) shorter -> In (k, e) three_segments) /\
    (forall k e, In (k, e) three_segments ->
                 In (k, e) shorter \/ In (k, e_string e) long_strs) /\
    (forall k, In k (dict_keys long_strs) -> ~ In k (dict_keys shorter)) /\
    (forall k s, In (k, s) long_strs ->
       k <> Kothers /\
       exists e, In (k, e) three_segments /\ e_string e = s /\
                 forall k' e', In (k', e') shorter -> k' <> Kothers ->
                               e_len e' < e_len e).
Proof.
  apply (@identify_long_queries_moves_the_longest three_segments).
  - unfold three_segments, dict_keys. simpl.
    repeat constructor; simpl; intuition discriminate.
  - lia.
  - simpl. lia.
Defined.

(** ** [create_epmc_queries] on strings that can be encoded *)

Lemma sum_lens_nonneg (d : dict entry) :
  Forall (fun kv => 0 <= e_len (snd kv)) d -> 0 <= sum (lens d).
Proof.
  intros H. unfold lens, create_query_length_list. rewrite sum_zsum, zsum_map.
  apply zsum_nonneg. apply Forall_forall. intros kv Hkv.
  apply filter_In in Hkv as [Hkv _]. exact (proj1 (Forall_forall _ _) H kv Hkv).
Qed.

Lemma identify_long_while_hangs (max_length : Z) :
  max_length < 500 ->
  forall (fuel : nat) (d : dict entry) (l : dict str),
    NoDup (dict_keys d) -> Forall (fun kv => 0 <= e_len (snd kv)) d ->
    identify_long_while fuel max_length (lens d) d l = Timeout.
Proof.
  intros Hmax. induction fuel as [|fuel IH]; intros d l Hnd Hpos.
  - simpl. pose proof (sum_lens_nonneg Hpos).
    destruct (Z.gtb_spec (sum (lens d)) (max_length - 500)); [reflexivity | lia].
  - assert (C : (sum (lens d) >? max_length - 500) = true).
    { pose proof (sum_lens_nonneg Hpos).
      destruct (Z.gtb_spec (sum (lens d)) (max_length - 500)); [reflexivity | lia]. }
    destruct (list_eq_dec Z.eq_dec (lens d) []) as [E|Hne].
    + pose proof (@identify_long_for_others_only (lens d) (dict_keys d) d l
                    (@lens_empty d E)) as Hfor.
      rewrite (@identify_long_while_step fuel _ _ _ _ _ _ C Hfor).
      change (create_query_length_list d) with (lens d). now apply IH.
    + destruct (@py_max_spec (lens d) Hne) as (mx & Hmx & _ & _).
      pose proof (@identify_long_for_value (lens d) mx d Hmx [] l Hnd) as Hfor.
      simpl app in Hfor.
      rewrite (@identify_long_while_step fuel _ _ _ _ _ _ C Hfor).
      change (create_query_length_list (kept_of mx d)) with (lens (kept_of mx d)).
      apply IH; [now apply nodup_keys_filter|].
      apply Forall_forall. intros kv Hkv. apply filter_In in Hkv as [Hkv _].
      exact (proj1 (Forall_forall _ _) Hpos kv Hkv).
Qed.

Lemma len_dict_of_keys (diseases tissues others genes : str) (kwds : list str) :
  NoDup (dict_keys (len_dict_of diseases tissues others genes kwds)).
Proof.
  unfold len_dict_of, dict_keys. rewrite map_app, map_map. simpl.
  assert (H : forall i, NoDup (map (fun ik : nat * str => Kkwd (fst ik))
                                   (enumerate_from i kwds)) /\
                        forall k, In k (map (fun ik : nat * str => Kkwd (fst ik))
                                            (enumerate_from i kwds)) ->
                                  exists j, k = Kkwd j /\ (i <= j)%nat).
  { induction kwds as [|x kwds IH]; intros i; simpl.
    - split; [constructor | tauto].
    - destruct (IH (S i)) as [N1 N2]. split.
      + constructor; [|assumption]. intros Hin.
        destruct (N2 _ Hin) as (j & Hj & Hle). injection Hj as <-. lia.
      + intros k [<-|Hk]; [exists i; split; [reflexivity | lia]|].
        destruct (N2 _ Hk) as (j & -> & Hle). exists j. split; [reflexivity | lia]. }
  destruct (H 1%nat) as [N1 N2].
  repeat constructor; try assumption; simpl; intros Hin;
    repeat match goal with
           | H : _ \/ _ |- _ => destruct H as [H|H]; try discriminate
           end;
    destruct (N2 _ Hin) as (j & Hj & _); discriminate.
Qed.

Lemma len_dict_of_nonneg (diseases tissues others genes : str) (kwds : list str) :
  Forall (fun kv => 0 <= e_len (snd kv)) (len_dict_of diseases tissues others genes kwds).
Proof.
  unfold len_dict_of. apply Forall_app. split.
  - repeat constructor; apply est_val_bounds.
  - apply Forall_forall. intros kv Hkv. apply in_map_iff in Hkv as (ik & <- & _).
    apply est_val_bounds.
Qed.

Lemma lens_len_dict_of (diseases tissues others genes : str) (kwds : list str) :
  lens (len_dict_of diseases tissues others genes kwds)
  = map est_val (diseases :: tissues :: genes :: kwds).
Proof.
  unfold lens, create_query_length_list, len_dict_of. simpl. do 3 f_equal.
  generalize 1%nat. induction kwds as [|x kwds IH]; intros i; simpl;
    [reflexivity | now rewrite IH].
Qed.

Lemma sum_lens_len_dict_of (diseases tissues others genes : str) (kwds : list str) :
  sum (lens (len_dict_of diseases tissues others genes kwds))
  = zsum est_val (diseases :: tissues :: genes :: kwds).
Proof. now rewrite lens_len_dict_of, sum_zsum, zsum_map. Qed.

(** The two branches of [create_epmc_queries], once the length dictionary is
    known. *)
Lemma create_epmc_queries_branches (self : Query) (fuel : nat)
  (diseases tissues others genes : str) (kwds : list str) (ev : list event) :
  Forall (fun s => encodableb s = true) (diseases :: tissues :: others :: genes :: kwds) ->
  create_epmc_queries self fuel diseases tissues others genes kwds ev
  = if zsum est_val (diseases :: tissues :: genes :: kwds) + 20 >? 7500 - est_val others
    then
      (r <-- split_long_queries self fuel
               (len_dict_of diseases tissues others genes kwds) (7500 - est_val others) ;;
       let '(len_dict, chunk_combinations) := r in
       mret (map (fun combo =>
                    join (lit " & ") (map rewrap combo) ++ lit " & " ++
                    join (lit " & ")
                         (filter non_empty_part (map (fun kv => e_string (snd kv)) len_dict)))
                 chunk_combinations))%m ev
    else
      (ev, Ret [join (lit " & ")
                     (filter non_empty_part ([genes; diseases; tissues; others] ++ kwds))]).
Proof.
  intros Henc. unfold create_epmc_queries.
  unfold mbind at 1. unfold lift at 1. rewrite (make_len_dict_value Henc).
  unfold mbind at 1. unfold lift at 1.
  change (dict_get (len_dict_of diseases tissues others genes kwds) Kothers)
    with (Ret (len_entry others)).
  cbn [e_len len_entry].
  change (create_query_length_list (len_dict_of diseases tissues others genes kwds))
    with (lens (len_dict_of diseases tissues others genes kwds)).
  rewrite sum_lens_len_dict_of.
  destruct (_ >? _); [reflexivity|].
  unfold mret. now rewrite filter_app.
Qed.

(** X6. When the estimate of the settings string is over 7000 and the query
    has to be split, [create_epmc_queries] does not return: the loop of
    [identify_long_queries] has nothing left to move and its condition stays
    true. This is so whenever the estimate of the settings is over 7480. *)
Theorem encoded_settings_too_long_never_returns (self : Query) (fuel : nat)
  (diseases tissues others genes : str) (kwds : list str) (ev : list event) :
  Forall (fun s => encodableb s = true) (diseases :: tissues :: others :: genes :: kwds) ->
  7000 < est_val others ->
  (7480 < est_val others \/
   zsum est_val (diseases :: tissues :: genes :: kwds) + 20 > 7500 - est_val others) ->
  create_epmc_queries self fuel diseases tissues others genes kwds ev = (ev, Timeout).
Proof.
  intros Henc Hlong Hsplit.
  rewrite (create_epmc_queries_branches self fuel ev Henc).
  assert (C : (zsum est_val (diseases :: tissues :: genes :: kwds) + 20
               >? 7500 - est_val others) = true).
  { assert (0 <= zsum est_val (diseases :: tissues :: genes :: kwds))
      by (apply zsum_nonneg, zsum_est_val_nonneg).
    destruct (Z.gtb_spec (zsum est_val (diseases :: tissues :: genes :: kwds) + 20)
                         (7500 - est_val others)); [reflexivity | lia]. }
  rewrite C. unfold mbind at 1. unfold split_long_queries.
  unfold mbind at 1. unfold lift at 1. unfold identify_long_queries.
  change (create_query_length_list (len_dict_of diseases tissues others genes kwds))
    with (lens (len_dict_of diseases tissues others genes kwds)).
  rewrite identify_long_while_hangs;
    [reflexivity | lia | apply len_dict_of_keys | apply len_dict_of_nonneg].
Qed.

Definition quoted_settings : str := lit "TITLE:" ++ repeat 34%N 2500.

Lemma encoded_settings_too_long_never_returns_witness :
  (length quoted_settings <= 4500)%nat /\
  create_epmc_queries long_gene_query 1000 [] [] quoted_settings (lit "(g)") [] []
  = ([], Timeout).
Proof.
  split; [vm_compute; lia|].
  apply (@encoded_settings_too_long_never_returns long_gene_query 1000 [] []
           quoted_settings (lit "(g)") [] []).
  - repeat constructor; vm_compute; reflexivity.
  - vm_compute. reflexivity.
  - left. vm_compute. reflexivity.
Defined.

(** X7. When the estimates of the segments other than the settings, plus 20,
    do not exceed 7500 less the estimate of the settings, one query is
    returned, whatever the fuel and without any record in the log: the
    segments that are neither empty nor [()], joined on [ & ] in the order
    genes, diseases, tissues, settings, keywords. *)
Theorem short_query_is_one_query (self : Query) (fuel : nat)
  (diseases tissues others genes : str) (kwds : list str) (ev : list event) :
  Forall (fun s => encodableb s = true) (diseases :: tissues :: others :: genes :: kwds) ->
  zsum est_val (diseases :: tissues :: genes :: kwds) + 20 <= 7500 - est_val others ->
  create_epmc_queries self fuel diseases tissues others genes kwds ev
  = (ev, Ret [join (lit " & ")
                   (filter non_empty_part ([genes; diseases; tissues; others] ++ kwds))]).
Proof.
  intros Henc Hshort.
  rewrite (create_epmc_queries_branches self fuel ev Henc).
  destruct (Z.gtb_spec (zsum est_val (diseases :: tissues :: genes :: kwds) + 20)
                       (7500 - est_val others)); [lia | reflexivity].
Qed.

Lemma short_query_is_one_query_witness :
  create_epmc_queries long_gene_query 0
    (lit "(TITLE:asthma)") [] (lit "PUB_YEAR:2020") (lit "(TITLE:ABC1)") [lit "()"] []
  = ([], Ret [lit "(TITLE:ABC1) & (TITLE:asthma) & PUB_YEAR:2020"]).
Proof.
  apply (@short_query_is_one_query long_gene_query 0
           (lit "(TITLE:asthma)") [] (lit "PUB_YEAR:2020") (lit "(TITLE:ABC1)") [lit "()"] []).
  - repeat constructor; vm_compute; reflexivity.
  - vm_compute. discriminate.
Defined.

(** ** The settings in the queries *)

Lemma join_in (sep x : str) (l : list str) :
  In x l -> exists a b, join sep l = a ++ x ++ b.
Proof.
  induction l as [|y l IH]; [intros []|].
  intros [->|Hin].
  - destruct l as [|z l].
    + exists [], []. simpl. now rewrite app_nil_r.
    + exists [], (sep ++ join sep (z :: l)). reflexivity.
  - destruct l as [|z l]; [destruct Hin|].
    destruct (IH Hin) as (a & b & E).
    exists (y ++ sep ++ a), b. rewrite join_cons, E. now rewrite <- !app_assoc.
Qed.

Lemma encodable_or_fails (diseases tissues others genes : str) (kwds : list str)
  (d : dict entry) :
  make_len_dict diseases tissues others genes kwds = Ret d ->
  Forall (fun s => encodableb s = true) (diseases :: tissues :: others :: genes :: kwds).
Proof.
  intros H.
  destruct (forallb encodableb (diseases :: tissues :: others :: genes :: kwds)) eqn:E.
  - apply Forall_forall. intros s Hs. exact (proj1 (forallb_forall _ _) E s Hs).
  - rewrite (make_len_dict_not_encodable _ _ _ _ _ E) in H. discriminate.
Qed.

Lemma create_epmc_queries_encodable (self : Query) (fuel : nat)
  (diseases tissues others genes : str) (kwds : list str) (ev ev' : list event)
  (queries : list str) :
  create_epmc_queries self fuel diseases tissues others genes kwds ev = (ev', Ret queries) ->
  Forall (fun s => encodableb s = true) (diseases :: tissues :: others :: genes :: kwds).
Proof.
  unfold create_epmc_queries. intros H.
  apply mbind_ret in H as (d & ev1 & Hd & _). apply lift_ret in Hd as [Hd _].
  exact (encodable_or_fails _ _ _ _ _ Hd).
Qed.

Lemma identify_long_while_exit (max_length : Z) (fuel : nat) :
  forall (d d' : dict entry) (l l' : dict str),
    identify_long_while fuel max_length (lens d) d l = Ret (d', l') ->
    sum (lens d') <= max_length - 500.
Proof.
  induction fuel as [|fuel IH]; intros d d' l l' H; simpl in H.
  - destruct (Z.gtb_spec (sum (lens d)) (max_length - 500)); [discriminate|].
    injection H as <- <-. lia.
  - destruct (Z.gtb_spec (sum (lens d)) (max_length - 500)).
    + apply obind_ret in H as ([d1 l1] & _ & H). exact (IH _ _ _ _ H).
    + injection H as <- <-. lia.
Qed.

Lemma split_long_queries_shorter (self : Query) (fuel : nat) (len_dict shorter : dict entry)
  (max_length : Z) (ev ev' : list event) (combos : list (list str)) :
  split_long_queries self fuel len_dict max_length ev = (ev', Ret (shorter, combos)) ->
  sum (lens shorter) <= max_length - 500 /\
  filter (@is_others entry) shorter = filter (@is_others entry) len_dict /\
  (forall kv, In kv shorter -> In kv len_dict).
Proof.
  intros H. pose proof H as H'. unfold split_long_queries in H.
  apply mbind_ret in H as ([short long] & ev1 & Hid & H).
  apply lift_ret in Hid as [Hid ->].
  apply mbind_ret in H as (cs & ev2 & _ & H).
  apply mbind_ret in H as (chunks & ev3 & _ & H).
  apply mret_ret in H as [H _]. injection H as <- _.
  split; [exact (identify_long_while_exit _ _ _ _ Hid)|].
  destruct (split_long_queries_spec _ _ _ _ _ H') as (K1 & K2 & _).
  split; [exact K1|].
  intros kv Hkv.
  exact (proj1 (Forall_forall _ _)
               (K2 (fun kv => In kv len_dict) (proj2 (Forall_forall _ _) (fun x Hx => Hx)))
               kv Hkv).
Qed.

(** X8. A settings string that is neither empty nor [()] is part of every
    query [create_epmc_queries] returns, whether the query was split or not. *)
Theorem settings_in_every_query (self : Query) (fuel : nat)
  (diseases tissues others genes : str) (kwds : list str) (ev ev' : list event)
  (queries : list str) :
  create_epmc_queries self fuel diseases tissues others genes kwds ev = (ev', Ret queries) ->
  non_empty_part others = true ->
  Forall (fun q => exists a b, q = a ++ others ++ b) queries.
Proof.
  intros H Hne. pose proof (create_epmc_queries_encodable _ _ _ _ _ _ _ _ H) as Henc.
  rewrite (create_epmc_queries_branches self fuel ev Henc) in H.
  destruct (_ >? _).
  - apply mbind_ret in H as ([short combos] & ev1 & Hsplit & H).
    apply mret_ret in H as [<- _].
    destruct (split_long_queries_shorter _ _ _ _ _ Hsplit) as (_ & K1 & _).
    assert (Hin : In others (filter non_empty_part
                               (map (fun kv : key * entry => e_string (snd kv)) short))).
    { apply filter_In. split; [|assumption].
      apply in_map_iff. exists (Kothers, len_entry others). split; [reflexivity|].
      assert (Hf : In (Kothers, len_entry others) (filter (@is_others entry) short)).
      { rewrite K1. unfold len_dict_of. rewrite filter_app. apply in_or_app. left.
        simpl. now left. }
      now apply filter_In in Hf as [Hf _]. }
    destruct (join_in (lit " & ") _ _ Hin) as (a & b & E).
    apply Forall_forall. intros q Hq. apply in_map_iff in Hq as (combo & <- & _).
    rewrite E. exists (join (lit " & ") (map rewrap combo) ++ lit " & " ++ a), b.
    now rewrite <- !app_assoc.
  - assert (E : queries = [join (lit " & ")
                                  (filter non_empty_part
                                          ([genes; diseases; tissues; others] ++ kwds))])
      by congruence.
    subst queries. constructor; [|constructor].
    apply join_in. apply filter_In. split; [|assumption].
    apply in_or_app. left. simpl. auto.
Qed.

(** A gene with 20 synonyms of about 150 letters: its query string is
    estimated at more than 7500 and is split. *)
Definition wide_gene_syns : list str :=
  map (fun i => repeat (ch "A") 150 ++ str_of_nat i) (seq 0 20).
Definition wide_gene_query : Query :=
  mkQuery ArgNone ArgNone None None false 1 [] [] [] [] wide_gene_syns [].
Definition wide_gene_string : str :=
  add_abstract_title_and_join_synonyms wide_gene_syns true false.

Lemma settings_in_every_query_witness :
  exists queries,
    create_epmc_queries wide_gene_query 200 [] [] (lit "PUB_YEAR:2020") wide_gene_string [] []
    = ([], Ret queries) /\
    length queries = 2%nat /\
    Forall (fun q => exists a b, q = a ++ lit "PUB_YEAR:2020" ++ b) queries.
Proof.
  eassert (E : create_epmc_queries wide_gene_query 200 [] [] (lit "PUB_YEAR:2020")
                 wide_gene_string [] [] = ([], Ret _)) by (vm_compute; reflexivity).
  eexists. split; [exact E|]. split; [reflexivity|].
  exact (@settings_in_every_query wide_gene_query 200 [] [] (lit "PUB_YEAR:2020")
           wide_gene_string [] [] [] _ E eq_refl).
Defined.

Lemma endswith_app (a p : str) : endswith (a ++ p) p = true.
Proof. unfold endswith. rewrite rev_app_distr. apply startswith_self. Qed.

Lemma sum_lens_in (d : dict entry) (kv : key * entry) :
  Forall (fun kv => 0 <= e_len (snd kv)) d ->
  In kv d -> is_others kv = false -> e_len (snd kv) <= sum (lens d).
Proof.
  intros Hpos Hin Ho. unfold lens, create_query_length_list.
  rewrite sum_zsum, zsum_map.
  induction d as [|x d IH]; [destruct Hin|].
  inversion Hpos as [|? ? Hx Hd]; subst. simpl.
  assert (Hrest : 0 <= zsum (fun kv0 : key * entry => e_len (snd kv0))
                         (filter (fun kv0 : key * entry => negb (key_eqb (fst kv0) Kothers)) d)).
  { apply zsum_nonneg. apply Forall_forall. intros y Hy.
    apply filter_In in Hy as [Hy _]. exact (proj1 (Forall_forall _ _) Hd y Hy). }
  destruct Hin as [->|Hin].
  - unfold is_others in Ho. rewrite Ho. simpl. lia.
  - specialize (IH Hd Hin). destruct (key_eqb (fst x) Kothers); simpl; lia.
Qed.

(** X9. When the gene string is the only segment and has to be split, every
    query ends with the separator [ & ]: the string of the segments that are
    not split is empty and is appended all the same. *)
Theorem split_gene_only_query_ends_with_separator (self : Query) (fuel : nat)
  (genes : str) (ev ev' : list event) (queries : list str) :
  create_epmc_queries self fuel [] [] [] genes [] ev = (ev', Ret queries) ->
  7480 < est_val genes ->
  Forall (fun q => endswith q (lit " & ") = true) queries.
Proof.
  intros H Hlong. pose proof (create_epmc_queries_encodable _ _ _ _ _ _ _ _ H) as Henc.
  rewrite (create_epmc_queries_branches self fuel ev Henc) in H.
  destruct (_ >? _) eqn:C in H.
  2:{ rewrite Z.gtb_ltb in C. apply Z.ltb_ge in C. simpl in C. lia. }
  apply mbind_ret in H as ([short combos] & ev1 & Hsplit & H).
  apply mret_ret in H as [<- _].
  destruct (split_long_queries_shorter _ _ _ _ _ Hsplit) as (Hsum & _ & Hsub).
  assert (Hpos : Forall (fun kv : key * entry => 0 <= e_len (snd kv)) short).
  { apply Forall_forall. intros kv Hkv.
    exact (proj1 (Forall_forall _ _) (len_dict_of_nonneg [] [] [] genes []) kv (Hsub kv Hkv)). }
  assert (Hempty : filter non_empty_part
                     (map (fun kv : key * entry => e_string (snd kv)) short) = []).
  { apply filter_none. intros s Hs.
    apply in_map_iff in Hs as (kv & <- & Hkv).
    pose proof (Hsub kv Hkv) as Hin. unfold len_dict_of in Hin. simpl in Hin.
    destruct Hin as [<-|[<-|[<-|[<-|[]]]]]; try reflexivity.
    exfalso. pose proof (@sum_lens_in short (Kgenes, len_entry genes) Hpos Hkv eq_refl) as Hge.
    cbn [snd e_len len_entry] in Hge. change (est_val []) with 0 in Hsum.
    unfold str in *. lia. }
  rewrite Hempty. apply Forall_forall. intros q Hq.
  apply in_map_iff in Hq as (combo & <- & _).
  simpl join at 2. rewrite app_nil_r. apply endswith_app.
Qed.

Lemma split_gene_only_query_ends_with_separator_witness :
  exists queries,
    create_epmc_queries wide_gene_query 200 [] [] [] wide_gene_string [] []
    = ([], Ret queries) /\
    length queries = 2%nat /\
    Forall (fun q => endswith q (lit " & ") = true) queries.
Proof.
  eassert (E : create_epmc_queries wide_gene_query 200 [] [] [] wide_gene_string [] []
               = ([], Ret _)) by (vm_compute; reflexivity).
  assert (Hlong : 7480 < est_val wide_gene_string) by (vm_compute; reflexivity).
  eexists. split; [exact E|]. split; [reflexivity|].
  exact (@split_gene_only_query_ends_with_separator wide_gene_query 200
           wide_gene_string [] [] _ E Hlong).
Defined.

(** ** The chunk builder when every synonym fits *)

Lemma encodableb_field_query (search_in_kwds : bool) (syn : str) :
  encodableb syn = true -> encodableb (field_query search_in_kwds syn) = true.
Proof.
  intros H. unfold field_query. destruct (startswith syn (lit "(TITLE:")).
  - now apply encodableb_strip.
  - destruct search_in_kwds; rewrite !encodableb_app, H; reflexivity.
Qed.

Lemma encodableb_aj (l : list str) :
  Forall (fun s => encodableb s = true) l -> encodableb (aj l) = true.
Proof.
  intros H. rewrite aj_unfold, !encodableb_app. simpl.
  rewrite andb_true_r. apply encodableb_join; [reflexivity|].
  apply Forall_forall. intros x Hx. apply in_map_iff in Hx as (s & <- & Hs).
  apply encodableb_field_query. exact (proj1 (Forall_forall _ _) H s Hs).
Qed.

Lemma Forall_firstn (A : Type) (P : A -> Prop) (n : nat) (l : list A) :
  Forall P l -> Forall P (firstn n l).
Proof.
  intros H. rewrite <- (firstn_skipn n l) in H. now apply Forall_app in H as [H _].
Qed.

Lemma Forall_skipn (A : Type) (P : A -> Prop) (n : nat) (l : list A) :
  Forall P l -> Forall P (skipn n l).
Proof.
  intros H. rewrite <- (firstn_skipn n l) in H. now apply Forall_app in H as [_ H].
Qed.

Lemma chunk_inner_returns (chunk_size : Z) (syns : list str) :
  Forall (fun s => encodableb s = true) syns ->
  forall (fuel i : nat) (qs : str) (ql : Z) (fin : bool),
    (fin = false -> (i < length syns)%nat) -> (i <= length syns)%nat ->
    (length syns - i <= fuel)%nat ->
    exists (i' : nat) (qs' : str) (fin' : bool),
      chunk_inner fuel chunk_size syns i qs ql fin = Ret (i', qs', fin') /\
      (i' <= length syns)%nat /\
      ((i' = i /\ qs' = qs /\ (ql <=? chunk_size) && negb fin = false) \/
       ((i < i')%nat /\ qs' = aj (firstn i' syns))) /\
      (fin' = true -> fin = true \/ i' = length syns).
Proof.
  intros Henc. induction fuel as [|fuel IH]; intros i qs ql fin Hfin Hi Hfuel.
  - destruct ((ql <=? chunk_size) && negb fin) eqn:C.
    + apply andb_true_iff in C as [_ C]. apply negb_true_iff in C.
      specialize (Hfin C). lia.
    + exists i, qs, fin. rewrite (chunk_inner_stop _ _ _ _ _ _ _ C).
      repeat split; auto.
  - rewrite chunk_inner_unfold.
    destruct ((ql <=? chunk_size) && negb fin) eqn:C.
    2:{ exists i, qs, fin. repeat split; auto. }
    apply andb_true_iff in C as [_ C]. apply negb_true_iff in C. subst fin.
    specialize (Hfin eq_refl).
    destruct (quote_plus_encodable _ (encodableb_aj (Forall_firstn (S i) Henc))) as [e1 He1].
    rewrite He1. cbn [obind].
    destruct (nth_error syns (S i)) as [s|] eqn:Hs.
    + assert (Hlt : (S i < length syns)%nat) by (apply nth_error_Some; congruence).
      assert (Hse : encodableb s = true).
      { apply nth_error_In in Hs. exact (proj1 (Forall_forall _ _) Henc s Hs). }
      destruct (quote_plus_encodable _ Hse) as [e2 He2]. rewrite He2. cbn [obind].
      destruct (IH (S i) (aj (firstn (S i) syns))
                   (Z.of_nat (length e1) + Z.of_nat (length e2) * 3 + 62) false)
        as (i' & qs' & fin' & Hr & B1 & B2 & B3); [auto | lia | lia |].
      exists i', qs', fin'. split; [exact Hr|]. split; [exact B1|]. split.
      * right. destruct B2 as [(-> & -> & _)|[B2 ->]]; split; auto; lia.
      * intros F. destruct (B3 F) as [|]; [discriminate | now right].
    + assert (Hge : (length syns <= S i)%nat) by (now apply nth_error_None).
      destruct (IH (S i) (aj (firstn (S i) syns)) ql true)
        as (i' & qs' & fin' & Hr & B1 & B2 & B3); [discriminate | lia | lia |].
      exists i', qs', fin'. split; [exact Hr|]. split; [exact B1|]. split.
      * right. destruct B2 as [(-> & -> & _)|[B2 ->]]; split; auto; lia.
      * intros _. right. destruct B2 as [(-> & _)|[B2 _]]; lia.
Qed.

(** A synonym fits a chunk size when it can be encoded and three times its
    encoded length, plus 62, is within the size. *)
Definition fits (chunk_size : Z) (s : str) : Prop :=
  encodableb s = true /\ 3 * qlen s + 62 <= chunk_size.

Lemma chunk_while_total (k : key) (chunk_size : Z) :
  forall (fuel : nat) (st : chunking) (ev : list event),
    c_i st = 0%nat -> c_querystring st = [] ->
    (c_finished st = true -> c_syns st = []) ->
    Forall (fits chunk_size) (c_syns st) ->
    (length (c_syns st) < fuel)%nat ->
    exists chunks,
      chunk_while fuel k chunk_size st ev
      = (ev, Ret (c_querystrings st ++ map aj chunks)) /\
      concat chunks = c_syns st /\ Forall (fun c => c <> []) chunks.
Proof.
  induction fuel as [|fuel IH]; intros st ev Hi Hq Hf Hfit Hfuel; [lia|].
  rewrite chunk_while_unfold.
  destruct (c_syns st) as [|s0 rest] eqn:Hsyns.
  - exists []. simpl. rewrite app_nil_r. repeat split. constructor.
  - assert (Hfin : c_finished st = false).
    { destruct (c_finished st); [|reflexivity]. specialize (Hf eq_refl). discriminate. }
    inversion Hfit as [|? ? [Hs0 Hs0len] Hrest]; subst.
    assert (Henc : Forall (fun s => encodableb s = true) (s0 :: rest)).
    { eapply Forall_impl; [|exact Hfit]. intros s [H _]. exact H. }
    destruct (quote_plus_encodable _ Hs0) as [e2 He2].
    pose proof (quote_plus_ret _ He2) as [_ Hlen2].
    unfold mbind at 1. unfold lift at 1. unfold next_len.
    rewrite Hq, Hi. cbn [quote_plus obind getitem nth_error]. rewrite He2.
    cbn [obind length Z.of_nat Z.add Nat.eqb andb].
    destruct (Z.gtb_spec (Z.of_nat (length e2) * 3 + 62) chunk_size) as [Hgt|_]; [lia|].
    rewrite Hfin.
    destruct (@chunk_inner_returns chunk_size (s0 :: rest) Henc fuel 0 []
                (Z.of_nat (length e2) * 3 + 62) false)
      as (i' & qs' & fin' & Hr & B1 & B2 & B3);
      [simpl; lia | simpl; lia | simpl in *; lia |].
    unfold mbind at 1. unfold lift at 1. rewrite Hr. cbv zeta.
    destruct B2 as [(_ & _ & C)|[Hpos ->]].
    { exfalso. cbn [negb] in C. rewrite andb_true_r in C. apply Z.leb_gt in C. lia. }
    assert (Hle : (i' <=? S (length rest))%nat = true).
    { apply Nat.leb_le. change (length (s0 :: rest)) with (S (length rest)) in B1. lia. }
    cbn [length]. rewrite Hle.
    destruct (IH (mkChunking (skipn i' (s0 :: rest)) []
                             (c_querystrings st ++ [aj (firstn i' (s0 :: rest))]) 0 fin') ev)
      as (chunks & Hc & Hcat & Hne).
    + reflexivity.
    + reflexivity.
    + cbn [c_finished c_syns]. intros F. destruct (B3 F) as [|E]; [discriminate|].
      apply skipn_all2. lia.
    + cbn [c_syns]. now apply Forall_skipn.
    + cbn [c_syns]. rewrite length_skipn.
      change (length (s0 :: rest)) with (S (length rest)) in *. lia.
    + exists (firstn i' (s0 :: rest) :: chunks). split; [|split].
      * rewrite Hc. cbn [c_querystrings map]. now rewrite <- app_assoc.
      * cbn [concat c_syns] in *. rewrite Hcat. apply firstn_skipn.
      * constructor; [|assumption]. destruct i'; [lia | discriminate].
Qed.

(** X10. When every synonym fits the chunk size, the chunk builder of
    [split_long_queries] returns without logging anything as soon as the
    fuel exceeds the number of synonyms; the query strings it returns are
    those of consecutive, non-empty groups of the synonyms, so that every
    synonym is in one query string and none is lost. *)
Theorem chunks_cover_the_synonyms (k : key) (chunk_size : Z) (syns : list str)
  (fuel : nat) (ev : list event) :
  Forall (fits chunk_size) syns -> (length syns < fuel)%nat ->
  exists chunks,
    chunk_while fuel k chunk_size (mkChunking syns [] [] 0 false) ev
    = (ev, Ret (map (fun c => add_abstract_title_and_join_synonyms c true false) chunks)) /\
    concat chunks = syns /\ Forall (fun c => c <> []) chunks.
Proof.
  intros Hfit Hfuel.
  destruct (@chunk_while_total k chunk_size fuel (mkChunking syns [] [] 0 false) ev)
    as (chunks & H1 & H2 & H3); auto; try discriminate.
  exists chunks. auto.
Qed.

Lemma chunks_cover_the_synonyms_witness :
  exists chunks,
    chunk_while 4 Kgenes 300 (mkChunking [lit "ABC1"; lit "ABC 1"; lit "ABCA1"] [] [] 0 false) []
    = ([], Ret (map (fun c => add_abstract_title_and_join_synonyms c true false) chunks)) /\
    concat chunks = [lit "ABC1"; lit "ABC 1"; lit "ABCA1"] /\
    Forall (fun c => c <> []) chunks.
Proof.
  apply (@chunks_cover_the_synonyms Kgenes 300 [lit "ABC1"; lit "ABC 1"; lit "ABCA1"] 4 []).
  - repeat constructor; vm_compute; congruence.
  - simpl. lia.
Defined.

(** ** One record for each identifier *)

Lemma unique_by_id_snoc (l : list doc) (d : doc) :
  unique_by_id (l ++ [d]) = put_by_id d (unique_by_id l).
Proof. unfold unique_by_id. now rewrite fold_left_app. Qed.

Lemma put_by_id_in (d x : doc) (acc : list doc) :
  NoDup (map ID acc) ->
  (In x (put_by_id d acc) <-> x = d \/ (In x acc /\ ID x <> ID d)).
Proof.
  induction acc as [|a acc IH]; simpl; intros Hnd.
  - split; [intros [H|[]]; auto | intros [H|[[] _]]; auto].
  - inversion Hnd as [|? ? Hn Hd]; subst.
    destruct (str_eqb (ID a) (ID d)) eqn:E.
    + apply str_eqb_eq in E. simpl. split.
      * intros [H|H]; [auto|]. right. split; [auto|].
        intros Hx. apply Hn. rewrite E, <- Hx. now apply in_map.
      * intros [H|[[H|H] Hne]]; [auto | subst; congruence | auto].
    + apply str_eqb_neq in E. simpl. rewrite (IH Hd). split.
      * intros [H|[H|[H1 H2]]]; [subst; auto | auto | auto].
      * intros [H|[[H|H] Hne]]; auto.
Qed.

Lemma existsb_same_members (x : str) (l1 l2 : list str) :
  (forall z, In z l1 <-> In z l2) ->
  existsb (str_eqb x) l1 = existsb (str_eqb x) l2.
Proof.
  intros H. destruct (existsb (str_eqb x) l1) eqn:E1, (existsb (str_eqb x) l2) eqn:E2;
    try reflexivity.
  - apply existsb_str_eqb in E1. apply H in E1. apply existsb_str_eqb in E1. congruence.
  - apply existsb_str_eqb in E2. apply H in E2. apply existsb_str_eqb in E2. congruence.
Qed.

Lemma dedup_snoc (m : list str) (x : str) :
  forall seen,
    dedup (m ++ [x]) seen
    = dedup m seen ++ (if existsb (str_eqb x) (m ++ seen) then [] else [x]).
Proof.
  induction m as [|y m IH]; intros seen; simpl.
  - destruct (existsb (str_eqb x) seen); reflexivity.
  - destruct (existsb (str_eqb y) seen) eqn:E.
    + rewrite IH. f_equal.
      assert (Hb : existsb (str_eqb x) (m ++ seen)
                   = (str_eqb x y || existsb (str_eqb x) (m ++ seen))%bool).
      { destruct (str_eqb x y) eqn:Exy; [|reflexivity]. simpl.
        apply str_eqb_eq in Exy. subst y. apply existsb_str_eqb.
        apply in_or_app. right. now apply existsb_str_eqb. }
      now rewrite <- Hb.
    + rewrite IH. simpl. do 2 f_equal.
      assert (Hb : existsb (str_eqb x) (m ++ y :: seen)
                   = (str_eqb x y || existsb (str_eqb x) (m ++ seen))%bool).
      { change (str_eqb x y || existsb (str_eqb x) (m ++ seen))%bool
          with (existsb (str_eqb x) (y :: m ++ seen)).
        apply existsb_same_members. intros z. rewrite !in_app_iff. simpl.
        rewrite !in_app_iff. tauto. }
      now rewrite Hb.
Qed.

Lemma first_seen_snoc (m : list str) (x : str) :
  first_seen (m ++ [x])
  = if existsb (str_eqb x) m then first_seen m else first_seen m ++ [x].
Proof.
  unfold first_seen. rewrite dedup_snoc, app_nil_r.
  destruct (existsb (str_eqb x) m); [apply app_nil_r | reflexivity].
Qed.

Lemma first_seen_in (m : list str) (x : str) : In x (first_seen m) <-> In x m.
Proof. unfold first_seen. rewrite dedup_in. simpl. tauto. Qed.

(** X11. [list({v['ID']: v for v in doc_info_list}.values())] holds one record
    for each identifier, in the order in which the identifiers first occur,
    and the record it holds for an identifier is the last one of the list
    with it. *)
Theorem unique_by_id_keeps_last (doc_info_list : list doc) :
  map ID (unique_by_id doc_info_list) = first_seen (map ID doc_info_list) /\
  NoDup (map ID (unique_by_id doc_info_list)) /\
  forall d, In d (unique_by_id doc_info_list) <->
            exists before after,
              doc_info_list = before ++ d :: after /\
              Forall (fun x => ID x <> ID d) after.
Proof.
  induction doc_info_list as [|d0 l IH] using rev_ind.
  - split; [reflexivity|]. split; [constructor|].
    intros d. split; [intros [] | intros (b & a & H & _); now destruct b].
  - destruct IH as (IH1 & IH2 & IH3).
    rewrite unique_by_id_snoc. split; [|split].
    + rewrite put_by_id_ids, map_app, IH1. simpl map.
      rewrite first_seen_snoc.
      rewrite (@existsb_same_members (ID d0) (first_seen (map ID l)) (map ID l)
                 (first_seen_in (map ID l))).
      reflexivity.
    + rewrite <- unique_by_id_snoc. apply unique_by_id_nodup.
    + intros d. rewrite (@put_by_id_in d0 d (unique_by_id l) IH2). split.
      * intros [->|[Hin Hne]].
        -- exists l, []. split; [reflexivity | constructor].
        -- apply IH3 in Hin as (b & a & -> & Ha).
           exists b, (a ++ [d0]). split; [now rewrite <- app_assoc|].
           apply Forall_app. split; [assumption|]. constructor; [congruence | constructor].
      * intros (b & a & E & Ha).
        destruct a as [|x a _] using rev_ind.
        -- apply app_inj_tail in E as [_ E]. now left.
        -- change (b ++ d :: a ++ [x]) with (b ++ (d :: a) ++ [x]) in E.
           rewrite app_assoc in E. apply app_inj_tail in E as [E ->].
           apply Forall_app in Ha as [Ha Hx]. inversion Hx; subst.
           right. split; [|congruence]. apply IH3. exists b, a.
           split; [reflexivity || assumption | assumption].
Qed.

(** ** The documents of the root queries *)




Section RootDocuments.
Context {rt : PyRuntime}.
Variable epmc_search : str -> option str -> answer page.



Lemma all_results_loop_unfold (fuel : nat) (query : str) (id_list : list str)
  (root_and_syn_parts : list (str * list str)) (gene_name : str)
  (res_info : list doc) (c_mark : str) (run_number : Z) (continue_querying : bool)
  (res_count : Z) :
  all_results_loop epmc_search (S fuel) query id_list root_and_syn_parts gene_name
                   res_info c_mark run_number continue_querying res_count
  = if continue_querying && (res_count <=? 1000) then
      (res_text <-- request (EPMCRequest query c_mark) (epmc_search query (Some c_mark)) ;;
       let '(potential_doc_info, c_mark, hit_count) :=
         parse_potential_result_content_for_relevant_info res_text id_list in
       (if (hit_count >? 5000) && (run_number + 1 =? 1)
        then emit (many_hits_warning hit_count gene_name) else mret tt) ;;;
       kept <-- (match root_and_syn_parts with
                 | [] => mret []
                 | _ => lift (keep_listed potential_doc_info root_and_syn_parts)
                 end) ;;
       all_results_loop epmc_search fuel query id_list root_and_syn_parts gene_name
                        (res_info ++ kept) c_mark (run_number + 1)
                        (if hit_count - (run_number + 1) * 1000 <=? 0
                         then false else continue_querying)
                        (res_count + Z.of_nat (length kept)))%m
    else mret res_info.
Proof. reflexivity. Qed.

Lemma all_results_loop_stop (fuel : nat) (query : str) (id_list : list str)
  (root_and_syn_parts : list (str * list str)) (gene_name : str)
  (res_info : list doc) (c_mark : str) (run_number : Z) (continue_querying : bool)
  (res_count : Z) :
  continue_querying && (res_count <=? 1000) = false ->
  all_results_loop epmc_search fuel query id_list root_and_syn_parts gene_name
                   res_info c_mark run_number continue_querying res_count
  = mret res_info.
Proof. intros H. destruct fuel; simpl; rewrite H; reflexivity. Qed.





End RootDocuments.


(** ** The pages of a root query *)

Definition is_epmc_request (e : event) : bool :=
  match e with EPMCRequest _ _ => true | _ => false end.

Definition epmc_requests (ev : list event) : nat := length (filter is_epmc_request ev).

Lemma epmc_requests_app (a b : list event) :
  epmc_requests (a ++ b) = (epmc_requests a + epmc_requests b)%nat.
Proof. unfold epmc_requests. now rewrite filter_app, length_app. Qed.

Section RootPages.
Context {rt : PyRuntime}.
Variable epmc_search : str -> option str -> answer page.

Lemma analyse_parts_no_timeout (text root : str) (syn_part_list : list str) :
  analyse_parts text root syn_part_list <> Timeout.
Proof.
  induction syn_part_list as [|p l IH]; simpl; [discriminate|].
  destruct (contains text (str_lower p)); [|exact IH].
  unfold pattern_of_text.
  destruct (existsb is_meta (str_lower root)); [discriminate|]. simpl.
  destruct (existsb is_meta (str_lower p)); [discriminate|]. simpl.
  destruct (matched _); [discriminate | exact IH].
Qed.

Lemma analyse_roots_no_timeout (text : str) (root_and_syn_part : list (str * list str)) :
  analyse_roots text root_and_syn_part <> Timeout.
Proof.
  induction root_and_syn_part as [|[root parts] l IH]; simpl; [discriminate|].
  destruct (contains text (str_lower root)); [|exact IH].
  pose proof (analyse_parts_no_timeout text root parts) as Hp.
  destruct (analyse_parts text root parts) as [[|]| |]; simpl;
    [discriminate | exact IH | discriminate | congruence].
Qed.

Lemma keep_listed_no_timeout (docs : list doc) (parts : list (str * list str)) :
  keep_listed docs parts <> Timeout.
Proof.
  induction docs as [|d docs IH]; simpl; [discriminate|].
  pose proof (analyse_roots_no_timeout
                (str_lower (join (lit ". ") [Title d; Abstract d])) parts) as Hp.
  unfold analyse_text_for_gene_in_list.
  destruct (analyse_roots _ parts) as [c| |]; simpl; [|discriminate | congruence].
  destruct (keep_listed docs parts) as [more| |]; simpl; [discriminate.. | congruence].
Qed.

Lemma all_results_loop_ends (n : nat) (query : str) (id_list : list str)
  (parts : list (str * list str)) (gene_name : str) :
  (forall q c pg, epmc_search q c = inr pg -> hitcount pg <= 1000 * Z.of_nat n) ->
  forall (fuel : nat) (res_info : list doc) (c_mark : str) (run_number : Z)
         (continue_querying : bool) (res_count : Z) (ev : list event),
    0 <= run_number ->
    (continue_querying = true -> run_number < Z.of_nat n) ->
    Z.of_nat n - run_number <= Z.of_nat fuel ->
    exists ev' o,
      all_results_loop epmc_search fuel query id_list parts gene_name res_info c_mark
                       run_number continue_querying res_count ev = (ev', o) /\
      o <> Timeout /\
      Z.of_nat (epmc_requests ev')
      <= Z.of_nat (epmc_requests ev)
         + (if continue_querying then Z.of_nat n - run_number else 0).
Proof.
  intros Hhits. induction fuel as [|fuel IH];
    intros res_info c_mark r cq rc ev Hr Hcq Hfuel.
  - destruct (cq && (rc <=? 1000)) eqn:C.
    + apply andb_true_iff in C as [C _]. specialize (Hcq C). lia.
    + rewrite (all_results_loop_stop epmc_search 0 _ _ _ _ _ _ _ _ _ C).
      exists ev, (Ret res_info). split; [reflexivity|]. split; [discriminate|].
      destruct cq; [specialize (Hcq eq_refl)|]; lia.
  - rewrite all_results_loop_unfold.
    destruct (cq && (rc <=? 1000)) eqn:C.
    2:{ exists ev, (Ret res_info). split; [reflexivity|]. split; [discriminate|].
        destruct cq; [specialize (Hcq eq_refl)|]; lia. }
    apply andb_true_iff in C as [C _]. subst cq. specialize (Hcq eq_refl).
    unfold mbind at 1. unfold request at 1. unfold mbind at 1. unfold emit at 1.
    destruct (epmc_search query (Some c_mark)) as [err|pg] eqn:Ea.
    + unfold mbind, emit, mraise.
      eexists. eexists. split; [reflexivity|]. split; [discriminate|].
      rewrite !epmc_requests_app.
      change (epmc_requests [EPMCRequest query c_mark]) with 1%nat.
      change (epmc_requests [Log ERROR err]) with 0%nat. lia.
    + unfold mret at 1.
      pose proof (Hhits _ _ _ Ea) as Hh.
      unfold parse_potential_result_content_for_relevant_info.
      set (potential := unique_by_id _). set (mark := match nextcursormark pg with
                                                     | Some c => c | None => lit "*" end).
      unfold mbind at 1.
      set (ev1 := ev ++ [EPMCRequest query c_mark]).
      assert (Hev1 : epmc_requests ev1 = S (epmc_requests ev)).
      { unfold ev1. rewrite epmc_requests_app.
        change (epmc_requests [EPMCRequest query c_mark]) with 1%nat. lia. }
      assert (Hw : exists ev2,
                 (if (hitcount pg >? 5000) && (r + 1 =? 1)
                  then emit (many_hits_warning (hitcount pg) gene_name) else mret tt) ev1
                 = (ev2, Ret tt) /\ epmc_requests ev2 = epmc_requests ev1).
      { destruct ((hitcount pg >? 5000) && (r + 1 =? 1)).
        - exists (ev1 ++ [many_hits_warning (hitcount pg) gene_name]).
          split; [reflexivity|]. rewrite epmc_requests_app.
          change (epmc_requests [many_hits_warning (hitcount pg) gene_name]) with 0%nat.
          lia.
        - exists ev1. split; reflexivity. }
      destruct Hw as (ev2 & -> & Hev2).
      unfold mbind at 1.
      assert (Hk : (exists kept,
                       match parts with
                       | [] => mret []
                       | _ :: _ => lift (keep_listed potential parts)
                       end ev2 = (ev2, Ret kept)) \/
                   (exists e,
                       match parts with
                       | [] => mret []
                       | _ :: _ => lift (keep_listed potential parts)
                       end ev2 = (ev2, Raise e))).
      { destruct parts as [|p parts]; [left; exists []; reflexivity|].
        unfold lift. pose proof (keep_listed_no_timeout potential (p :: parts)) as Hn.
        destruct (keep_listed potential (p :: parts)) as [kept|e|];
          [left; eauto | right; eauto | congruence]. }
      destruct Hk as [[kept ->]|[e ->]].
      * destruct (IH (res_info ++ kept) mark (r + 1)
                     (if hitcount pg - (r + 1) * 1000 <=? 0 then false else true)
                     (rc + Z.of_nat (length kept)) ev2) as (ev' & o & Hl & Ho & Hc).
        -- lia.
        -- destruct (Z.leb_spec (hitcount pg - (r + 1) * 1000) 0); [discriminate|].
           intros _. lia.
        -- lia.
        -- exists ev', o. split; [exact Hl|]. split; [exact Ho|].
           destruct (hitcount pg - (r + 1) * 1000 <=? 0); lia.
      * exists ev2, (Raise e). split; [reflexivity|]. split; [discriminate|]. lia.
Qed.

(** X13. When no page Europe PMC answers reports more than [1000 * n] hits,
    [run_epmc_query_all_results] ends within [n] rounds, whatever the pages
    hold: with fuel for [n] rounds it returns, or stops on an exception, and
    it sends at most [n] requests. *)
Theorem root_query_ends (n fuel : nat) (res_count : Z) (id_list : list str)
  (root_and_syn_parts : list (str * list str)) (gene_name query : str)
  (ev : list event) :
  (forall q c pg, epmc_search q c = inr pg -> hitcount pg <= 1000 * Z.of_nat n) ->
  (1 <= n <= fuel)%nat ->
  exists ev' o,
    run_epmc_query_all_results epmc_search fuel res_count id_list root_and_syn_parts
                               gene_name query ev = (ev', o) /\
    o <> Timeout /\
    (epmc_requests ev' <= epmc_requests ev + n)%nat.
Proof.
  intros Hhits Hn. unfold run_epmc_query_all_results.
  destruct (@all_results_loop_ends n query id_list root_and_syn_parts gene_name Hhits
              fuel [] (lit "*") 0 true res_count ev) as (ev' & o & H1 & H2 & H3);
    [lia | lia | lia |].
  exists ev', o. split; [exact H1|]. split; [exact H2 | lia].
Qed.

End RootPages.

Lemma root_query_ends_witness :
  exists ev' o,
    run_epmc_query_all_results family_service 1 0 [] [(lit "ABC", [lit "2"])]
                               (lit "ABC2") (lit "root 1") [] = (ev', o) /\
    o <> Timeout /\
    (epmc_requests ev' <= epmc_requests [] + 1)%nat.
Proof.
  apply (@root_query_ends ascii_runtime family_service 1 1).
  - intros q c pg H. unfold family_service in H.
    destruct (str_eqb q (lit "primary")); injection H as <-; simpl; lia.
  - lia.
Defined.

(** ** The characters of a cleaned synonym *)

Lemma startswith_nil (s : str) : startswith s [] = true.
Proof. destruct s; reflexivity. Qed.

Lemma replace_fuel_char (c0 : N) (new : str) (s : str) :
  replace_fuel (length s) s [c0] new
  = flat_map (fun c => if N.eqb c0 c then new else [c]) s.
Proof.
  induction s as [|c s IH]; [reflexivity|].
  cbn [length replace_fuel startswith flat_map]. rewrite startswith_nil, andb_true_r.
  destruct (N.eqb c0 c).
  - cbn [skipn length]. now rewrite IH.
  - now rewrite IH.
Qed.

(** Replacing a character by a text without it leaves none of it. *)
Lemma replace_char_gone (c0 : N) (new s : str) :
  ~ In c0 new -> ~ In c0 (replace s [c0] new).
Proof.
  intros Hnew. unfold replace. rewrite replace_fuel_char. intros H.
  apply in_flat_map in H as (c & _ & H).
  destruct (N.eqb_spec c0 c) as [->|Hne]; [contradiction|].
  destruct H as [H|[]]. congruence.
Qed.

Lemma in_skipn (A : Type) (n : nat) (l : list A) (x : A) : In x (skipn n l) -> In x l.
Proof.
  intros H. rewrite <- (firstn_skipn n l). apply in_or_app. now right.
Qed.

Lemma in_firstn (A : Type) (n : nat) (l : list A) (x : A) : In x (firstn n l) -> In x l.
Proof.
  intros H. rewrite <- (firstn_skipn n l). apply in_or_app. now left.
Qed.

Lemma replace_fuel_chars (old new : str) (n : nat) :
  forall (s : str) (x : N),
    In x (replace_fuel n s old new) -> In x s \/ In x new.
Proof.
  induction n as [|n IH]; intros s x; simpl; [auto|].
  destruct s as [|c s]; [auto|].
  destruct (startswith (c :: s) old).
  - intros H. apply in_app_or in H as [H|H]; [auto|].
    apply IH in H as [H|H]; [|auto]. left. exact (in_skipn _ _ _ H).
  - intros [->|H]; [left; now left|]. apply IH in H as [H|H]; [left; now right | auto].
Qed.

(** A replacement brings in no character but those of the new text. *)
Lemma replace_absent (c : N) (s old new : str) :
  ~ In c s -> ~ In c new -> ~ In c (replace s old new).
Proof.
  intros Hs Hnew H. unfold replace in H. destruct old as [|o old]; [contradiction|].
  apply replace_fuel_chars in H as [H|H]; contradiction.
Qed.

Section SubstitutionCharacters.
Context {rt : PyRuntime}.

Lemma splice_chars (s t : str) (ms : list found) (x : N) :
  forall from, In x (splice s from ms [RLit t]) -> In x s \/ In x t.
Proof.
  induction ms as [|m ms IH]; intros from; simpl.
  - intros H. left. exact (in_skipn _ _ _ H).
  - unfold expand_template. simpl. rewrite app_nil_r. intros H.
    apply in_app_or in H as [H|H].
    + left. unfold substring in H. apply in_firstn in H. exact (in_skipn _ _ _ H).
    + apply in_app_or in H as [H|H]; [auto | eauto].
Qed.

Lemma splice_chars_deleting (s : str) (ms : list found) (x : N) :
  forall from, In x (splice s from ms []) -> In x s.
Proof.
  induction ms as [|m ms IH]; intros from; simpl.
  - intros H. exact (in_skipn _ _ _ H).
  - intros H. apply in_app_or in H as [H|H].
    + unfold substring in H. apply in_firstn in H. exact (in_skipn _ _ _ H).
    + eauto.
Qed.

(** A substitution of a literal text brings in no character but those of
    the text. *)
Lemma re_sub_absent (ic : bool) (r : re) (t s : str) (count : nat) (c : N) :
  ~ In c s -> ~ In c t -> ~ In c (re_sub ic r [RLit t] s count).
Proof.
  intros Hs Ht H. unfold re_sub in H. apply splice_chars in H as [H|H]; contradiction.
Qed.

Lemma re_sub_deleting_absent (ic : bool) (r : re) (s : str) (count : nat) (c : N) :
  ~ In c s -> ~ In c (re_sub ic r [] s count).
Proof.
  intros Hs H. unfold re_sub in H. apply splice_chars_deleting in H. contradiction.
Qed.

Lemma strip_absent (s : str) (c : N) : ~ In c s -> ~ In c (strip s).
Proof.
  intros Hs H. unfold strip in H.
  destruct (strip_with_infix isspace s) as (a & b & E).
  apply Hs. rewrite E. apply in_or_app. right. apply in_or_app. now left.
Qed.

(** The punctuation [remove_noise_and_punctuation] replaces by spaces:
    underscore, comma, question mark, the three double quotes, the four
    hyphens and the two round brackets. *)
Definition replaced_punctuation : list N :=
  [95; 44; 63; 34; 0x201C; 0x201D; 0x2D; 0x2013; 0x2014; 0x2011; 40; 41]%N.

(** The characters replaced one after the other, before and after the
    brackets with their contents are removed. *)
Definition replaced_first : list N :=
  [95; 44; 63; 34; 0x201C; 0x201D; 0x2D; 0x2013; 0x2014; 0x2011]%N.
Definition replaced_last : list N := [40; 41]%N.

Definition drop_chars (cs : list N) (s : str) : str :=
  fold_left (fun t c => replace t [c] [32%N]) cs s.

Definition drop_phrases (term : str) : str :=
  replace (replace (replace term (lit "EXACT") [32%N])
                   (lit "susceptibility to") [32%N])
          (lit "working designation") [32%N].

Definition drop_brackets (term : str) : str :=
  if negb (matched (re_search false bracketed_number term))
  then re_sub false bracket_group [] term 0 else term.

Definition tidy_spaces (term : str) : str :=
  strip (re_sub false spaces2 [RLit [32%N]]
                (re_sub false (Chr 10) [RLit [32%N]] term 0) 0).

Lemma clean_punctuation_stages (term : str) :
  clean_punctuation term
  = tidy_spaces (drop_chars replaced_last
                   (drop_brackets (drop_chars replaced_first (drop_phrases term)))).
Proof.
  unfold clean_punctuation, tidy_spaces, drop_chars, drop_brackets, drop_phrases,
    replaced_first, replaced_last, hyphens, dq.
  cbn [fold_left]. reflexivity.
Qed.

Lemma not_space_absent (c : N) : c <> 32%N -> ~ In c [32%N].
Proof. intros H [E|[]]. congruence. Qed.

Lemma drop_chars_keeps (cs : list N) (c : N) :
  c <> 32%N -> forall s, ~ In c s -> ~ In c (drop_chars cs s).
Proof.
  intros Hc. unfold drop_chars.
  induction cs as [|c0 cs IH]; intros s Hs; cbn [fold_left]; [assumption|].
  apply IH. apply replace_absent; [assumption | now apply not_space_absent].
Qed.

Lemma drop_chars_gone (cs : list N) (c : N) :
  c <> 32%N -> In c cs -> forall s, ~ In c (drop_chars cs s).
Proof.
  intros Hc. unfold drop_chars. induction cs as [|c0 cs IH]; intros Hin s; [destruct Hin|].
  cbn [fold_left]. destruct Hin as [->|Hin].
  - apply (@drop_chars_keeps cs c Hc). apply replace_char_gone. now apply not_space_absent.
  - now apply IH.
Qed.

Lemma drop_brackets_keeps (c : N) (s : str) : ~ In c s -> ~ In c (drop_brackets s).
Proof.
  intros H. unfold drop_brackets. destruct (negb _); [|assumption].
  now apply re_sub_deleting_absent.
Qed.

Lemma tidy_spaces_keeps (c : N) (s : str) : c <> 32%N -> ~ In c s -> ~ In c (tidy_spaces s).
Proof.
  intros Hc H. unfold tidy_spaces. apply strip_absent.
  apply re_sub_absent; [|now apply not_space_absent].
  apply re_sub_absent; [assumption | now apply not_space_absent].
Qed.

Unset Implicit Arguments.

Lemma clean_punctuation_absent (term : str) (c : N) :
  In c replaced_punctuation -> ~ In c (clean_punctuation term).
Proof.
  intros Hc. rewrite clean_punctuation_stages.
  assert (Hne : c <> 32%N).
  { intros ->. unfold replaced_punctuation in Hc. simpl in Hc.
    repeat (destruct Hc as [Hc|Hc]; [discriminate|]). destruct Hc. }
  assert (Hsplit : In c replaced_first \/ In c replaced_last).
  { change replaced_punctuation with (replaced_first ++ replaced_last) in Hc.
    now apply in_app_or in Hc. }
  apply tidy_spaces_keeps; [assumption|].
  destruct Hsplit as [H1|H2].
  - apply drop_chars_keeps; [assumption|]. apply drop_brackets_keeps.
    now apply drop_chars_gone.
  - now apply drop_chars_gone.
Qed.

(** X14. Every member of the list that [remove_noise_and_punctuation]
    returns, after the original term at its head, is at least [min_syn_len]
    characters long and holds none of the punctuation that the function
    replaces by spaces. *)
Theorem cleaned_synonyms_are_plain (self : ExtractOLSSynonyms) (syn_list : list str)
  (syn_type term : str) :
  In term (tl (remove_noise_and_punctuation self syn_list syn_type)) ->
  min_syn_len self <= Z.of_nat (length term) /\
  Forall (fun c => ~ In c term) replaced_punctuation.
Proof.
  unfold remove_noise_and_punctuation. cbn [tl]. intros H.
  apply in_flat_map in H as (t0 & _ & H).
  destruct (word_search (original_term self) t0); [destruct H|].
  destruct (is_noisy t0); [destruct H|].
  destruct (_ && _); [destruct H|].
  destruct (Z.leb_spec (min_syn_len self) (Z.of_nat (length (clean_punctuation t0))))
    as [Hlen|_]; [|destruct H].
  assert (Hin : term = clean_punctuation t0).
  { destruct (str_eqb syn_type (lit "tissue")).
    - destruct (negb _); [|destruct H]. destruct H as [<-|[]]. reflexivity.
    - destruct H as [<-|[]]. reflexivity. }
  subst term. split; [exact Hlen|].
  apply Forall_forall. intros c Hc. now apply clean_punctuation_absent.
Qed.

End SubstitutionCharacters.

Set Implicit Arguments.

Lemma cleaned_synonyms_are_plain_witness :
  In (lit "lung tumour") (tl (remove_noise_and_punctuation (cleaner (lit "lung cancer"))
                              [lit "lung-tumour"] (lit "other"))) /\
  min_syn_len (cleaner (lit "lung cancer")) <= Z.of_nat (length (lit "lung tumour")) /\
  Forall (fun c => ~ In c (lit "lung tumour")) replaced_punctuation.
Proof.
  assert (H : In (lit "lung tumour")
                 (tl (remove_noise_and_punctuation (cleaner (lit "lung cancer"))
                        [lit "lung-tumour"] (lit "other"))))
    by (vm_compute; auto).
  split; [exact H|].
  exact (@cleaned_synonyms_are_plain ascii_runtime (cleaner (lit "lung cancer"))
           [lit "lung-tumour"] (lit "other") (lit "lung tumour") H).
Defined.

(** ** Requests for identifiers and gene names *)

Section OntologyRequests.
Context {rt : PyRuntime}.
Variable ols_search : str -> answer (list str).
Variable uniprot_get : str -> answer str.



End OntologyRequests.

(** ** Root phrases of gene families *)

Definition infix (part s : str) : Prop := exists a b, s = a ++ part ++ b.

Lemma substring_infix (s : str) (b e : nat) : infix (substring s b e) s.
Proof.
  unfold infix, substring. exists (firstn b s), (skipn (e - b) (skipn b s)).
  now rewrite firstn_skipn, firstn_skipn.
Qed.

Lemma group_or_empty_infix (s : str) (m : found) (n : nat) : infix (group_or_empty s m n) s.
Proof.
  unfold group_or_empty, group.
  destruct (find _ _) as [[k [b e]]|].
  - apply substring_infix.
  - exists [], s. reflexivity.
Qed.

Lemma outcomes_map (A B : Type) (f : A -> outcome B) (l : list A) (ys : list B) :
  outcomes (map f l) = Ret ys -> Forall2 (fun x y => f x = Ret y) l ys.
Proof.
  revert ys. induction l as [|x l IH]; intros ys H; simpl in H.
  - injection H as <-. constructor.
  - destruct (f x) as [y| |] eqn:E; try discriminate. simpl in H.
    destruct (outcomes (map f l)) as [ys'| |]; try discriminate. simpl in H.
    injection H as <-. constructor; [assumption | now apply IH].
Qed.

(** A value met twice among the results comes from two different
    arguments. *)
Lemma twice_from_two (A : Type) (f : A -> outcome str) (p : str -> bool) (k : str)
  (l : list A) (ys : list str) :
  Forall2 (fun x y => f x = Ret y) l ys -> NoDup l ->
  (1 < count_occ (list_eq_dec N.eq_dec) (filter p ys) k)%nat ->
  exists x1 x2, In x1 l /\ In x2 l /\ x1 <> x2 /\ f x1 = Ret k /\ f x2 = Ret k.
Proof.
  assert (Hone : forall l ys, Forall2 (fun x y => f x = Ret y) l ys ->
                   (0 < count_occ (list_eq_dec N.eq_dec) (filter p ys) k)%nat ->
                   exists x, In x l /\ f x = Ret k).
  { intros l0 ys0 H. induction H as [|x y l0 ys0 Hxy H IH]; simpl; [lia|].
    destruct (p y); simpl.
    - destruct (list_eq_dec N.eq_dec y k) as [->|Hne].
      + intros _. exists x. split; [now left | assumption].
      + intros Hc. destruct (IH Hc) as (x' & Hx' & E). exists x'. split; [now right | assumption].
    - intros Hc. destruct (IH Hc) as (x' & Hx' & E). exists x'. split; [now right | assumption]. }
  intros H. induction H as [|x y l0 ys0 Hxy H IH]; intros Hnd Hc; simpl in Hc; [lia|].
  apply NoDup_cons_iff in Hnd as [Hx Hnd].
  assert (Hrest : (1 < count_occ (list_eq_dec N.eq_dec) (filter p ys0) k)%nat ->
                  exists x1 x2, In x1 (x :: l0) /\ In x2 (x :: l0) /\ x1 <> x2 /\
                                f x1 = Ret k /\ f x2 = Ret k).
  { intros Hc'. destruct (IH Hnd Hc') as (x1 & x2 & H1 & H2 & Hne & E1 & E2).
    exists x1, x2. repeat split; auto; now right. }
  destruct (p y); simpl in Hc; [|auto].
  destruct (list_eq_dec N.eq_dec y k) as [->|Hne]; [|auto].
  assert (Hc' : (0 < count_occ (list_eq_dec N.eq_dec) (filter p ys0) k)%nat) by lia.
  destruct (Hone _ _ H Hc') as (x' & Hx' & E).
  exists x, x'. repeat split; auto; [now left | now right | congruence].
Qed.

Section FamilyRoots.
Context {rt : PyRuntime}.

Lemma get_root_name_infix (syn root : str) :
  get_root_name_from_gene_syn syn = Ret root -> infix root syn.
Proof.
  unfold get_root_name_from_gene_syn. destruct (_ && _).
  - destruct (re_match _ _ _) as [m|]; [|discriminate].
    intros H. injection H as <-. apply group_or_empty_infix.
  - intros H. injection H as <-. exists [], syn. reflexivity.
Qed.

(** X17. Whenever [get_recurrent_root_phrases] returns, it returns no root
    twice, and each root is not empty and is the root name, a contiguous
    part, of at least two different synonyms of its list. *)
Theorem recurrent_roots_are_shared (syns roots : list str) :
  get_recurrent_root_phrases syns = Ret roots ->
  NoDup roots /\
  forall root, In root roots ->
    root <> [] /\
    exists syn1 syn2,
      In syn1 syns /\ In syn2 syns /\ syn1 <> syn2 /\
      get_root_name_from_gene_syn syn1 = Ret root /\
      get_root_name_from_gene_syn syn2 = Ret root /\
      infix root syn1 /\ infix root syn2.
Proof.
  unfold get_recurrent_root_phrases.
  destruct (outcomes (map get_root_name_from_gene_syn (set_iter syns))) as [names| |] eqn:E;
    try discriminate.
  simpl. intros H. injection H as <-. split.
  - apply NoDup_filter. apply dedup_nodup.
  - intros root Hr. apply filter_In in Hr as [Hin Hc].
    apply Nat.ltb_lt in Hc.
    unfold first_seen in Hin. apply dedup_in in Hin as [Hin _].
    apply filter_In in Hin as [_ Hne]. split.
    { intros ->. discriminate. }
    apply outcomes_map in E.
    destruct (twice_from_two _ (fun r => negb (str_eqb r [])) root E (set_iter_nodup syns) Hc)
      as (x1 & x2 & H1 & H2 & Hd & E1 & E2).
    exists x1, x2.
    split; [exact (proj1 (set_iter_in syns x1) H1)|].
    split; [exact (proj1 (set_iter_in syns x2) H2)|].
    split; [assumption|]. split; [assumption|]. split; [assumption|].
    split; now apply get_root_name_infix.
Qed.

End FamilyRoots.

Lemma recurrent_roots_are_shared_witness :
  get_recurrent_root_phrases [lit "ABC1"; lit "ABC2"; lit "XYZ"] = Ret [lit "ABC"] /\
  NoDup [lit "ABC"] /\
  forall root, In root [lit "ABC"] ->
    root <> [] /\
    exists syn1 syn2,
      In syn1 [lit "ABC1"; lit "ABC2"; lit "XYZ"] /\
      In syn2 [lit "ABC1"; lit "ABC2"; lit "XYZ"] /\ syn1 <> syn2 /\
      get_root_name_from_gene_syn syn1 = Ret root /\
      get_root_name_from_gene_syn syn2 = Ret root /\
      infix root syn1 /\ infix root syn2.
Proof.
  assert (E : get_recurrent_root_phrases [lit "ABC1"; lit "ABC2"; lit "XYZ"]
              = Ret [lit "ABC"]) by (vm_compute; reflexivity).
  split; [exact E|].
  exact (@recurrent_roots_are_shared ascii_runtime _ _ E).
Defined.

(** ** The documents that name a gene in a list *)

Section ListedGenes.
Context {rt : PyRuntime}.

(** The text [analyse_text_for_gene_in_list] searches: title and abstract,
    in lower case. *)
Definition searched_text (d : doc) : str :=
  str_lower (join (lit ". ") [Title d; Abstract d]).

(** A root, with one of its parts, is listed in a text. *)
Definition listed_in (text : str) (root_and_syn_parts : list (str * list str)) : Prop :=
  exists root parts part r p,
    In (root, parts) root_and_syn_parts /\ In part parts /\
    contains text (str_lower root) = true /\
    contains text (str_lower part) = true /\
    pattern_of_text (str_lower root) = Ret r /\
    pattern_of_text (str_lower part) = Ret p /\
    matched (re_match false (list_pattern r p) text) = true.

Lemma analyse_parts_true (text root : str) (parts : list str) :
  analyse_parts text root parts = Ret true ->
  exists part r p,
    In part parts /\ contains text (str_lower part) = true /\
    pattern_of_text (str_lower root) = Ret r /\
    pattern_of_text (str_lower part) = Ret p /\
    matched (re_match false (list_pattern r p) text) = true.
Proof.
  induction parts as [|part parts IH]; simpl; [discriminate|].
  assert (Hrest : analyse_parts text root parts = Ret true ->
                  exists part' r p,
                    In part' (part :: parts) /\ contains text (str_lower part') = true /\
                    pattern_of_text (str_lower root) = Ret r /\
                    pattern_of_text (str_lower part') = Ret p /\
                    matched (re_match false (list_pattern r p) text) = true).
  { intros H. destruct (IH H) as (part' & r & p & H1 & H2). exists part', r, p.
    split; [now right | assumption]. }
  destruct (contains text (str_lower part)) eqn:C; [|assumption].
  intros H. apply obind_ret in H as (r & Hr & H). apply obind_ret in H as (p & Hp & H).
  destruct (matched _) eqn:Hm; [|auto].
  exists part, r, p. repeat split; auto with datatypes.
Qed.

Lemma analyse_roots_true (text : str) (root_and_syn_parts : list (str * list str)) :
  analyse_roots text root_and_syn_parts = Ret true -> listed_in text root_and_syn_parts.
Proof.
  induction root_and_syn_parts as [|[root parts] rest IH]; simpl; [discriminate|].
  assert (Hrest : analyse_roots text rest = Ret true -> listed_in text ((root, parts) :: rest)).
  { intros H. destruct (IH H) as (root' & parts' & part & r & p & H1 & H2).
    exists root', parts', part, r, p. split; [now right | assumption]. }
  destruct (contains text (str_lower root)) eqn:C; [|assumption].
  intros H. apply obind_ret in H as (b & Hb & H). destruct b; [|auto].
  apply analyse_parts_true in Hb as (part & r & p & H1 & H2 & H3 & H4 & H5).
  exists root, parts, part, r, p. repeat split; auto with datatypes.
Qed.

(** X18. The documents [keep_listed] keeps for a root query are documents
    of the page, and title and abstract of each one hold, in lower case,
    one of the roots and one of the parts recorded for that root, in a text
    that the list pattern built from the two matches. *)
Theorem kept_documents_list_the_gene (docs kept : list doc)
  (root_and_syn_parts : list (str * list str)) :
  keep_listed docs root_and_syn_parts = Ret kept ->
  forall d, In d kept -> In d docs /\ listed_in (searched_text d) root_and_syn_parts.
Proof.
  revert kept. induction docs as [|x docs IH]; simpl; intros kept H d Hd.
  - injection H as <-. destruct Hd.
  - apply obind_ret in H as (c & Hc & H). apply obind_ret in H as (more & Hm & H).
    injection H as <-.
    assert (Hmore : In d more -> (x = d \/ In d docs) /\
                                 listed_in (searched_text d) root_and_syn_parts).
    { intros Hin. destruct (IH more Hm d Hin). auto. }
    destruct c; [|auto]. destruct Hd as [<-|Hd]; [|auto].
    split; [now left|]. now apply analyse_roots_true.
Qed.

End ListedGenes.

Lemma kept_documents_list_the_gene_witness :
  keep_listed [article (lit "1") (lit "nothing");
               mkDoc (lit "2") listed_title [] [] [] [] [] [] []]
              [(lit "ABC", [lit "2"])]
  = Ret [mkDoc (lit "2") listed_title [] [] [] [] [] [] []] /\
  forall d, In d [mkDoc (lit "2") listed_title [] [] [] [] [] [] []] ->
    In d [article (lit "1") (lit "nothing");
          mkDoc (lit "2") listed_title [] [] [] [] [] [] []] /\
    listed_in (searched_text d) [(lit "ABC", [lit "2"])].
Proof.
  assert (E : keep_listed [article (lit "1") (lit "nothing");
                           mkDoc (lit "2") listed_title [] [] [] [] [] [] []]
                          [(lit "ABC", [lit "2"])]
              = Ret [mkDoc (lit "2") listed_title [] [] [] [] [] [] []])
    by (vm_compute; reflexivity).
  split; [exact E|].
  exact (@kept_documents_list_the_gene ascii_runtime _ _ _ E).
Defined.

(** ** The expansions of [clean_syn_list] *)

Section Expansions.
Context {rt : PyRuntime}.

(** X19. The three expansions that add variants to a list of synonyms
    ([expand_types], [add_space_before_number] and
    [remove_space_hyphen_before_number]) lose none of the synonyms they are
    given and return no synonym twice, whenever they return. *)
Theorem expansions_keep_their_input (self : ExtractOLSSynonyms) (fuel : nat)
  (syns out : list str) :
  expand_types self syns = Ret out \/
  add_space_before_number fuel syns = Ret out \/
  remove_space_hyphen_before_number syns = Ret out ->
  NoDup out /\ forall syn, In syn syns -> In syn out.
Proof.
  assert (Hset : forall more, NoDup (set_iter (syns ++ more)) /\
                              forall syn, In syn syns -> In syn (set_iter (syns ++ more))).
  { intros more. split; [apply set_iter_nodup|].
    intros syn H. apply (proj2 (set_iter_in _ _)). apply in_or_app. now left. }
  unfold expand_types, add_space_before_number, remove_space_hyphen_before_number.
  intros [H|[H|H]]; apply obind_ret in H as (more & _ & H); injection H as <-; apply Hset.
Qed.

End Expansions.

Lemma expansions_keep_their_input_witness :
  exists out,
    add_space_before_number 10 [lit "ABC1"] = Ret out /\
    In (lit "ABC 1") out /\
    NoDup out /\ forall syn, In syn [lit "ABC1"] -> In syn out.
Proof.
  assert (E : add_space_before_number 10 [lit "ABC1"] = Ret [lit "ABC1"; lit "ABC 1"])
    by (vm_compute; reflexivity).
  exists [lit "ABC1"; lit "ABC 1"]. split; [exact E|]. split; [right; now left|].
  exact (@expansions_keep_their_input ascii_runtime (cleaner (lit "ABC")) 10 _ _
           (or_intror (or_introl E))).
Defined.

(** ** Where the collection of synonyms ends *)

Section SynonymCollection.
Context {rt : PyRuntime}.
Variable ols_search : str -> answer (list str).
Variable ols_node_syns : str -> bool -> answer (list str).
Variable uniprot_get : str -> answer str.
Variable qualifiers : list (str * list str).
Variable common_gene_noise stop_words : list str.

(** The errors that end the collection of synonyms. *)
Definition ends_with (A : Type) (r : list event * outcome A) (allowed : list exn) : Prop :=
  exists e, snd r = Raise e /\ In e allowed.

Lemma request_cases (A : Type) (e : event) (a : answer A) (ev : list event) :
  (exists x, request e a ev = (ev ++ [e], Ret x)) \/
  ends_with (request e a ev) [SystemExit].
Proof.
  unfold request, mbind, emit, mret, mraise. destruct a as [err|x].
  - right. exists SystemExit. split; [reflexivity | now left].
  - left. eauto.
Qed.

Lemma get_iris_cases (term settings : str) (ev : list event) :
  (exists ev' iris, get_iris ols_search term settings ev = (ev', Ret iris)) \/
  ends_with (get_iris ols_search term settings ev) [SystemExit].
Proof.
  unfold get_iris.
  match goal with |- context [request ?e ?a] => set (e0 := e); set (a0 := a) end.
  unfold mbind. destruct (request_cases e0 a0 ev) as [(x & E)|(e & E & He)].
  - rewrite E. left. unfold mret. eauto.
  - right. destruct (request e0 a0 ev) as [ev' o]. simpl in E. subst o.
    exists e. split; [reflexivity | assumption].
Qed.

Lemma get_syns_in_parallel_raises (self : Query) (fuel : nat) (term : str)
  (iris : list str) (is_tissue : bool) (ev : list event) :
  get_syns_in_parallel ols_node_syns qualifiers self fuel term iris is_tissue ev
  = (ev, Raise TypeError).
Proof.
  unfold get_syns_in_parallel, mbind, lift.
  rewrite new_without_min_syn_len; reflexivity.
Qed.

(** Binding a computation that ends with an error ends with it. *)
Lemma ends_with_bind (A B : Type) (c : M A) (f : A -> M B) (ev : list event)
  (allowed : list exn) :
  ends_with (c ev) allowed -> ends_with (mbind c f ev) allowed.
Proof.
  intros (e & E & He). unfold mbind. destruct (c ev) as [ev' o]. simpl in E. subst o.
  exists e. split; [reflexivity | assumption].
Qed.

Lemma ends_with_more (A : Type) (r : list event * outcome A) (l1 l2 : list exn) :
  incl l1 l2 -> ends_with r l1 -> ends_with r l2.
Proof. intros Hi (e & E & He). exists e. split; [assumption | now apply Hi]. Qed.

(** A search for synonyms in the ontologies, [get_iris] followed by
    [get_syns_in_parallel], never returns. *)
Lemma search_ends (A : Type) (self : Query) (fuel : nat) (term settings : str)
  (is_tissue : bool) (k : list str -> M A) (ev : list event) :
  ends_with ((iris <-- get_iris ols_search term settings ;;
              syns <-- get_syns_in_parallel ols_node_syns qualifiers self fuel term iris
                         is_tissue ;;
              k syns)%m ev) [TypeError; SystemExit].
Proof.
  destruct (get_iris_cases term settings ev) as [(ev' & iris & E)|H].
  - unfold mbind at 1. rewrite E. apply ends_with_bind.
    rewrite get_syns_in_parallel_raises. exists TypeError. split; [reflexivity | now left].
  - apply ends_with_bind. revert H. apply ends_with_more.
    intros e [<-|[]]. right. now left.
Qed.

Lemma clean_orig_term_returns (term : pyarg) (ev : list event) :
  truthy term = true -> exists ev' s, clean_orig_term term ev = (ev', Ret s).
Proof.
  destruct term as [|s|l|z]; simpl; intros H; try discriminate; unfold mret; eauto.
  destruct l as [|x [|y l]]; [discriminate| |].
  - cbn. unfold lift. cbn. eauto.
  - cbn. unfold mbind, emit, mret. cbn. eauto.
Qed.

Lemma get_tissue_syns_ends (self : Query) (fuel : nat) (ev : list event) :
  truthy (tissue self) = true ->
  ends_with (get_tissue_syns ols_search ols_node_syns qualifiers self fuel ev)
            [TypeError; SystemExit].
Proof.
  intros H. unfold get_tissue_syns.
  destruct (clean_orig_term_returns _ ev H) as (ev' & s & E).
  unfold mbind at 1. rewrite E. apply search_ends.
Qed.

Lemma get_disease_syns_ends (self : Query) (fuel : nat) (ev : list event) :
  truthy (disease self) = true ->
  ends_with (get_disease_syns ols_search ols_node_syns qualifiers self fuel ev)
            [TypeError; SystemExit].
Proof.
  intros H. unfold get_disease_syns.
  destruct (clean_orig_term_returns _ ev H) as (ev' & s & E).
  unfold mbind at 1. rewrite E. apply search_ends.
Qed.

Lemma get_kwd_synonyms_ends (self : Query) (fuel : nat) (kwd_string : str)
  (ev : list event) :
  expand self = true ->
  ends_with (get_kwd_synonyms ols_search ols_node_syns qualifiers self fuel kwd_string ev)
            [TypeError; SystemExit].
Proof.
  intros H. unfold get_kwd_synonyms. rewrite H. apply ends_with_bind.
  destruct (set_iter (map strip (split_on (ch ",") kwd_string))) as [|kwd rest] eqn:E.
  - exfalso. assert (Hin : In (strip (hd [] (split_on (ch ",") kwd_string))) []).
    { rewrite <- E. apply (proj2 (set_iter_in _ _)).
      destruct kwd_string as [|c s]; [now left|]. simpl.
      destruct (N.eqb c (ch ",")); [now left|].
      destruct (split_on (ch ",") s); now left. }
    destruct Hin.
  - cbn [mapM]. apply ends_with_bind. apply search_ends.
Qed.

Lemma others_string_returns (self : Query) (ev : list event) :
  exists ev' s, others_string self ev = (ev', Ret s).
Proof.
  unfold others_string. destruct (other_args self) as [[|kv rest]|]; unfold mret; eauto.
  destruct (_ <? _)%nat; unfold mbind, emit, mret; eauto.
Qed.

(** X20. With a tissue, a disease or keywords that are to be expanded,
    [get_constant_query_strings] never returns: every search for synonyms
    it starts ends with [SystemExit], when the request for identifiers
    fails, or with the [TypeError] of the constructor call in
    [get_syns_in_parallel]. *)
Theorem synonym_search_never_returns (self : Query) (fuel : nat) (ev : list event) :
  truthy (tissue self) = true \/ truthy (disease self) = true \/
  (expand self = true /\ exists c k, kwds self = Some (c :: k)) ->
  exists ev' e,
    get_constant_query_strings ols_search ols_node_syns qualifiers self fuel ev
    = (ev', Raise e) /\
    (e = TypeError \/ e = SystemExit).
Proof.
  intros H.
  assert (Hends : ends_with (get_constant_query_strings ols_search ols_node_syns qualifiers
                               self fuel ev) [TypeError; SystemExit]).
  { unfold get_constant_query_strings.
    destruct (others_string_returns self ev) as (ev0 & s & E).
    unfold mbind at 1. rewrite E. apply ends_with_bind. unfold constant_segments.
    destruct (truthy (tissue self)) eqn:T.
    { apply ends_with_bind, ends_with_bind. now apply get_tissue_syns_ends. }
    unfold mbind at 1. unfold mret at 1.
    destruct (truthy (disease self)) eqn:D.
    { apply ends_with_bind, ends_with_bind. now apply get_disease_syns_ends. }
    unfold mbind at 1. unfold mret at 1.
    destruct H as [H|[H|(He & c & k & Hk)]]; try discriminate.
    rewrite Hk. apply ends_with_bind. now apply get_kwd_synonyms_ends. }
  destruct Hends as (e & E & He).
  destruct (get_constant_query_strings _ _ _ _ _ _) as [ev' o]. simpl in E. subst o.
  exists ev', e. split; [reflexivity|].
  destruct He as [<-|[<-|[]]]; auto.
Qed.

Lemma uniprot_names_returned (r : row) (ev : list event) :
  exists ev' syns syns_found,
    get_gene_syns_from_uniprot uniprot_get r ev = (ev', Ret (syns, syns_found)).
Proof.
  unfold get_gene_syns_from_uniprot.
  destruct (uniprot_get _) as [err|text].
  - unfold mbind, emit, mret. eauto.
  - destruct (strip (replace text (lit "Gene names") [])); unfold mret; eauto.
Qed.

Lemma get_gene_syn_iris_cases (syn : str) (search_human_only : bool) (ev : list event) :
  (exists ev' iris,
      get_gene_syn_iris_from_ebi_ols ols_search syn search_human_only ev = (ev', Ret iris)) \/
  ends_with (get_gene_syn_iris_from_ebi_ols ols_search syn search_human_only ev)
            [SystemExit].
Proof.
  unfold get_gene_syn_iris_from_ebi_ols.
  destruct (contains syn (lit "*")), search_human_only; apply get_iris_cases.
Qed.

Lemma fam_roots_cases (syn : str) (fam_roots : list str) (ev : list event) :
  let step :=
    (if systematic_family_naming_test syn then
       (fam_root <-- lift (get_root_name_from_gene_syn syn) ;;
        mret (match fam_root with [] => fam_roots | _ => fam_roots ++ [fam_root] end))
     else mret fam_roots)%m in
  (exists roots, step ev = (ev, Ret roots)) \/ ends_with (step ev) [SystemExit; AttributeError].
Proof.
  cbv zeta. destruct (systematic_family_naming_test syn); [|left; unfold mret; eauto].
  unfold mbind, lift, mret, get_root_name_from_gene_syn.
  destruct (_ && _); [|left; eauto].
  destruct (re_match _ _ _); [left; eauto|].
  right. exists AttributeError. split; [reflexivity | right; now left].
Qed.

Lemma gene_iris_and_roots_cases (r : row) (gene_found search_human_only : bool)
  (uniprot_gene_syns : list str) :
  forall (all_iris_for_row fam_roots : list str) (ev : list event),
    (exists ev' res,
        gene_iris_and_roots ols_search r gene_found search_human_only uniprot_gene_syns
          all_iris_for_row fam_roots ev = (ev', Ret res)) \/
    ends_with (gene_iris_and_roots ols_search r gene_found search_human_only
                 uniprot_gene_syns all_iris_for_row fam_roots ev)
              [SystemExit; AttributeError].
Proof.
  induction uniprot_gene_syns as [|syn rest IH]; intros all_iris fam_roots ev.
  - left. simpl. unfold mret. eauto.
  - cbn [gene_iris_and_roots].
    match goal with |- (exists ev' res, ?X = _) \/ _ => set (run := X) end.
    destruct (get_gene_syn_iris_cases syn search_human_only ev) as [(ev1 & iris & E)|H].
    2:{ right. unfold run. apply ends_with_bind. revert H. apply ends_with_more.
        intros e [<-|[]]. now left. }
    assert (Hw : exists ev2,
               (match iris with
                | _ :: _ => mret tt
                | [] => if negb gene_found then emit (no_synonyms_warning syn r) else mret tt
                end) ev1 = (ev2, Ret tt)).
    { destruct iris; [destruct (negb gene_found)|]; unfold emit, mret; eauto. }
    destruct Hw as (ev2 & Hw).
    destruct (fam_roots_cases syn fam_roots ev2) as [(roots' & R)|H].
    + assert (EQ : run = gene_iris_and_roots ols_search r gene_found search_human_only rest
                           (all_iris ++ iris) roots' ev2).
      { unfold run. unfold mbind at 1. rewrite E. unfold mbind at 1. rewrite Hw.
        unfold mbind at 1. rewrite R. reflexivity. }
      rewrite EQ. apply IH.
    + right. unfold run. unfold mbind at 1. rewrite E. unfold mbind at 1. rewrite Hw.
      now apply ends_with_bind.
Qed.

(** X21. [get_gene_synonyms] never returns. It asks UniProt for the names
    of the gene and the ontology search for the identifiers of each name,
    and ends with [SystemExit] when one of these searches fails, with
    [AttributeError] when a name that passes the family test has no root
    name, and otherwise with the [TypeError] of the constructor call in
    [get_syns_in_parallel]. *)
Theorem get_gene_synonyms_never_returns (self : Query) (fuel : nat) (r : row)
  (ev : list event) :
  exists ev' e,
    get_gene_synonyms ols_search ols_node_syns uniprot_get qualifiers common_gene_noise
      stop_words self fuel r ev = (ev', Raise e) /\
    (e = TypeError \/ e = SystemExit \/ e = AttributeError).
Proof.
  assert (Hends : ends_with (get_gene_synonyms ols_search ols_node_syns uniprot_get qualifiers
                               common_gene_noise stop_words self fuel r ev)
                            [TypeError; SystemExit; AttributeError]).
  { unfold get_gene_synonyms.
    destruct (uniprot_names_returned r ev) as (ev1 & syns & found & E).
    unfold mbind at 1. rewrite E.
    assert (Hw : exists ev2,
               (if contains (row_gene r) (lit "*") then
                  emit (Log WARNING (lit "'" ++ row_gene r ++
                         lit "' is a wildcard: searching for a wildcard term may take longer than usual"))
                else mret tt) ev1 = (ev2, Ret tt)).
    { destruct (contains _ _); unfold emit, mret; eauto. }
    destruct Hw as (ev2 & Hw). unfold mbind at 1. rewrite Hw.
    destruct (gene_iris_and_roots_cases r found (str_eqb (row_tax_id r) (lit "9606")) syns
                [] [] ev2) as [(ev3 & [iris roots] & E3)|H].
    - unfold mbind at 1. rewrite E3. apply ends_with_bind.
      rewrite get_syns_in_parallel_raises. exists TypeError. split; [reflexivity | now left].
    - apply ends_with_bind. revert H. apply ends_with_more.
      intros e [<-|[<-|[]]]; simpl; auto. }
  destruct Hends as (e & E & He).
  destruct (get_gene_synonyms _ _ _ _ _ _ _ _ _ _) as [ev' o]. simpl in E. subst o.
  exists ev', e. split; [reflexivity|].
  destruct He as [<-|[<-|[<-|[]]]]; auto.
Qed.

End SynonymCollection.

Definition tissue_query : Query :=
  mkQuery ArgNone (ArgStr (lit "lung")) None None false 0 [] [] [] [] [] [].

Lemma synonym_search_never_returns_witness :
  truthy (tissue tissue_query) = true /\
  exists ev' e,
    get_constant_query_strings (fun _ => inr [lit "http://purl.obolibrary.org/obo/UBERON_0002048"])
      (fun _ _ => inr [lit "pulmo"]) [] tissue_query 0 []
    = (ev', Raise e) /\
    (e = TypeError \/ e = SystemExit).
Proof.
  split; [reflexivity|].
  exact (@synonym_search_never_returns ascii_runtime
           (fun _ => inr [lit "http://purl.obolibrary.org/obo/UBERON_0002048"])
           (fun _ _ => inr [lit "pulmo"]) [] tissue_query 0 [] (or_introl eq_refl)).
Defined.

(** ** The description of a search *)

Lemma join_chars (sep : str) (l : list str) (c : N) :
  In c (join sep l) -> In c sep \/ exists x, In x l /\ In c x.
Proof.
  induction l as [|x l IH]; [intros []|].
  destruct l as [|y l].
  - simpl. intros H. right. exists x. split; [now left | assumption].
  - rewrite join_cons. intros H. apply in_app_or in H as [H|H].
    + right. exists x. split; [now left | assumption].
    + apply in_app_or in H as [H|H]; [now left|].
      destruct (IH H) as [Hs|(z & Hz & Hc)]; [now left|].
      right. exists z. split; [now right | assumption].
Qed.

Section SearchDescription.
Context {rt : PyRuntime}.

Lemma clean_search_term_no_quote (each : str) : ~ In (ch "'") (clean_search_term each).
Proof.
  unfold clean_search_term, strip_chars. intros H.
  match type of H with In _ (strip_with ?p ?s) =>
    destruct (strip_with_infix p s) as (a & b & E);
    assert (Hs : In (ch "'") s) by (rewrite E; apply in_or_app; right; apply in_or_app; now left)
  end.
  revert Hs. apply re_sub_absent.
  - apply replace_char_gone. intros [].
  - intros [E'|[]]. discriminate.
Qed.

(** X22. [get_search_terms_string] fails with [AttributeError] when the
    disease or the tissue is a list that is not empty or a number other
    than zero; otherwise it returns a description that holds no single
    quote mark. *)
Theorem search_terms_without_quote_marks (self : Query) (kwds : list str) :
  let is_text (each : pyarg) :=
    match each with
    | ArgList (_ :: _) => false
    | ArgInt z => (z =? 0)%Z
    | _ => true
    end in
  if is_text (disease self) && is_text (tissue self) then
    exists description,
      get_search_terms_string self kwds = Ret description /\
      ~ In (ch "'") description
  else get_search_terms_string self kwds = Raise AttributeError.
Proof.
  cbv zeta. unfold get_search_terms_string.
  assert (Hterm : forall each : pyarg,
             match each with
             | ArgList (_ :: _) => search_term_text each = Raise AttributeError
             | ArgInt z => if (z =? 0)%Z then search_term_text each = Ret None
                           else search_term_text each = Raise AttributeError
             | _ => exists t, search_term_text each = Ret t
             end).
  { intros [|s|[|x l]|z]; simpl; eauto. destruct (z =? 0)%Z; reflexivity. }
  assert (Hclean : forall texts : list (option str),
             ~ In (ch "'")
                 (join (lit ", ")
                    (flat_map (fun each => match each with
                                           | Some (c :: s) => [clean_search_term (c :: s)]
                                           | _ => []
                                           end) texts))).
  { intros texts H. apply join_chars in H as [H|(x & Hx & H)].
    - destruct H as [E|[E|[]]]; discriminate.
    - apply in_flat_map in Hx as (each & _ & Hx).
      destruct each as [[|c s]|]; try destruct Hx as [<-|[]]; try destruct Hx.
      revert H. apply clean_search_term_no_quote. }
  pose proof (Hterm (disease self)) as Hd. pose proof (Hterm (tissue self)) as Ht.
  destruct (disease self) as [|s|[|x l]|z]; cbn [andb] in *;
    try (destruct (z =? 0)%Z; cbn [andb]);
    try (rewrite Hd; reflexivity);
    try destruct Hd as (d & Hd); rewrite Hd; cbn [obind];
    destruct (tissue self) as [|s'|[|x' l']|z']; cbn [andb] in *;
    try (destruct (z' =? 0)%Z; cbn [andb]);
    try (rewrite Ht; reflexivity);
    try destruct Ht as (t & Ht); rewrite Ht; cbn [obind];
    (eexists; split; [reflexivity | apply Hclean]).
Qed.

End SearchDescription.

(** ** Roots and parts of a gene family *)

Lemma set_root_keys (rp : list (str * list str)) (root : str) (parts : list str) :
  map fst (set_root rp root parts)
  = if existsb (str_eqb root) (map fst rp) then map fst rp else map fst rp ++ [root].
Proof.
  induction rp as [|[k v] rp IH]; simpl; [reflexivity|].
  destruct (str_eqb k root) eqn:E.
  - apply str_eqb_eq in E. subst k. rewrite str_eqb_refl. reflexivity.
  - assert (E' : str_eqb root k = false).
    { apply str_eqb_neq. apply str_eqb_neq in E. congruence. }
    rewrite E'. simpl. rewrite IH. now destruct (existsb _ _).
Qed.

Lemma set_root_in (rp : list (str * list str)) (root : str) (parts : list str)
  (k : str) (v : list str) :
  In (k, v) (set_root rp root parts) -> (k = root /\ v = parts) \/ In (k, v) rp.
Proof.
  induction rp as [|[k0 v0] rp IH]; simpl.
  - intros [E|[]]. injection E as <- <-. now left.
  - destruct (str_eqb k0 root) eqn:E.
    + apply str_eqb_eq in E. subst k0. intros [H|H].
      * injection H as <- <-. now left.
      * right. now right.
    + intros [H|H]; [right; now left|]. destruct (IH H); [now left | right; now right].
Qed.

Section FamilyParts.
Context {rt : PyRuntime}.
Variable self : Query.

(** The parts of the synonyms that hold a root: what is left of each one
    without the root. *)
Definition parts_of (root : str) : list str :=
  map (fun syn => strip (replace syn root []))
      (filter (fun syn => contains syn root) (gene_syns self)).

Definition add_root (roots_and_parts : list (str * list str)) (root : str)
  : list (str * list str) :=
  match parts_of root with
  | [] => roots_and_parts
  | _ => set_root roots_and_parts root (set_iter (parts_of root))
  end.

Definition roots_inv (rp : list (str * list str)) (seen : list str) : Prop :=
  NoDup (map fst rp) /\
  (forall k v, In (k, v) rp ->
               In k seen /\ parts_of k <> [] /\ v = set_iter (parts_of k)) /\
  (forall k, In k seen -> parts_of k <> [] -> In k (map fst rp)).

Lemma add_root_inv (rp : list (str * list str)) (seen : list str) (root : str) :
  roots_inv rp seen -> roots_inv (add_root rp root) (seen ++ [root]).
Proof.
  intros (Hnd & Hin & Hall). unfold add_root.
  destruct (parts_of root) as [|p ps] eqn:E.
  - split; [assumption|]. split.
    + intros k v H. destruct (Hin k v H) as (H1 & H2 & H3).
      split; [apply in_or_app; now left | auto].
    + intros k Hk Hne. apply in_app_or in Hk as [Hk|[<-|[]]]; [auto | congruence].
  - rewrite <- E. split; [|split].
    + rewrite set_root_keys. destruct (existsb _ _) eqn:Ex; [assumption|].
      apply NoDup_app; [assumption | repeat constructor; intros [] |].
      intros x Hx [<-|[]]. apply existsb_str_eqb in Hx. congruence.
    + intros k v H. apply set_root_in in H as [[-> ->]|H].
      * split; [apply in_or_app; right; now left|]. split; [congruence | reflexivity].
      * destruct (Hin k v H) as (H1 & H2 & H3). split; [apply in_or_app; now left | auto].
    + intros k Hk Hne. rewrite set_root_keys.
      destruct (existsb (str_eqb root) (map fst rp)) eqn:Ex.
      * apply in_app_or in Hk as [Hk|[<-|[]]]; [auto|]. now apply existsb_str_eqb.
      * apply in_or_app. apply in_app_or in Hk as [Hk|[<-|[]]]; [left; auto | right; now left].
Qed.

Lemma add_roots_inv (roots : list str) :
  forall rp seen, roots_inv rp seen -> roots_inv (fold_left add_root roots rp) (seen ++ roots).
Proof.
  induction roots as [|root roots IH]; intros rp seen H; simpl.
  - now rewrite app_nil_r.
  - replace (seen ++ root :: roots) with ((seen ++ [root]) ++ roots)
      by (now rewrite <- app_assoc).
    apply IH. now apply add_root_inv.
Qed.

Lemma parts_of_nonempty (root : str) :
  parts_of root <> [] <->
  exists syn, In syn (gene_syns self) /\ contains syn root = true.
Proof.
  unfold parts_of. split.
  - intros H. destruct (filter _ _) as [|syn l] eqn:E; [contradiction|].
    assert (Hs : In syn (filter (fun syn => contains syn root) (gene_syns self)))
      by (rewrite E; now left).
    apply filter_In in Hs. eauto.
  - intros (syn & Hs & Hc) E.
    assert (Hin : In syn (filter (fun syn => contains syn root) (gene_syns self)))
      by (apply filter_In; auto).
    apply (in_map (fun syn => strip (replace syn root []))) in Hin.
    rewrite E in Hin. destruct Hin.
Qed.

(** X23. [get_roots_and_parts_from_family_synonyms] has one entry for every
    family root that is found in a synonym of the gene, and for no other
    root; the parts of a root are what is left of the synonyms that hold
    it once the root is taken out and the ends are stripped, each part
    once. A root found in no synonym has no entry. *)
Theorem roots_and_parts_characterised :
  let roots_and_parts := get_roots_and_parts_from_family_synonyms self in
  NoDup (map fst roots_and_parts) /\
  (forall root,
      In root (map fst roots_and_parts) <->
      In root (gene_syn_roots self) /\
      exists syn, In syn (gene_syns self) /\ contains syn root = true) /\
  (forall root parts,
      In (root, parts) roots_and_parts ->
      NoDup parts /\
      forall part,
        In part parts <->
        exists syn, In syn (gene_syns self) /\ contains syn root = true /\
                    part = strip (replace syn root [])).
Proof.
  cbv zeta.
  assert (H : roots_inv (get_roots_and_parts_from_family_synonyms self) (gene_syn_roots self)).
  { change (gene_syn_roots self) with ([] ++ gene_syn_roots self).
    change (get_roots_and_parts_from_family_synonyms self)
      with (fold_left add_root (gene_syn_roots self) []).
    apply add_roots_inv. split; [constructor|]. split; [intros k v [] | intros k []]. }
  destruct H as (Hnd & Hin & Hall). split; [assumption|]. split.
  - intros root. split.
    + intros H. apply in_map_iff in H as ([k v] & <- & H).
      destruct (Hin k v H) as (H1 & H2 & _). split; [assumption|].
      now apply parts_of_nonempty.
    + intros [H1 H2]. apply Hall; [assumption|]. now apply parts_of_nonempty.
  - intros root parts H. destruct (Hin root parts H) as (_ & _ & ->).
    split; [apply set_iter_nodup|]. intros part. rewrite set_iter_in. unfold parts_of.
    rewrite in_map_iff. split.
    + intros (syn & <- & Hs). apply filter_In in Hs as [Hs Hc]. eauto.
    + intros (syn & Hs & Hc & ->). exists syn. split; [reflexivity|].
      apply filter_In. auto.
Qed.

End FamilyParts.

(** ** Keywords that are not expanded *)

Lemma concat_singletons (A : Type) (l : list A) : concat (map (fun x => [x]) l) = l.
Proof. induction l as [|x l IH]; simpl; [reflexivity | now rewrite IH]. Qed.

Section PlainKeywords.
Context {rt : PyRuntime}.
Variable ols_search : str -> answer (list str).
Variable ols_node_syns : str -> bool -> answer (list str).
Variable qualifiers : list (str * list str).

(** X24. Without tissue and disease and with keywords that are not to be
    expanded, [get_constant_query_strings] returns without a request to a
    service (it logs at most the error of the settings that are too long):
    there is one query part for each different keyword, made of that
    keyword alone, the keywords are added to the keyword synonyms of the
    object, and the list of keywords for the output keeps repetitions. *)
Theorem plain_keywords_one_part_each (self : Query) (fuel : nat) (ev : list event)
  (c : N) (k : str) :
  truthy (tissue self) = false -> truthy (disease self) = false ->
  expand self = false -> kwds self = Some (c :: k) ->
  let names := map strip (split_on (ch ",") (c :: k)) in
  exists ev' self' others,
    get_constant_query_strings ols_search ols_node_syns qualifiers self fuel ev
    = (ev', Ret (self', ([], [], others,
                         map (fun kwd => add_abstract_title_and_join_synonyms [kwd] true false)
                             (set_iter names),
                         names))) /\
    kwd_syn_lists self' = map (fun kwd => [kwd]) (set_iter names) /\
    kwd_syns self' = kwd_syns self ++ set_iter names /\
    (ev' = ev \/ exists message, ev' = ev ++ [Log ERROR message]).
Proof.
  intros T D X K names.
  assert (Ho : exists ev' others,
             others_string self ev = (ev', Ret others) /\
             (ev' = ev \/ exists message, ev' = ev ++ [Log ERROR message])).
  { unfold others_string. destruct (other_args self) as [[|kv rest]|]; unfold mret; eauto.
    destruct (_ <? _)%nat; unfold mbind, emit, mret, settings_too_long; eauto 6. }
  destruct Ho as (ev' & others & Eo & Hev).
  exists ev'. eexists. exists others.
  unfold get_constant_query_strings, constant_segments, mbind, mret.
  rewrite Eo, T. cbv beta iota. rewrite D. cbv beta iota. rewrite K.
  unfold get_kwd_synonyms, mbind, mret. rewrite X. cbv beta iota.
  cbn [kwd_syn_lists kwd_syns set_kwds]. rewrite map_map. fold names.
  split; [reflexivity|]. cbn [kwd_syn_lists kwd_syns set_kwds].
  rewrite concat_singletons. auto.
Qed.

End PlainKeywords.

Definition plain_keyword_query : Query :=
  mkQuery ArgNone ArgNone (Some (lit "asthma, copd,asthma")) None false 0 [] [] [] [] [] [].

Lemma plain_keywords_one_part_each_witness :
  exists ev' self' others,
    get_constant_query_strings (fun _ => inl []) (fun _ _ => inl []) []
      plain_keyword_query 0 []
    = (ev', Ret (self', ([], [], others,
                         map (fun kwd => add_abstract_title_and_join_synonyms [kwd] true false)
                             [lit "asthma"; lit "copd"],
                         [lit "asthma"; lit "copd"; lit "asthma"]))) /\
    kwd_syn_lists self' = [[lit "asthma"]; [lit "copd"]] /\
    kwd_syns self' = [lit "asthma"; lit "copd"] /\
    (ev' = [] \/ exists message, ev' = [] ++ [Log ERROR message]).
Proof.
  exact (@plain_keywords_one_part_each ascii_runtime (fun _ => inl []) (fun _ _ => inl []) []
           plain_keyword_query 0 [] (ch "a") (lit "sthma, copd,asthma")
           eq_refl eq_refl eq_refl eq_refl).
Defined.
